(** * word_cloud: the layout loop of [make_wordcloud] (wordcloud.py)

    A shallow embedding of [make_wordcloud]: weight normalisation and
    sorting, the per-word shrink loop, drawing into the grey image and the
    incremental update of the integral image.

    Conventions.
    - Python integers are [Z]; floats are exact rationals [Q] extended with
      the IEEE special values ([npfloat]); rounding is not modelled.
    - numpy arrays are lists, 2-D arrays are lists of rows ([matrix]).
    - The integral image has dtype [np.uint32]: every store into it wraps
      modulo 2^32.
    - PIL (fonts, text metrics, glyph bitmaps), the process-wide random
      generator, [np.log] and [np.argsort] are external to the repository and
      are collected in the record [Env]. *)

From Stdlib Require Import ZArith QArith Reals Qreals Lra Lia String Ascii Bool List.
From Stdlib Require Import Sorted Permutation.
Import ListNotations.

Local Open Scope list_scope.
Local Open Scope Z_scope.

(** ** Exceptions and results *)

Inductive exn : Type :=
| ValueError
| IndexError
| TypeError
| IOError (msg : string).

(** [OutOfFuel] stands for a [while True] loop that has not left within the
    fuel it was given. *)
Inductive outcome (A : Type) : Type :=
| Ok (a : A)
| Raise (e : exn)
| OutOfFuel.

Arguments Ok {A} a.
Arguments Raise {A} e.
Arguments OutOfFuel {A}.

Definition bind {A B : Type} (m : outcome A) (k : A -> outcome B) : outcome B :=
  match m with
  | Ok a => k a
  | Raise e => Raise e
  | OutOfFuel => OutOfFuel
  end.

Notation "x <- m ;; k" := (bind m (fun x => k))
  (at level 61, m at next level, right associativity).

(** ** numpy floats: normalisation and ordering *)

Inductive npfloat : Type :=
| Finite (q : Q)
| NaN
| PosInf
| NegInf.

(** [counts.max()]: numpy raises ValueError on a zero-size array. *)
Definition Qmax_b (a b : Q) : Q := if Qle_bool a b then b else a.

Definition np_max (counts : list Q) : outcome Q :=
  match counts with
  | [] => Raise ValueError
  | c :: rest => Ok (fold_left Qmax_b rest c)
  end.

(** [c / float(m)] on a numpy array: division by zero does not raise, it
    yields nan (0/0) or a signed infinity. *)
Definition np_true_divide (c m : Q) : npfloat :=
  if Qeq_bool m 0 then
    if Qeq_bool c 0 then NaN
    else if Qle_bool 0 c then PosInf else NegInf
  else Finite (c / m).

(** line 77: [counts = counts / float(counts.max())] *)
Definition normalize (counts : list Q) : outcome (list npfloat) :=
  m <- np_max counts ;;
  Ok (map (fun c => np_true_divide c m) counts).

(** The order numpy sorts floats by: nan compares greater than everything. *)
Definition np_leb (a b : npfloat) : bool :=
  match a, b with
  | _, NaN => true
  | NaN, _ => false
  | NegInf, _ => true
  | _, NegInf => false
  | _, PosInf => true
  | PosInf, _ => false
  | Finite p, Finite q => Qle_bool p q
  end.

Definition np_ltb (a b : npfloat) : bool := negb (np_leb b a).

Definition in_unit_interval (v : npfloat) : Prop :=
  match v with
  | Finite q => (0 <= q /\ q <= 1)%Q
  | _ => False
  end.

(** [a[inds]]: fancy indexing, IndexError on an index out of range. *)
Fixpoint np_take {A : Type} (a : list A) (inds : list nat) : outcome (list A) :=
  match inds with
  | [] => Ok []
  | i :: rest =>
      match nth_error a i with
      | None => Raise IndexError
      | Some v => vs <- np_take a rest ;; Ok (v :: vs)
      end
  end.

(** Insertion sort of the indices, the part of numpy's default sort that runs
    on short arrays; it keeps equal keys in input order. *)
Fixpoint insert_index (key : nat -> npfloat) (i : nat) (sorted : list nat) : list nat :=
  match sorted with
  | [] => [i]
  | j :: rest =>
      if np_leb (key j) (key i) then j :: insert_index key i rest
      else i :: sorted
  end.

Definition insertion_argsort (a : list npfloat) : list nat :=
  fold_left (fun sorted i => insert_index (fun k => nth k a NaN) i sorted)
            (seq 0 (length a)) [].

(** ** Matrices *)

Definition matrix : Type := list (list Z).

Definition cell (m : matrix) (r c : nat) : Z := nth c (nth r m []) 0.

(** [shape[1]] *)
Definition width (m : matrix) : nat := length (hd [] m).

Definition zeros (h w : Z) : matrix :=
  repeat (repeat 0 (Z.to_nat w)) (Z.to_nat h).

Definition wrap32 (v : Z) : Z := v mod 2 ^ 32.

Fixpoint mapi_from {A B : Type} (i : nat) (f : nat -> A -> B) (l : list A) : list B :=
  match l with
  | [] => []
  | a :: rest => f i a :: mapi_from (S i) f rest
  end.

Definition mapi {A B : Type} (f : nat -> A -> B) (l : list A) : list B :=
  mapi_from 0 f l.

Fixpoint zip_with {A B C : Type} (f : A -> B -> C) (l : list A) (k : list B) : list C :=
  match l, k with
  | a :: l', b :: k' => f a b :: zip_with f l' k'
  | _, _ => []
  end.

(** Start of the slice [a[i:]] on an axis of length [len]; a negative [i]
    counts from the end. *)
Definition slice_start (len : nat) (i : Z) : nat :=
  if i <? 0 then Z.to_nat (Z.of_nat len + i) else Z.to_nat i.

Definition slice_from {A : Type} (i : Z) (l : list A) : list A :=
  skipn (slice_start (length l) i) l.

(** [np.cumsum] along a row. *)
Fixpoint cumsum_from (acc : Z) (l : list Z) : list Z :=
  match l with
  | [] => []
  | v :: rest => (acc + v) :: cumsum_from (acc + v) rest
  end.

Definition cumsum (l : list Z) : list Z := cumsum_from 0 l.

(** [np.cumsum(_, axis=0)]: running sums down the columns. *)
Fixpoint cumsum_axis0_from (acc : list Z) (m : matrix) : matrix :=
  match m with
  | [] => []
  | row :: rest =>
      let s := zip_with Z.add acc row in
      s :: cumsum_axis0_from s rest
  end.

Definition cumsum_axis0 (m : matrix) : matrix :=
  match m with
  | [] => []
  | row :: rest => row :: cumsum_axis0_from row rest
  end.

(** ** Drawing: PIL's paste of a solid ink through an 8-bit mask *)

Definition MULDIV255 (a b : Z) : Z :=
  let tmp := a * b + 128 in
  Z.shiftr (Z.shiftr tmp 8 + tmp) 8.

Definition BLEND (mask in1 in2 : Z) : Z :=
  MULDIV255 in1 (255 - mask) + MULDIV255 in2 mask.

(** [draw.text((x0, y0), word, fill="white")] on the mode "L" image, with
    [mask] the bitmap of the word in the current font: each image pixel under
    the bitmap is blended towards white (255) by the bitmap's coverage; the
    bitmap is clipped to the image. [x0] is the column, [y0] the row. *)
Definition draw_text (img : matrix) (xy : Z * Z) (mask : matrix) : matrix :=
  let '(x0, y0) := xy in
  mapi (fun r row =>
          mapi (fun c out =>
                  let i := Z.of_nat r - y0 in
                  let j := Z.of_nat c - x0 in
                  if (0 <=? i) && (i <? Z.of_nat (length mask))
                     && (0 <=? j) && (j <? Z.of_nat (width mask))
                  then BLEND (cell mask (Z.to_nat i) (Z.to_nat j)) out 255
                  else out)
               row)
       img.

(** ** The integral image *)

(** Lines 131-148. [partial_integral] is the double cumulative sum of the
    block [img_array[x:, y:]]; the sums already known on its upper and left
    border are added and the block is pasted back into [integral].
    The block is held in the platform integer, which no array that fits in
    memory can overflow; the differences [integral[x-1, y:] - integral[x-1, y-1]]
    are taken in uint32 and the final store wraps to uint32. *)
Definition row_at (m : matrix) (i : Z) : outcome (list Z) :=
  match nth_error m (Z.to_nat i) with
  | Some row => Ok row
  | None => Raise IndexError
  end.

Definition item_at (row : list Z) (j : Z) : outcome Z :=
  match nth_error row (Z.to_nat j) with
  | Some v => Ok v
  | None => Raise IndexError
  end.

Definition column_at (m : matrix) (j : Z) : outcome (list Z) :=
  if j <? Z.of_nat (width m) then Ok (map (fun row => nth (Z.to_nat j) row 0) m)
  else Raise IndexError.

Definition add_row (block : matrix) (v : list Z) : matrix :=
  map (fun brow => zip_with Z.add brow v) block.

Definition add_column (block : matrix) (col : list Z) : matrix :=
  zip_with (fun brow v => map (Z.add v) brow) block col.

Definition assign_block (integral : matrix) (x y : Z) (block : matrix) : matrix :=
  let xs := slice_start (length integral) x in
  firstn xs integral
  ++ zip_with (fun row brow =>
                 firstn (slice_start (length row) y) row ++ map wrap32 brow)
              (skipn xs integral) block.

Definition update_integral (integral img_array : matrix) (x y : Z)
  : outcome matrix :=
  let partial_integral :=
    cumsum_axis0 (map cumsum (map (slice_from y) (slice_from x img_array))) in
  partial_integral <-
    (if x >? 0 then
       above <- row_at integral (x - 1) ;;
       if y >? 0 then
         corner <- item_at above (y - 1) ;;
         Ok (add_row partial_integral
               (map (fun v => wrap32 (v - corner)) (slice_from y above)))
       else Ok (add_row partial_integral (slice_from y above))
     else Ok partial_integral) ;;
  partial_integral <-
    (if y >? 0 then
       left <- column_at integral (y - 1) ;;
       Ok (add_column partial_integral (slice_from x left))
     else Ok partial_integral) ;;
  Ok (assign_block integral x y partial_integral).

(** The exact 2-D prefix sum, as a double sum over cells. *)
Fixpoint sumn (n : nat) (f : nat -> Z) : Z :=
  match n with
  | O => 0
  | S k => sumn k f + f k
  end.

(** Sum of [m] over rows [< r] and columns [< c]. *)
Definition psum (m : matrix) (r c : nat) : Z :=
  sumn r (fun i => sumn c (fun j => cell m i j)).

(** ** Free-region query *)

(** Modelled from the spec: the table lookup of [query_integral_image]
    (spec 4.1); a lookup with a negative row or column is zero. *)
Definition lookup0 (I : matrix) (r c : Z) : Z :=
  if (r <? 0) || (c <? 0) then 0 else cell I (Z.to_nat r) (Z.to_nat c).

(** Modelled from the spec: [query_integral_image] is imported from a module
    that is not among the sources. Spec 4.1: the rectangular sum is taken by
    inclusion-exclusion on the integral table, lookups above row 0 or left of
    column 0 count as zero. *)
Definition queryRegionSum (I : matrix) (top left h w : Z) : Z :=
  lookup0 I (top + h - 1) (left + w - 1)
  - lookup0 I (top - 1) (left + w - 1)
  - lookup0 I (top + h - 1) (left - 1)
  + lookup0 I (top - 1) (left - 1).

Definition zrange (n : Z) : list Z := map Z.of_nat (seq 0 (Z.to_nat n)).

(** Modelled from the spec: [query_integral_image] (spec 4.2, FreeRegionQuery).
    Candidate origins are the rows 0..H-size_x and the columns 0..W-size_y,
    scanned row-major from the top; the first candidate whose region sum is
    zero wins, and there is none when the box fits nowhere. *)
Definition query_integral_image (I : matrix) (size_x size_y : Z) : option (Z * Z) :=
  let H := Z.of_nat (length I) in
  let W := Z.of_nat (width I) in
  find (fun rc => queryRegionSum I (fst rc) (snd rc) size_x size_y =? 0)
       (flat_map (fun r => map (pair r) (zrange (W - size_y + 1)))
                 (zrange (H - size_x + 1))).

(** ** External collaborators *)

Inductive orientation : Type :=
| NoRotation   (* Python: orientation = None *)
| ROTATE_90.

Record Env : Type := {
  Font : Type;
  (** [ImageFont.truetype(path, size)]; [None] is IOError. *)
  truetype : string -> Z -> option Font;
  (** [draw.textsize(word)] with [TransposedFont(font, orientation)] set:
      (width, height). *)
  textsize : Font -> orientation -> string -> Z * Z;
  (** the bitmap [draw.text] pastes for the word in that font. *)
  getmask : Font -> orientation -> string -> matrix;
  (** the successive values of [random.random()]. *)
  random : nat -> Q;
  (** [int(100 * np.log(count + 100))]; [None] when [int] raises (nan, inf). *)
  log_size : npfloat -> option Z;
  (** [np.argsort]. *)
  argsort : list npfloat -> list nat
}.

(** ** make_wordcloud *)

Definition FONT_PATH : string :=
  "/usr/share/fonts/truetype/liberation/LiberationSans-Regular.ttf"%string.

(** [s.rsplit(sep, 1)[-1]]: what follows the last separator. *)
Fixpoint last_segment (sep : ascii) (s acc : string) : string :=
  match s with
  | EmptyString => acc
  | String ch rest =>
      if Ascii.eqb ch sep then last_segment sep rest EmptyString
      else last_segment sep rest (acc ++ String ch EmptyString)%string
  end.

Definition font_not_found : exn :=
  let fontfile := last_segment "/"%char FONT_PATH EmptyString in
  IOError ("Font '" ++ fontfile ++ "' not found. Please change 'FONT_PATH' "
           ++ "to a valid font file path.")%string.

(** The variables of the main loop. [draws] counts the calls of
    [random.random()] made so far. *)
Record state : Type := {
  img_grey : matrix;
  integral : matrix;
  font_size : Z;
  font_sizes : list Z;
  positions : list (Z * Z);
  orientations : list orientation;
  draws : nat
}.

(** The variables the [while True] loop leaves behind. *)
Record attempt (F : Type) : Type := {
  a_font_size : Z;
  a_font : F;
  a_orientation : orientation;
  a_box_size : Z * Z;
  a_result : option (Z * Z);
  a_draws : nat
}.

Arguments a_font_size {F} _.
Arguments a_font {F} _.
Arguments a_orientation {F} _.
Arguments a_box_size {F} _.
Arguments a_result {F} _.
Arguments a_draws {F} _.

Definition choose_orientation (r prefer_horiz : Q) : orientation :=
  if Qle_bool prefer_horiz r then ROTATE_90 else NoRotation.

Section Layout.
Variable env : Env.
Variable fuel : nat.
Variable font_path : string.
Variable margin : Z.
Variable ranks_only : bool.
Variable prefer_horiz : Q.

(** Lines 95-119. *)
Fixpoint shrink_loop (fuel : nat) (word : string) (font_size : Z)
         (integral : matrix) (draws : nat) : outcome (attempt (Font env)) :=
  match truetype env font_path font_size with
  | None => Raise font_not_found
  | Some font =>
      let orientation := choose_orientation (random env draws) prefer_horiz in
      let box_size := textsize env font orientation word in
      let result := query_integral_image integral (snd box_size + margin)
                                         (fst box_size + margin) in
      if (match result with Some _ => true | None => false end)
         || (font_size =? 0)
      then Ok {| a_font_size := font_size; a_font := font;
                 a_orientation := orientation; a_box_size := box_size;
                 a_result := result; a_draws := S draws |}
      else
        match fuel with
        | O => OutOfFuel
        | S fuel' => shrink_loop fuel' word (font_size - 1) integral (S draws)
        end
  end.

Inductive flow : Type :=
| Next (st : state)
| Break (st : state).

(** Lines 92-94. *)
Definition candidate_size (font_size : Z) (count : npfloat) : outcome Z :=
  if ranks_only then Ok font_size
  else match log_size env count with
       | Some s => Ok (Z.min font_size s)
       | None => Raise ValueError
       end.

(** One iteration of the [for word, count in zip(words, counts)] loop. *)
Definition loop_body (word : string) (count : npfloat) (st : state)
  : outcome flow :=
  size <- candidate_size (font_size st) count ;;
  a <- shrink_loop fuel word size (integral st) (draws st) ;;
  if a_font_size a =? 0 then
    Ok (Break {| img_grey := img_grey st; integral := integral st;
                 font_size := a_font_size a;
                 font_sizes := font_sizes st; positions := positions st;
                 orientations := orientations st; draws := a_draws a |})
  else
    match a_result a with
    | None => Raise TypeError
    | Some (r, c) =>
        let x := r + margin / 2 in
        let y := c + margin / 2 in
        let img := draw_text (img_grey st) (y, x)
                             (getmask env (a_font a) (a_orientation a) word) in
        integral' <- update_integral (integral st) img x y ;;
        Ok (Next {| img_grey := img; integral := integral';
                    font_size := a_font_size a;
                    font_sizes := font_sizes st ++ [a_font_size a];
                    positions := positions st ++ [(x, y)];
                    orientations := orientations st ++ [a_orientation a];
                    draws := a_draws a |})
    end.

Fixpoint place_words (ws : list (string * npfloat)) (st : state)
  : outcome state :=
  match ws with
  | [] => Ok st
  | (word, count) :: rest =>
      match loop_body word count st with
      | Ok (Next st') => place_words rest st'
      | Ok (Break st') => Ok st'
      | Raise e => Raise e
      | OutOfFuel => OutOfFuel
      end
  end.
End Layout.

Definition initial_state (width height : Z) : state :=
  {| img_grey := zeros height width; integral := zeros height width;
     font_size := 1000; font_sizes := []; positions := [];
     orientations := []; draws := 0%nat |}.

(** Lines 76-81: normalise, then sort both arrays by descending count. *)
Definition sort_by_counts (env : Env) (words : list string) (counts : list Q)
  : outcome (list string * list npfloat) :=
  counts <- normalize counts ;;
  let inds := rev (argsort env counts) in
  counts <- np_take counts inds ;;
  words <- np_take words inds ;;
  Ok (words, counts).

(** The layout part of [make_wordcloud] (lines 69-148). On an empty [counts]
    line 70 only prints a message; execution continues. The result is the
    sorted [words] with the final loop variables. *)
Definition make_wordcloud (env : Env) (fuel : nat)
           (words : list string) (counts : list Q) (width height : Z)
           (font_path : option string) (margin : Z) (ranks_only : bool)
           (prefer_horiz : Q) : outcome (list string * state) :=
  let font_path := match font_path with None => FONT_PATH | Some p => p end in
  sorted <- sort_by_counts env words counts ;;
  st <- place_words env fuel font_path margin ranks_only prefer_horiz
          (combine (fst sorted) (snd sorted)) (initial_state width height) ;;
  Ok (fst sorted, st).

(** [everything = zip(words, font_sizes, positions, orientations)]: what the
    colour pass draws. *)
Record placement : Type := {
  p_word : string;
  p_font_size : Z;
  p_position : Z * Z;
  p_orientation : orientation
}.

Fixpoint zip4 (ws : list string) (fs : list Z) (ps : list (Z * Z))
         (os : list orientation) : list placement :=
  match ws, fs, ps, os with
  | w :: ws', f :: fs', p :: ps', o :: os' =>
      {| p_word := w; p_font_size := f; p_position := p; p_orientation := o |}
      :: zip4 ws' fs' ps' os'
  | _, _, _, _ => []
  end.

Definition everything (words : list string) (st : state) : list placement :=
  zip4 words (font_sizes st) (positions st) (orientations st).

(** ** A concrete environment

    Block glyphs: a font of size [s] draws every character as a fully inked
    [s] x [s] square, so a word of [n] characters is an [s] x [s*n] box, or
    [s*n] x [s] when rotated. Only [FONT_PATH] names a font file that exists,
    and it loads at every size from 0 up.
    [log_size] is [int(100 * log(count + 100))] on the normalised weights
    0 <= count <= 1 (the value changes from 460 to 461 between 0.4841 and
    0.4842). *)
Definition solid (h w : Z) : matrix :=
  repeat (repeat 255 (Z.to_nat w)) (Z.to_nat h).

Definition block_textsize (s : Z) (o : orientation) (word : string) : Z * Z :=
  let n := Z.of_nat (String.length word) in
  match o with
  | NoRotation => (s * n, s)
  | ROTATE_90 => (s, s * n)
  end.

Definition block_env (rnd : nat -> Q) : Env :=
  {| Font := Z;
     truetype := fun path size =>
                   if String.eqb path FONT_PATH && (0 <=? size)
                   then Some size else None;
     textsize := block_textsize;
     getmask := fun s o word =>
                  solid (snd (block_textsize s o word))
                        (fst (block_textsize s o word));
     random := rnd;
     log_size := fun count =>
                   match count with
                   | Finite q =>
                       Some (if Qle_bool (4842 # 10000) q then 461 else 460)
                   | _ => None
                   end;
     argsort := insertion_argsort |}.

(** ** Weighted sizing over the reals

    Line 94, [int(100 * np.log(count + 100))], with the float arithmetic read
    as real arithmetic; Python's [int] truncates towards zero. *)
Definition python_int (x : R) : Z :=
  if Rle_dec 0 x then Int_part x else - Int_part (- x).

Definition size_from_weight (count : R) : Z :=
  python_int (100 * ln (count + 100)).

(** The external [log_size] computes line 94 on the finite weights. *)
Definition log_size_is_real (env : Env) : Prop :=
  forall q, log_size env (Finite q) = Some (size_from_weight (Q2R q)).

(** Fixed-point squaring, rounded down: used to bound [exp] from below. *)
Definition fx_one : Z := 40960000000000.

Definition fx_sq (n : Z) : Z := n * n / fx_one.

(** ** Orders on the sorted indices *)

Fixpoint pairwise {A : Type} (rel : A -> A -> bool) (l : list A) : bool :=
  match l with
  | [] => true
  | x :: rest => forallb (rel x) rest && pairwise rel rest
  end.

(** [inds] lists indices into [a] by ascending value: what [np.argsort]
    returns. *)
Definition ascending_keys (a : list npfloat) (inds : list nat) : bool :=
  pairwise (fun i j => np_leb (nth i a NaN) (nth j a NaN)) inds.

(** Equal values stay in input order, as after a stable sort. *)
Definition keeps_input_order (a : list npfloat) (inds : list nat) : bool :=
  pairwise (fun i j => implb (np_leb (nth j a NaN) (nth i a NaN)) (i <? j)%nat)
           inds.

(** The tie rule in the specification's words: of two words of equal weight
    the one earlier in the input comes first in [order]. *)
Definition ties_by_input_index (a : list npfloat) (order : list nat) : bool :=
  pairwise (fun i j =>
              implb (np_leb (nth i a NaN) (nth j a NaN)
                     && np_leb (nth j a NaN) (nth i a NaN))
                    (i <? j)%nat)
           order.

(** A generator whose first value is below 0.9 and whose later values are
    above it. *)
Definition first_low (n : nat) : Q :=
  match n with
  | O => 0
  | S _ => 95 # 100
  end.

(** ** Shapes and the parts of the updated block *)

Definition shape_ok (m : matrix) (H W : nat) : Prop :=
  length m = H /\ Forall (fun row => length row = W) m.

(** Sum of [G] over the rows [xs .. xs+i] and the columns [ys .. ys+j]. *)
Definition block_sum (G : matrix) (xs ys i j : nat) : Z :=
  sumn (S i) (fun a => sumn (S j) (fun b => cell G (xs + a) (ys + b))).

(** What lines 139-144 add in column [c]: the sums above row [x]. *)
Definition border_top (I : matrix) (x y : Z) (c : nat) : Z :=
  if x >? 0 then
    if y >? 0 then
      wrap32 (cell I (Z.to_nat (x - 1)) c
              - cell I (Z.to_nat (x - 1)) (Z.to_nat (y - 1)))
    else cell I (Z.to_nat (x - 1)) c
  else 0.

(** What lines 145-146 add in row [r]: the sums left of column [y]. *)
Definition border_left (I : matrix) (y : Z) (r : nat) : Z :=
  if y >? 0 then cell I r (Z.to_nat (y - 1)) else 0.
(** The integral image holds the prefix sums of [G], as uint32 values. *)
Definition integral_mod (I G : matrix) (H W : nat) : Prop :=
  forall r c, (r < H)%nat -> (c < W)%nat ->
    cell I r c = wrap32 (psum G (S r) (S c)).

(** The integral image holds the exact prefix sums of [G]. *)
Definition integral_exact (I G : matrix) (H W : nat) : Prop :=
  forall r c, (r < H)%nat -> (c < W)%nat ->
    cell I r c = psum G (S r) (S c).

Definition pixels_8bit (G : matrix) : Prop :=
  forall r c, 0 <= cell G r c <= 255.

(** The bitmaps PIL hands out are 8-bit images. *)
Definition masks_8bit (env : Env) : Prop :=
  forall font o word, pixels_8bit (getmask env font o word).

(** Whether the pixel (r, c) lies under a bitmap pasted with its top-left
    corner at row [y0], column [x0]. *)
Definition under_mask (mask : matrix) (x0 y0 : Z) (r c : nat) : bool :=
  (0 <=? Z.of_nat r - y0) && (Z.of_nat r - y0 <? Z.of_nat (length mask))
  && (0 <=? Z.of_nat c - x0) && (Z.of_nat c - x0 <? Z.of_nat (width mask)).
Definition flow_state (f : flow) : state :=
  match f with
  | Next st => st
  | Break st => st
  end.

(** The image and the integral image have the canvas shape, and the
    integral image holds the prefix sums of the image modulo 2^32. *)
Definition grid_inv (H W : nat) (st : state) : Prop :=
  shape_ok (img_grey st) H W
  /\ shape_ok (integral st) H W
  /\ integral_mod (integral st) (img_grey st) H W.

(** An environment in which every word is drawn as one fully inked row of
    [n] pixels, at every font size. *)
Definition banner_env (n : Z) : Env :=
  {| Font := unit;
     truetype := fun _ _ => Some tt;
     textsize := fun _ _ _ => (n, 1);
     getmask := fun _ _ _ => solid 1 n;
     random := fun _ => 0%Q;
     log_size := fun _ => Some 460;
     argsort := insertion_argsort |}.

(** ** Placements: rectangles and ink *)

(** Rows [r_top, r_top + r_height), columns [r_left, r_left + r_width). *)
Record rect : Type := {
  r_top : Z;
  r_left : Z;
  r_height : Z;
  r_width : Z
}.

Definition rects_intersect (a b : rect) : bool :=
  (r_top a <? r_top b + r_height b) && (r_top b <? r_top a + r_height a)
  && (r_left a <? r_left b + r_width b) && (r_left b <? r_left a + r_width a).

(** The box of a placement, inflated by the margin, at the origin the query
    returned for it (the recorded position is that origin plus margin // 2).
    The font is loaded as the colour pass loads it. *)
Definition queried_rect (env : Env) (font_path : string) (margin : Z)
           (p : placement) : option rect :=
  match truetype env font_path (p_font_size p) with
  | None => None
  | Some font =>
      let box := textsize env font (p_orientation p) (p_word p) in
      Some {| r_top := fst (p_position p) - margin / 2;
              r_left := snd (p_position p) - margin / 2;
              r_height := snd box + margin;
              r_width := fst box + margin |}
  end.

(** The placed rectangle in the specification's words: the box inflated by
    the margin, located at the recorded position. *)
Definition placed_rect (env : Env) (font_path : string) (margin : Z)
           (p : placement) : option rect :=
  match truetype env font_path (p_font_size p) with
  | None => None
  | Some font =>
      let box := textsize env font (p_orientation p) (p_word p) in
      Some {| r_top := fst (p_position p);
              r_left := snd (p_position p);
              r_height := snd box + margin;
              r_width := fst box + margin |}
  end.

Definition disjoint_rects (a b : option rect) : bool :=
  match a, b with
  | Some ra, Some rb => negb (rects_intersect ra rb)
  | _, _ => true
  end.

(** All pairs of placed rectangles of a layout are disjoint. *)
Definition boxes_disjoint (rect_of : placement -> option rect)
           (layout : list placement) : bool :=
  pairwise (fun p q => disjoint_rects (rect_of p) (rect_of q)) layout.

Definition in_rect (a : rect) (r c : nat) : bool :=
  (r_top a <=? Z.of_nat r) && (Z.of_nat r <? r_top a + r_height a)
  && (r_left a <=? Z.of_nat c) && (Z.of_nat c <? r_left a + r_width a).

Definition in_query_region (env : Env) (font_path : string) (margin : Z)
           (p : placement) (r c : nat) : bool :=
  match queried_rect env font_path margin p with
  | Some a => in_rect a r c
  | None => false
  end.

(** The pixels a placement inks: those under its bitmap, pasted at the
    recorded position, where the bitmap is not zero. *)
Definition inked (env : Env) (font_path : string) (p : placement)
           (r c : nat) : bool :=
  match truetype env font_path (p_font_size p) with
  | None => false
  | Some font =>
      let mask := getmask env font (p_orientation p) (p_word p) in
      under_mask mask (snd (p_position p)) (fst (p_position p)) r c
      && negb (cell mask (Z.to_nat (Z.of_nat r - fst (p_position p)))
                    (Z.to_nat (Z.of_nat c - snd (p_position p))) =? 0)
  end.

(** A bitmap is no larger than the text size reported for it. *)
Definition masks_fit (env : Env) (font_path : string) : Prop :=
  forall size font o word,
    truetype env font_path size = Some font ->
    Z.of_nat (length (getmask env font o word)) <= snd (textsize env font o word)
    /\ Z.of_nat (width (getmask env font o word))
       <= fst (textsize env font o word).

(** The state of a run over a canvas of [H] rows and [W] columns whose
    integral image is exact, together with what its layout records. *)
Definition layout_inv (env : Env) (font_path : string) (margin : Z)
           (H W : nat) (all : list string) (st : state) : Prop :=
  shape_ok (img_grey st) H W
  /\ shape_ok (integral st) H W
  /\ integral_exact (integral st) (img_grey st) H W
  /\ pixels_8bit (img_grey st)
  /\ length (positions st) = length (font_sizes st)
  /\ length (orientations st) = length (font_sizes st)
  /\ (forall p r c, In p (everything all st) ->
        inked env font_path p r c = true -> cell (img_grey st) r c <> 0)
  /\ (forall i j p q, (i < j)%nat ->
        nth_error (everything all st) i = Some p ->
        nth_error (everything all st) j = Some q ->
        forall r c, in_query_region env font_path margin q r c = true ->
                    inked env font_path p r c = false).

(** ** Font sizes along a run *)

Definition non_increasing (l : list Z) : Prop :=
  StronglySorted (fun earlier later => later <= earlier) l.

(** The recorded sizes are non-increasing and none is below the ceiling
    carried in [font_size]. *)
Definition sizes_inv (st : state) : Prop :=
  non_increasing (font_sizes st)
  /\ Forall (fun f => font_size st <= f) (font_sizes st).

(** ** Bounds kept by the main loop *)

(** The sizes the loop starts a word with cannot go below zero: always so
    with [ranks_only]; in weighted mode when the size computed from a count
    is never negative. *)
Definition sizes_nonneg (env : Env) (ranks_only : bool) : Prop :=
  ranks_only = true \/ forall count s, log_size env count = Some s -> 0 <= s.

(** The lists of the layout have one entry per placed word. *)
Definition lists_aligned (st : state) : Prop :=
  length (positions st) = length (font_sizes st)
  /\ length (orientations st) = length (font_sizes st).

(** The integral image computed from scratch: the double cumulative sum of
    the whole image, stored as uint32 (lines 135-148 with x = y = 0). *)
Definition full_integral (img_array : matrix) : matrix :=
  map (map wrap32) (cumsum_axis0 (map cumsum img_array)).

Definition finite_at_most_1 (v : npfloat) : Prop :=
  match v with
  | Finite q => (q <= 1)%Q
  | _ => False
  end.

Definition finite_equal_1 (v : npfloat) : Prop :=
  match v with
  | Finite q => (q == 1)%Q
  | _ => False
  end.

(** ** The command-line script (lines 166-232)

    What the script takes from outside is collected in [Host]: the parsed
    arguments arrive as [Args]; files are read through [read_lines]
    ([None] is IOError, with the text [strerror] gives for the path), the
    standard input is a list of lines, and [count_vectorizer] is
    scikit-learn's [CountVectorizer] run on the text: the feature names and
    their counts. Messages printed to stderr are not modelled. *)

Record Args : Type := {
  arg_input : list string;
  arg_skip : bool;
  arg_stopwords : option string;
  arg_font_path : option string;
  arg_output : option string;
  arg_width : Z;
  arg_height : Z
}.

(** The [stop_words] argument of [CountVectorizer]. *)
Inductive stop_words : Type :=
| english
| stop_list (l : list string)
| no_stop_words.   (* Python: None *)

Record Host : Type := {
  read_lines : string -> option (list string);
  strerror : string -> string;
  stdin_lines : list string;
  count_vectorizer : stop_words -> string -> outcome (list string * list Z)
}.

(** [s.strip()]: leading and trailing whitespace removed. *)
Definition is_space (c : ascii) : bool :=
  match nat_of_ascii c with
  | 9%nat | 10%nat | 11%nat | 12%nat | 13%nat | 32%nat => true
  | _ => false
  end.

Fixpoint lstrip (s : string) : string :=
  match s with
  | EmptyString => EmptyString
  | String c rest => if is_space c then lstrip rest else s
  end.

Fixpoint rstrip (s : string) : string :=
  match s with
  | EmptyString => EmptyString
  | String c rest =>
      match rstrip rest with
      | EmptyString => if is_space c then EmptyString else String c EmptyString
      | rest' => String c rest'
      end
  end.

Definition strip (s : string) : string := rstrip (lstrip s).

(** Lines 194-201. *)
Definition select_stopwords (host : Host) (args : Args) : outcome stop_words :=
  match arg_stopwords args with
  | None => Ok english
  | Some path =>
      if String.eqb path EmptyString then Ok english
      else if String.eqb path "None" then Ok english
      else match read_lines host path with
           | Some lines => Ok (stop_list (map strip lines))
           | None => Raise (IOError (strerror host path))
           end
  end.

(** Lines 209-218: the files are read in order; a file that cannot be
    opened is passed over with [--skip-missing] and ends the script with an
    IOError without it. *)
Fixpoint read_sources (host : Host) (skip : bool) (sources : list string)
         (lines : list string) : outcome (list string) :=
  match sources with
  | [] => Ok lines
  | s :: rest =>
      match read_lines host s with
      | Some ls => read_sources host skip rest (lines ++ ls)
      | None =>
          if skip then read_sources host skip rest lines
          else Raise (IOError (strerror host s))
      end
  end.

(** Lines 203-218: the lines of the text and the list [sources]. *)
Definition gather_lines (host : Host) (args : Args)
  : outcome (list string * list string) :=
  if existsb (String.eqb "-") (arg_input args) then
    Ok (stdin_lines host, ["stdin"%string])
  else
    let sources := match arg_input args with
                   | [] => ["constitution.txt"%string]
                   | input => input
                   end in
    lines <- read_sources host (arg_skip args) sources [] ;;
    Ok (lines, sources).

(** [a[mask]]: the entries of [a] where the boolean mask is set; the mask
    must be as long as [a]. *)
Definition np_mask {A : Type} (a : list A) (mask : list bool) : outcome (list A) :=
  if (length a =? length mask)%nat
  then Ok (map fst (filter snd (combine a mask)))
  else Raise IndexError.

(** Lines 225-227: words and counts with a count above 1. *)
Definition keep_frequent (words : list string) (counts : list Z)
  : outcome (list string * list Z) :=
  words' <- np_mask words (map (fun c => c >? 1) counts) ;;
  counts' <- np_mask counts (map (fun c => c >? 1) counts) ;;
  Ok (words', counts').

(** [os.path.splitext(name)[0]] for a name without directory part: the
    name up to its last dot, unless only dots come before that dot. *)
Fixpoint split_last_dot (s : string) : option (string * string) :=
  match s with
  | EmptyString => None
  | String c rest =>
      match split_last_dot rest with
      | Some (before, ext) => Some (String c before, ext)
      | None => if Ascii.eqb c "."%char then Some (EmptyString, s) else None
      end
  end.

Fixpoint only_dots (s : string) : bool :=
  match s with
  | EmptyString => true
  | String c rest => Ascii.eqb c "."%char && only_dots rest
  end.

Definition splitext_root (name : string) : string :=
  match split_last_dot name with
  | Some (before, _) => if only_dots before then name else before
  | None => name
  end.

(** [os.path.basename] *)
Definition basename (path : string) : string :=
  last_segment "/"%char path EmptyString.

(** Lines 228-229. *)
Definition output_filename (args : Args) (sources : list string) : string :=
  match arg_output args with
  | Some name =>
      if String.eqb name EmptyString
      then (splitext_root (basename (hd EmptyString sources)) ++ "_.png")%string
      else name
  | None => (splitext_root (basename (hd EmptyString sources)) ++ "_.png")%string
  end.

(** The script: the name of the image written and what [make_wordcloud]
    laid out. *)
Definition main (host : Host) (env : Env) (fuel : nat) (args : Args)
  : outcome (string * (list string * state)) :=
  stopwords <- select_stopwords host args ;;
  gathered <- gather_lines host args ;;
  let text := String.concat EmptyString (fst gathered) in
  features <- count_vectorizer host stopwords text ;;
  kept <- keep_frequent (fst features) (snd features) ;;
  let name := output_filename args (snd gathered) in
  layout <- make_wordcloud env fuel (fst kept) (map inject_Z (snd kept))
                           (arg_width args) (arg_height args)
                           (arg_font_path args) 5 false (9 # 10) ;;
  Ok (name, layout).

Fixpoint has_char (c : ascii) (s : string) : bool :=
  match s with
  | EmptyString => false
  | String d rest => Ascii.eqb d c || has_char c rest
  end.

(** The lines a source contributes, and whether it cannot be opened. *)
Definition lines_of (host : Host) (s : string) : list string :=
  match read_lines host s with
  | Some ls => ls
  | None => []
  end.

Definition is_missing (host : Host) (s : string) : bool :=
  match read_lines host s with
  | Some _ => false
  | None => true
  end.

(** A finite weight in (0, 1]. *)
Definition positive_weight (v : npfloat) : Prop :=
  match v with
  | Finite q => (0 < q /\ q <= 1)%Q
  | _ => False
  end.

(** A host over three files, for examples. *)
Definition demo_host : Host :=
  {| read_lines := fun path =>
       if String.eqb path "a.txt" then Some ["one two "; "two"]%string
       else if String.eqb path "dir/b.txt" then Some ["three"]%string
       else if String.eqb path "stop.txt" then Some [" the "; "a"]%string
       else None;
     strerror := fun path => ("No such file: " ++ path)%string;
     stdin_lines := ["from stdin"%string];
     count_vectorizer := fun _ text =>
       if String.eqb text EmptyString then Raise ValueError
       else if String.eqb text "from stdin"
            then Ok (["from"; "stdin"]%string, [1; 1])
            else Ok (["one"; "two"; "three"]%string, [1; 2; 3]) |}.

(* ################################################################# *)
(** * Properties *)

(** ** Empty input *)

Lemma np_max_empty : np_max [] = Raise ValueError.
Proof. reflexivity. Qed.

(** C7. With no counts, [counts.max()] raises ValueError: the message of
    line 70 is printed, but the function does not return an empty layout. *)
Theorem empty_input_raises :
  forall env fuel words width height font_path margin ranks_only prefer_horiz,
    make_wordcloud env fuel words [] width height font_path margin ranks_only
                   prefer_horiz = Raise ValueError.
Proof. intros. reflexivity. Qed.

(** ** Missing font *)

Lemma font_not_found_message :
  font_not_found =
  IOError ("Font 'LiberationSans-Regular.ttf' not found. Please change "
           ++ "'FONT_PATH' to a valid font file path.")%string.
Proof. reflexivity. Qed.

Lemma shrink_loop_missing_font (env : Env) (font_path : string) (margin : Z)
      (prefer_horiz : Q) (fuel : nat) (word : string) (size : Z)
      (I : matrix) (draws : nat) :
  truetype env font_path size = None ->
  shrink_loop env font_path margin prefer_horiz fuel word size I draws
  = Raise font_not_found.
Proof. intros H. destruct fuel; simpl; rewrite H; reflexivity. Qed.

(** C8. A run with the font path "/tmp/x.ttf", which cannot be loaded, raises
    an IOError whose message names the file of the module constant
    FONT_PATH, not the path that was requested. *)
Theorem missing_font_reports_default_name :
  make_wordcloud (block_env (fun _ => 0%Q)) 1000 ["a"%string] [3%Q] 20 9
                 (Some "/tmp/x.ttf"%string) 5 false (9 # 10)
  = Raise (IOError ("Font 'LiberationSans-Regular.ttf' not found. Please "
                    ++ "change 'FONT_PATH' to a valid font file path.")%string).
Proof. vm_compute. reflexivity. Qed.

(** ** Normalisation *)

Lemma Qmax_b_le_l (a b : Q) : (a <= Qmax_b a b)%Q.
Proof.
  unfold Qmax_b. destruct (Qle_bool a b) eqn:E.
  - now apply Qle_bool_iff.
  - apply Qle_refl.
Qed.

Lemma Qmax_b_le_r (a b : Q) : (b <= Qmax_b a b)%Q.
Proof.
  unfold Qmax_b. destruct (Qle_bool a b) eqn:E.
  - apply Qle_refl.
  - apply Qlt_le_weak, Qnot_le_lt. intros H.
    apply Qle_bool_iff in H. congruence.
Qed.

Lemma fold_Qmax_b_ge_init (l : list Q) (a : Q) : (a <= fold_left Qmax_b l a)%Q.
Proof.
  revert a. induction l as [|b l IH]; intros a; simpl.
  - apply Qle_refl.
  - eapply Qle_trans; [apply Qmax_b_le_l | apply IH].
Qed.

Lemma fold_Qmax_b_ge_elem (l : list Q) (a c : Q) :
  In c l -> (c <= fold_left Qmax_b l a)%Q.
Proof.
  revert a. induction l as [|b l IH]; intros a; simpl; [tauto|].
  intros [-> | Hin].
  - eapply Qle_trans; [apply Qmax_b_le_r | apply fold_Qmax_b_ge_init].
  - now apply IH.
Qed.

Lemma np_max_upper_bound (counts : list Q) (m c : Q) :
  np_max counts = Ok m -> In c counts -> (c <= m)%Q.
Proof.
  destruct counts as [|c0 rest]; simpl; [discriminate|].
  intros [= <-] [<- | Hin].
  - apply fold_Qmax_b_ge_init.
  - now apply fold_Qmax_b_ge_elem.
Qed.

Lemma np_true_divide_unit (c m : Q) :
  (0 <= c)%Q -> (c <= m)%Q -> (0 < m)%Q ->
  in_unit_interval (np_true_divide c m).
Proof.
  intros Hc Hcm Hm. unfold np_true_divide.
  destruct (Qeq_bool m 0) eqn:E.
  - apply Qeq_bool_iff in E. rewrite E in Hm. now apply Qlt_irrefl in Hm.
  - simpl. split.
    + apply Qle_shift_div_l; [exact Hm|]. now rewrite Qmult_0_l.
    + apply Qle_shift_div_r; [exact Hm|]. now rewrite Qmult_1_l.
Qed.

(** Where the largest count is positive, normalisation does what the
    docstring says: every normalised count lies between zero and one. *)
Lemma normalize_unit_interval (counts : list Q) (m : Q) (ws : list npfloat) :
  Forall (fun c => (0 <= c)%Q) counts ->
  np_max counts = Ok m -> (0 < m)%Q ->
  normalize counts = Ok ws ->
  Forall in_unit_interval ws.
Proof.
  intros Hpos Hmax Hm. unfold normalize. rewrite Hmax. simpl.
  intros [= <-]. apply Forall_forall. intros v Hv.
  apply in_map_iff in Hv. destruct Hv as [c [<- Hc]].
  apply np_true_divide_unit.
  - rewrite Forall_forall in Hpos. now apply Hpos.
  - now apply (np_max_upper_bound counts).
  - exact Hm.
Qed.

(** C9. The single count 0 is non-negative, and its normalised value is
    0 / 0.0 = nan, which is not between zero and one. *)
Theorem normalize_all_zero_is_nan :
  normalize [0%Q] = Ok [NaN] /\ ~ in_unit_interval NaN.
Proof. split; [reflexivity | intros H; exact H]. Qed.

(** ** The size computed from a normalised weight *)

Section SizeFromWeight.
Local Open Scope R_scope.

Lemma exp_mult_nat (x : R) (n : nat) : exp (INR n * x) = exp x ^ n.
Proof.
  induction n as [|n IH].
  - simpl. rewrite Rmult_0_l. apply exp_0.
  - rewrite S_INR, Rmult_plus_distr_r, Rmult_1_l, exp_plus, IH. simpl. ring.
Qed.

Lemma fx_iter_nonneg (k : nat) (n : Z) :
  (0 <= n)%Z -> (0 <= Nat.iter k fx_sq n)%Z.
Proof.
  intros Hn. induction k as [|k IH]; simpl; [exact Hn|].
  unfold fx_sq. apply Z.div_pos; [nia | reflexivity].
Qed.

Lemma fx_sq_below (m : Z) :
  (0 <= m)%Z ->
  IZR (fx_sq m) / IZR fx_one <= (IZR m / IZR fx_one) * (IZR m / IZR fx_one).
Proof.
  intros Hm.
  assert (HD : 0 < IZR fx_one) by (apply IZR_lt; reflexivity).
  assert (Hz : (fx_one * fx_sq m <= m * m)%Z)
    by (unfold fx_sq; apply Z.mul_div_le; reflexivity).
  apply IZR_le in Hz. rewrite !mult_IZR in Hz.
  apply Rmult_le_reg_r with (IZR fx_one * IZR fx_one); [nra|].
  replace (IZR (fx_sq m) / IZR fx_one * (IZR fx_one * IZR fx_one))
    with (IZR fx_one * IZR (fx_sq m)) by (field; lra).
  replace (IZR m / IZR fx_one * (IZR m / IZR fx_one)
           * (IZR fx_one * IZR fx_one))
    with (IZR m * IZR m) by (field; lra).
  exact Hz.
Qed.

(** [k] rounded-down squarings stay below the [2^k]-th power. *)
Lemma fx_iter_le_pow (k : nat) (n : Z) :
  (0 <= n)%Z ->
  IZR (Nat.iter k fx_sq n) / IZR fx_one <= (IZR n / IZR fx_one) ^ (2 ^ k).
Proof.
  intros Hn.
  assert (HD : 0 < IZR fx_one) by (apply IZR_lt; reflexivity).
  induction k as [|k IH].
  - simpl. lra.
  - pose proof (fx_iter_nonneg k n Hn) as Hm.
    change (Nat.iter (S k) fx_sq n) with (fx_sq (Nat.iter k fx_sq n)).
    set (m := Nat.iter k fx_sq n) in *.
    replace (2 ^ S k)%nat with (2 ^ k + 2 ^ k)%nat by (simpl; lia).
    rewrite pow_add.
    assert (Hm' : 0 <= IZR m / IZR fx_one).
    { apply Rmult_le_pos; [now apply IZR_le|].
      left; now apply Rinv_0_lt_compat. }
    eapply Rle_trans; [now apply fx_sq_below|].
    apply Rmult_le_compat; assumption.
Qed.

Lemma fx_iter_le_exp (k : nat) (n : Z) :
  (0 <= n)%Z ->
  IZR (Nat.iter k fx_sq n) / IZR fx_one
  <= exp (INR (2 ^ k) * (IZR n / IZR fx_one - 1)).
Proof.
  intros Hn. eapply Rle_trans; [now apply fx_iter_le_pow|].
  rewrite exp_mult_nat. apply pow_incr. split.
  - apply Rmult_le_pos; [now apply IZR_le|].
    left. apply Rinv_0_lt_compat, IZR_lt. reflexivity.
  - pose proof (exp_ineq1_le (IZR n / IZR fx_one - 1)). lra.
Qed.

Lemma INR_4096 : INR (2 ^ 12) = 4096.
Proof. rewrite pow_INR. simpl. lra. Qed.

Lemma exp_462_lower : 101 < exp (462 / 100).
Proof.
  pose proof (fx_iter_le_exp 12 41006200000000 ltac:(lia)) as H.
  rewrite INR_4096 in H.
  replace (4096 * (IZR 41006200000000 / IZR fx_one - 1))
    with (462 / 100) in H by (unfold fx_one; field).
  eapply Rlt_le_trans; [|exact H].
  assert (Hz : (101 * fx_one < Nat.iter 12 fx_sq 41006200000000)%Z)
    by (vm_compute; reflexivity).
  apply IZR_lt in Hz. rewrite mult_IZR in Hz.
  assert (HD : 0 < IZR fx_one) by (apply IZR_lt; reflexivity).
  apply Rmult_lt_reg_r with (IZR fx_one); [exact HD|].
  unfold Rdiv. rewrite Rmult_assoc, Rinv_l, Rmult_1_r by lra. exact Hz.
Qed.

Lemma exp_460_upper : exp (460 / 100) <= 100.
Proof.
  pose proof (fx_iter_le_exp 12 40914000000000 ltac:(lia)) as H.
  rewrite INR_4096 in H.
  replace (4096 * (IZR 40914000000000 / IZR fx_one - 1))
    with (- (460 / 100)) in H by (unfold fx_one; field).
  assert (Hz : (fx_one <= 100 * Nat.iter 12 fx_sq 40914000000000)%Z)
    by (vm_compute; discriminate).
  apply IZR_le in Hz. rewrite mult_IZR in Hz.
  assert (HD : 0 < IZR fx_one) by (apply IZR_lt; reflexivity).
  assert (Hlow : / 100 <= exp (- (460 / 100))).
  { eapply Rle_trans; [|exact H].
    apply Rmult_le_reg_r with (IZR fx_one); [exact HD|].
    unfold Rdiv. rewrite Rmult_assoc, Rinv_l, Rmult_1_r by lra. lra. }
  rewrite exp_Ropp in Hlow.
  pose proof (exp_pos (460 / 100)) as Hpos.
  apply Rmult_le_reg_r with (/ exp (460 / 100)).
  - now apply Rinv_0_lt_compat.
  - rewrite Rinv_r by lra. lra.
Qed.

Lemma ln_100_lower : 460 / 100 <= ln 100.
Proof.
  rewrite <- (ln_exp (460 / 100)).
  destruct exp_460_upper as [Hlt | Heq].
  - left. apply ln_increasing; [apply exp_pos | exact Hlt].
  - right. now rewrite Heq.
Qed.

Lemma ln_101_upper : ln 101 < 462 / 100.
Proof.
  rewrite <- (ln_exp (462 / 100)).
  apply ln_increasing; [lra | exact exp_462_lower].
Qed.

Lemma weighted_value_bounds (w : R) :
  0 < w <= 1 -> 460 < 100 * ln (w + 100) < 462.
Proof.
  intros [Hw0 Hw1]. split.
  - pose proof ln_100_lower.
    assert (ln 100 < ln (w + 100)) by (apply ln_increasing; lra). lra.
  - pose proof ln_101_upper.
    assert (ln (w + 100) <= ln 101).
    { destruct Hw1 as [Hlt | Heq].
      - left. apply ln_increasing; lra.
      - right. rewrite Heq. replace (1 + 100) with 101 by lra. reflexivity. }
    lra.
Qed.

Lemma python_int_460_461 (v : R) :
  460 < v < 462 -> python_int v = 460%Z \/ python_int v = 461%Z.
Proof.
  intros [Hlo Hhi]. unfold python_int.
  destruct (Rle_dec 0 v) as [_ | Hneg]; [|lra].
  destruct (Rle_dec 461 v) as [H461 | H461].
  - right. symmetry. apply Int_part_spec. lra.
  - left. symmetry. apply Int_part_spec. lra.
Qed.

(** C10. For a normalised weight 0 < w <= 1 the weighted size
    int(100 * ln(w + 100)) is 460 or 461. *)
Theorem size_from_weight_range (w : R) :
  0 < w <= 1 ->
  size_from_weight w = 460%Z \/ size_from_weight w = 461%Z.
Proof.
  intros Hw. unfold size_from_weight.
  apply python_int_460_461. now apply weighted_value_bounds.
Qed.

(** In weighted mode the candidate size of a word of normalised weight
    0 < q <= 1 is the carried ceiling cut at 460 or 461. *)
Lemma weighted_candidate_size (env : Env) (ceiling : Z) (q : Q) :
  log_size_is_real env -> (0 < q)%Q -> (q <= 1)%Q ->
  candidate_size env false ceiling (Finite q) = Ok (Z.min ceiling 460)
  \/ candidate_size env false ceiling (Finite q) = Ok (Z.min ceiling 461).
Proof.
  intros Hlog Hq0 Hq1. unfold candidate_size. rewrite Hlog.
  assert (Hr : 0 < Q2R q <= 1).
  { split.
    - rewrite <- RMicromega.Q2R_0. now apply Qlt_Rlt.
    - rewrite <- RMicromega.Q2R_1. now apply Qle_Rle. }
  unfold size_from_weight.
  destruct (python_int_460_461 _ (weighted_value_bounds (Q2R q) Hr))
    as [-> | ->]; auto.
Qed.

Lemma size_from_weight_range_witness :
  0 < 1 <= 1 /\ (size_from_weight 1 = 460%Z \/ size_from_weight 1 = 461%Z).
Proof.
  split; [lra | apply (size_from_weight_range 1); lra].
Defined.
End SizeFromWeight.

(** ** Attempt order *)

Lemma pairwise_nth {A : Type} (rel : A -> A -> bool) (l : list A) :
  pairwise rel l = true ->
  forall p q x y, (p < q)%nat ->
    nth_error l p = Some x -> nth_error l q = Some y -> rel x y = true.
Proof.
  induction l as [|h t IH]; simpl; intros Hpw p q x y Hpq Hp Hq.
  - destruct p; discriminate.
  - apply andb_true_iff in Hpw. destruct Hpw as [Hh Ht].
    destruct q as [|q]; [lia|]. simpl in Hq.
    destruct p as [|p]; simpl in Hp.
    + injection Hp as <-. rewrite forallb_forall in Hh.
      apply Hh. eapply nth_error_In; eassumption.
    + apply (IH Ht p q); [lia | assumption | assumption].
Qed.

Lemma np_take_length {A : Type} (a : list A) (inds : list nat) (vs : list A) :
  np_take a inds = Ok vs -> length vs = length inds.
Proof.
  revert vs. induction inds as [|i rest IH]; simpl; intros vs H.
  - injection H as <-. reflexivity.
  - destruct (nth_error a i); [|discriminate].
    destruct (np_take a rest) as [vs'| |]; simpl in H; try discriminate.
    injection H as <-. simpl. f_equal. now apply IH.
Qed.

Lemma np_take_nth {A : Type} (a : list A) (inds : list nat) (vs : list A) :
  np_take a inds = Ok vs ->
  forall i v, nth_error vs i = Some v ->
    exists k, nth_error inds i = Some k /\ nth_error a k = Some v.
Proof.
  revert vs. induction inds as [|k rest IH]; simpl; intros vs H i v Hv.
  - injection H as <-. destruct i; discriminate.
  - destruct (nth_error a k) as [x|] eqn:Hk; [|discriminate].
    destruct (np_take a rest) as [vs'| |]; simpl in H; try discriminate.
    injection H as <-. destruct i as [|i]; simpl in *.
    + injection Hv as <-. exists k. split; [reflexivity | exact Hk].
    + now apply (IH vs' eq_refl).
Qed.

Lemma Qle_bool_refl (q : Q) : Qle_bool q q = true.
Proof. apply Qle_bool_iff, Qle_refl. Qed.

Lemma np_leb_refl (v : npfloat) : np_leb v v = true.
Proof. destruct v; simpl; auto using Qle_bool_refl. Qed.

Lemma nth_error_rev_Some {A : Type} (l : list A) (p : nat) (x : A) :
  nth_error (rev l) p = Some x ->
  (p < length l)%nat /\ nth_error l (length l - S p) = Some x.
Proof.
  rewrite nth_error_rev. destruct (Nat.ltb_spec p (length l)); [|discriminate].
  auto.
Qed.

Lemma sort_by_counts_inv (env : Env) (words : list string) (counts : list Q)
      (a : list npfloat) (ws : list string) (cs : list npfloat) :
  normalize counts = Ok a ->
  sort_by_counts env words counts = Ok (ws, cs) ->
  np_take a (rev (argsort env a)) = Ok cs
  /\ np_take words (rev (argsort env a)) = Ok ws.
Proof.
  intros Hn. unfold sort_by_counts. rewrite Hn. simpl.
  destruct (np_take a (rev (argsort env a))) as [cs'| |]; simpl; try discriminate.
  destruct (np_take words (rev (argsort env a))) as [ws'| |]; simpl;
    try discriminate.
  intros [= <- <-]. auto.
Qed.

(** C4 (amended). Words are attempted by descending normalised weight: a
    word of strictly higher weight is attempted before one of lower weight.
    Each attempted word is the input word at the corresponding index of the
    reversed [argsort]. Ties are not broken by input index: where [argsort]
    keeps equal weights in input order, reversing it makes the later of two
    equal-weight words the earlier attempt. *)
Theorem attempts_descending_ties_reversed
        (env : Env) (words : list string) (counts : list Q)
        (a : list npfloat) (ws : list string) (cs : list npfloat) :
  normalize counts = Ok a ->
  sort_by_counts env words counts = Ok (ws, cs) ->
  ascending_keys a (argsort env a) = true ->
  (forall i j ci cj,
      nth_error cs i = Some ci -> nth_error cs j = Some cj ->
      np_ltb cj ci = true -> (i < j)%nat)
  /\ (forall i w, nth_error ws i = Some w ->
        exists k, nth_error (rev (argsort env a)) i = Some k
                  /\ nth_error words k = Some w)
  /\ (keeps_input_order a (argsort env a) = true ->
      forall p q ip iq, (p < q)%nat ->
        nth_error (rev (argsort env a)) p = Some ip ->
        nth_error (rev (argsort env a)) q = Some iq ->
        np_leb (nth ip a NaN) (nth iq a NaN) = true -> (iq < ip)%nat).
Proof.
  intros Hn Hs Hasc.
  destruct (sort_by_counts_inv env words counts a ws cs Hn Hs) as [Hcs Hws].
  split; [|split].
  - intros i j ci cj Hi Hj Hlt.
    destruct (np_take_nth _ _ _ Hcs i ci Hi) as [ki [Hki Hai]].
    destruct (np_take_nth _ _ _ Hcs j cj Hj) as [kj [Hkj Haj]].
    apply nth_error_rev_Some in Hki, Hkj.
    destruct Hki as [Hil Hki], Hkj as [Hjl Hkj].
    unfold np_ltb in Hlt. apply negb_true_iff in Hlt.
    destruct (Nat.lt_ge_cases i j) as [|Hge]; [assumption|exfalso].
    destruct (Nat.eq_dec i j) as [-> | Hne].
    + rewrite Hi in Hj. injection Hj as <-.
      rewrite np_leb_refl in Hlt. discriminate.
    + assert (Hord : np_leb (nth ki a NaN) (nth kj a NaN) = true).
      { apply (pairwise_nth _ _ Hasc
                 (length (argsort env a) - S i) (length (argsort env a) - S j))%nat;
          [lia | assumption | assumption]. }
      rewrite (nth_error_nth _ _ NaN Hai), (nth_error_nth _ _ NaN Haj) in Hord.
      congruence.
  - intros i w Hw. exact (np_take_nth _ _ _ Hws i w Hw).
  - intros Hst p q ip iq Hpq Hp Hq Hle.
    apply nth_error_rev_Some in Hp, Hq.
    destruct Hp as [Hpl Hp], Hq as [Hql Hq].
    pose proof (pairwise_nth _ _ Hst
                  (length (argsort env a) - S q) (length (argsort env a) - S p)
                  iq ip ltac:(lia) Hq Hp)%nat as H.
    simpl in H. rewrite Hle in H. simpl in H. now apply Nat.ltb_lt.
Qed.

Lemma attempts_descending_ties_reversed_witness :
  let env := block_env (fun _ => 0%Q) in
  let words := ["a"; "b"; "c"]%string in
  let counts := [3%Q; 7%Q; 3%Q] in
  let a := [Finite (3 / 7); Finite (7 / 7); Finite (3 / 7)] in
  exists ws cs,
    normalize counts = Ok a
    /\ sort_by_counts env words counts = Ok (ws, cs)
    /\ ws = ["b"; "c"; "a"]%string
    /\ (forall i j ci cj,
           nth_error cs i = Some ci -> nth_error cs j = Some cj ->
           np_ltb cj ci = true -> (i < j)%nat).
Proof.
  intros env words counts a.
  exists ["b"; "c"; "a"]%string,
         [Finite (7 / 7); Finite (3 / 7); Finite (3 / 7)].
  split; [reflexivity|]. split; [reflexivity|]. split; [reflexivity|].
  exact (proj1 (attempts_descending_ties_reversed
                  env words counts a _ _ eq_refl eq_refl eq_refl)).
Defined.

(** C4 (as stated) fails: two words of equal weight given as [w1, w2] are
    attempted, and placed, as w2 then w1. *)
Lemma equal_weights_attempted_in_reverse :
  let env := block_env (fun _ => 0%Q) in
  ties_by_input_index [Finite 1; Finite 1]
                      (rev (argsort env [Finite 1; Finite 1])) = false
  /\ exists st,
      make_wordcloud env 1000 ["w1"; "w2"]%string [1%Q; 1%Q] 30 9 None 5 true
                     (9 # 10) = Ok (["w2"; "w1"]%string, st)
      /\ map p_word (everything ["w2"; "w1"]%string st) = ["w2"; "w1"]%string.
Proof.
  split; [reflexivity|].
  eexists. split; [vm_compute; reflexivity | reflexivity].
Qed.

(** ** The shrink loop *)

Lemma shrink_loop_exit (env : Env) (font_path : string) (margin : Z)
      (prefer_horiz : Q) (fuel : nat) (word : string) (size : Z)
      (I : matrix) (draws : nat) (a : attempt (Font env)) :
  shrink_loop env font_path margin prefer_horiz fuel word size I draws = Ok a ->
  a_font_size a <= size
  /\ a_draws a = (draws + Z.to_nat (size - a_font_size a) + 1)%nat
  /\ a_orientation a
     = choose_orientation (random env (a_draws a - 1)) prefer_horiz
  /\ truetype env font_path (a_font_size a) = Some (a_font a)
  /\ a_box_size a = textsize env (a_font a) (a_orientation a) word
  /\ a_result a = query_integral_image I (snd (a_box_size a) + margin)
                                       (fst (a_box_size a) + margin)
  /\ (a_result a = None -> a_font_size a = 0).
Proof.
  revert size draws.
  induction fuel as [|fuel IH]; intros size draws H; simpl in H;
    destruct (truetype env font_path size) as [font|] eqn:Hfont;
    try discriminate;
    match type of H with
    | (if ?c then _ else _) = _ => destruct c eqn:Hc
    end; try discriminate.
  1,2: injection H as <-; simpl;
    replace (size - size) with 0 by lia; simpl;
    replace (draws + 0 + 1 - 1)%nat with draws by lia;
    replace (draws + 0 + 1)%nat with (S draws) by lia;
    replace (draws - 0)%nat with draws by lia;
    repeat split; try reflexivity; try lia; try assumption;
    intros Hnone; rewrite Hnone in Hc; simpl in Hc;
    now apply Z.eqb_eq in Hc.
  apply IH in H. destruct H as (Hle & Hd & Ho & Hf & Hb & Hr & Hz).
  repeat split; try assumption; try lia.
Qed.


Lemma choose_orientation_horizontal (r p : Q) :
  choose_orientation r p = NoRotation <-> (r < p)%Q.
Proof.
  unfold choose_orientation. destruct (Qle_bool p r) eqn:E.
  - apply Qle_bool_iff in E. split; [discriminate|].
    intros H. exfalso. exact (Qlt_not_le _ _ H E).
  - split; [|reflexivity]. intros _. apply Qnot_le_lt. intros H.
    apply Qle_bool_iff in H. congruence.
Qed.

(** C6 (amended). The orientation is drawn anew at every attempt of the
    shrink loop: leaving at size [s'] after starting at [s] takes
    [s - s' + 1] draws, and the orientation that sizes the box, and that is
    recorded, is the one of the last draw - horizontal exactly when that
    draw is below [prefer_horiz]. *)
Theorem orientation_drawn_at_each_attempt
        (env : Env) (font_path : string) (margin : Z) (prefer_horiz : Q)
        (fuel : nat) (word : string) (size : Z) (I : matrix) (draws : nat)
        (a : attempt (Font env)) :
  shrink_loop env font_path margin prefer_horiz fuel word size I draws = Ok a ->
  a_draws a = (draws + Z.to_nat (size - a_font_size a) + 1)%nat
  /\ a_orientation a
     = choose_orientation (random env (a_draws a - 1)) prefer_horiz
  /\ (a_orientation a = NoRotation
      <-> (random env (a_draws a - 1) < prefer_horiz)%Q)
  /\ a_box_size a = textsize env (a_font a) (a_orientation a) word.
Proof.
  intros H. apply shrink_loop_exit in H.
  destruct H as (_ & Hd & Ho & _ & Hb & _ & _).
  repeat split; try assumption.
  - rewrite Ho. apply choose_orientation_horizontal.
  - rewrite Ho. apply choose_orientation_horizontal.
Qed.

Lemma orientation_drawn_at_each_attempt_witness :
  let env := block_env first_low in
  exists a,
    shrink_loop env FONT_PATH 5 (9 # 10) 1000 "ab"%string 6
                (zeros 20 9) 0 = Ok a
    /\ a_font_size a = 4
    /\ a_draws a = 3%nat
    /\ a_orientation a = choose_orientation (first_low 2) (9 # 10).
Proof.
  intros env. eexists. split; [vm_compute; reflexivity|].
  split; [reflexivity|].
  pose proof (orientation_drawn_at_each_attempt
                env FONT_PATH 5 (9 # 10) 1000 "ab"%string 6 (zeros 20 9) 0%nat
                _ eq_refl) as H.
  destruct H as (Hd & Ho & _). split; [exact Hd | exact Ho].
Defined.

(** C6 (as stated) fails: the word "ab" does not fit a 9 x 20 canvas
    horizontally; the first draw says horizontal, the draws of the later
    attempts say rotated, and the placement is recorded as rotated. *)
Lemma orientation_not_fixed_at_first_draw :
  let env := block_env first_low in
  choose_orientation (random env 0) (9 # 10) = NoRotation
  /\ exists st,
      make_wordcloud env 1000 ["ab"%string] [1%Q] 9 20 None 5 true (9 # 10)
      = Ok (["ab"%string], st)
      /\ orientations st = [ROTATE_90]
      /\ font_sizes st = [4].
Proof.
  split; [reflexivity|].
  eexists. split; [vm_compute; reflexivity|]. split; reflexivity.
Qed.

(** ** The main loop *)

Lemma candidate_size_le (env : Env) (ranks_only : bool) (fs : Z)
      (count : npfloat) (size : Z) :
  candidate_size env ranks_only fs count = Ok size -> size <= fs.
Proof.
  unfold candidate_size. destruct ranks_only.
  - intros [= <-]. lia.
  - destruct (log_size env count); [|discriminate]. intros [= <-]. lia.
Qed.

(** What one iteration of the [for] loop does to the loop variables. *)
Lemma loop_body_inv (env : Env) (fuel : nat) (font_path : string)
      (margin : Z) (ranks_only : bool) (prefer_horiz : Q)
      (word : string) (count : npfloat) (st : state) (f : flow) :
  loop_body env fuel font_path margin ranks_only prefer_horiz word count st
  = Ok f ->
  exists size a,
    candidate_size env ranks_only (font_size st) count = Ok size
    /\ shrink_loop env font_path margin prefer_horiz fuel word size
                   (integral st) (draws st) = Ok a
    /\ match f with
       | Break st' =>
           a_font_size a = 0
           /\ st' = {| img_grey := img_grey st; integral := integral st;
                       font_size := 0;
                       font_sizes := font_sizes st; positions := positions st;
                       orientations := orientations st; draws := a_draws a |}
       | Next st' =>
           a_font_size a <> 0
           /\ exists r c,
               a_result a = Some (r, c)
               /\ img_grey st'
                  = draw_text (img_grey st) (c + margin / 2, r + margin / 2)
                              (getmask env (a_font a) (a_orientation a) word)
               /\ update_integral (integral st) (img_grey st')
                                  (r + margin / 2) (c + margin / 2)
                  = Ok (integral st')
               /\ font_size st' = a_font_size a
               /\ font_sizes st' = font_sizes st ++ [a_font_size a]
               /\ positions st'
                  = positions st ++ [(r + margin / 2, c + margin / 2)]
               /\ orientations st' = orientations st ++ [a_orientation a]
               /\ draws st' = a_draws a
       end.
Proof.
  unfold loop_body.
  destruct (candidate_size env ranks_only (font_size st) count)
    as [size| |] eqn:Hsize; cbn [bind]; try discriminate.
  destruct (shrink_loop env font_path margin prefer_horiz fuel word size
                        (integral st) (draws st)) as [a| |] eqn:Hloop;
    cbn [bind]; try discriminate.
  intros H. exists size, a. split; [reflexivity|]. split; [exact Hloop|].
  destruct (a_font_size a =? 0) eqn:Hz.
  - injection H as <-. apply Z.eqb_eq in Hz. rewrite Hz. auto.
  - apply Z.eqb_neq in Hz.
    destruct (a_result a) as [[r c]|]; [|discriminate].
    cbv zeta in H.
    match type of H with
    | context [update_integral ?i ?g ?x ?y] =>
        destruct (update_integral i g x y) as [I'| |] eqn:HI
    end; cbn [bind] in H; try discriminate.
    injection H as <-. cbn [img_grey integral font_size font_sizes positions
                            orientations draws].
    split; [exact Hz|].
    exists r, c. repeat split; try reflexivity. exact HI.
Qed.

Lemma StronglySorted_snoc {A : Type} (R : A -> A -> Prop) (l : list A) (x : A) :
  StronglySorted R l -> Forall (fun y => R y x) l -> StronglySorted R (l ++ [x]).
Proof.
  induction 1 as [|h t Hs IH Hh]; intros Hall; simpl.
  - constructor; constructor.
  - inversion Hall as [|? ? Hhx Htx]; subst. constructor.
    + now apply IH.
    + apply Forall_app. split; [exact Hh | constructor; [exact Hhx | constructor]].
Qed.

Lemma loop_body_sizes_inv (env : Env) (fuel : nat) (font_path : string)
      (margin : Z) (ranks_only : bool) (prefer_horiz : Q)
      (word : string) (count : npfloat) (st : state) (f : flow) :
  loop_body env fuel font_path margin ranks_only prefer_horiz word count st
  = Ok f ->
  sizes_inv st ->
  sizes_inv (flow_state f) /\ font_size (flow_state f) <= font_size st.
Proof.
  intros H [Hsorted Hceil].
  apply loop_body_inv in H. destruct H as (size & a & Hsize & Hloop & Hf).
  apply candidate_size_le in Hsize.
  apply shrink_loop_exit in Hloop. destruct Hloop as (Hle & _).
  destruct f as [st'|st']; cbn [flow_state].
  - destruct Hf as (_ & r & c & _ & _ & _ & Hfs & Hfss & _).
    unfold sizes_inv. rewrite Hfss, Hfs. repeat split; [| |lia].
    + apply StronglySorted_snoc; [exact Hsorted|].
      eapply Forall_impl; [|exact Hceil]. simpl. intros; lia.
    + apply Forall_app. split.
      * eapply Forall_impl; [|exact Hceil]. simpl. intros; lia.
      * constructor; [lia | constructor].
  - destruct Hf as (Hz & ->). unfold sizes_inv. simpl. repeat split; [| |lia].
    + exact Hsorted.
    + eapply Forall_impl; [|exact Hceil]. simpl. intros; lia.
Qed.

Lemma place_words_sizes_inv (env : Env) (fuel : nat) (font_path : string)
      (margin : Z) (ranks_only : bool) (prefer_horiz : Q)
      (ws : list (string * npfloat)) (st st' : state) :
  place_words env fuel font_path margin ranks_only prefer_horiz ws st = Ok st' ->
  sizes_inv st -> sizes_inv st'.
Proof.
  revert st. induction ws as [|[word count] rest IH]; intros st H Hinv.
  - injection H as <-. exact Hinv.
  - simpl in H.
    destruct (loop_body env fuel font_path margin ranks_only prefer_horiz
                        word count st) as [[st1|st1]| |] eqn:Hb;
      try discriminate.
    + apply (IH st1 H).
      exact (proj1 (loop_body_sizes_inv _ _ _ _ _ _ _ _ _ _ Hb Hinv)).
    + injection H as <-.
      exact (proj1 (loop_body_sizes_inv _ _ _ _ _ _ _ _ _ _ Hb Hinv)).
Qed.

Lemma make_wordcloud_inv (env : Env) (fuel : nat) (words : list string)
      (counts : list Q) (width height : Z) (font_path : option string)
      (margin : Z) (ranks_only : bool) (prefer_horiz : Q)
      (ws : list string) (st : state) :
  make_wordcloud env fuel words counts width height font_path margin
                 ranks_only prefer_horiz = Ok (ws, st) ->
  exists cs,
    sort_by_counts env words counts = Ok (ws, cs)
    /\ place_words env fuel
                   (match font_path with None => FONT_PATH | Some p => p end)
                   margin ranks_only prefer_horiz (combine ws cs)
                   (initial_state width height) = Ok st.
Proof.
  unfold make_wordcloud.
  destruct (sort_by_counts env words counts) as [[ws' cs]| |]; simpl;
    try discriminate.
  destruct (place_words env fuel _ margin ranks_only prefer_horiz
                        (combine ws' cs) (initial_state width height))
    as [st'| |] eqn:Hp; simpl; try discriminate.
  intros [= <- <-]. exists cs. auto.
Qed.

Lemma zip4_font_sizes (ws : list string) (fs : list Z) (ps : list (Z * Z))
      (os : list orientation) :
  exists n, map p_font_size (zip4 ws fs ps os) = firstn n fs.
Proof.
  revert fs ps os.
  induction ws as [|w ws IH]; intros fs ps os; [exists 0%nat; reflexivity|].
  destruct fs as [|f fs]; [exists 0%nat; reflexivity|].
  destruct ps as [|p ps]; [exists 0%nat; reflexivity|].
  destruct os as [|o os]; [exists 0%nat; reflexivity|].
  destruct (IH fs ps os) as [n Hn]. exists (S n). simpl. now rewrite Hn.
Qed.

Lemma StronglySorted_firstn {A : Type} (R : A -> A -> Prop) (n : nat) (l : list A) :
  StronglySorted R l -> StronglySorted R (firstn n l).
Proof.
  revert l. induction n as [|n IH]; intros l Hs; simpl; [constructor|].
  destruct l as [|h t]; [constructor|].
  inversion Hs as [|? ? Ht Hh]; subst. constructor; [now apply IH|].
  rewrite Forall_forall in *. intros x Hx. apply Hh.
  rewrite <- (firstn_skipn n t). apply in_or_app. now left.
Qed.

(** C5. The font sizes recorded for the successive placements of a run are
    non-increasing, with and without [ranks_only]: both the list
    [font_sizes] and the sizes in the layout handed to the colour pass. *)
Theorem font_sizes_non_increasing
        (env : Env) (fuel : nat) (words : list string) (counts : list Q)
        (width height : Z) (font_path : option string) (margin : Z)
        (ranks_only : bool) (prefer_horiz : Q)
        (ws : list string) (st : state) :
  make_wordcloud env fuel words counts width height font_path margin
                 ranks_only prefer_horiz = Ok (ws, st) ->
  non_increasing (font_sizes st)
  /\ non_increasing (map p_font_size (everything ws st)).
Proof.
  intros H. apply make_wordcloud_inv in H. destruct H as (cs & _ & Hp).
  assert (Hinv : sizes_inv st).
  { apply (place_words_sizes_inv _ _ _ _ _ _ _ _ _ Hp).
    split; constructor. }
  destruct Hinv as [Hs _]. split; [exact Hs|].
  unfold everything.
  destruct (zip4_font_sizes ws (font_sizes st) (positions st) (orientations st))
    as [n ->].
  now apply StronglySorted_firstn.
Qed.

Lemma font_sizes_non_increasing_witness :
  let env := block_env (fun _ => 0%Q) in
  exists ws st,
    make_wordcloud env 1000 ["aaa"; "b"; "cc"]%string [9%Q; 2%Q; 5%Q] 40 14
                   None 5 false (9 # 10)
    = Ok (ws, st)
    /\ font_sizes st = [9; 3; 3]
    /\ non_increasing (font_sizes st).
Proof.
  intros env.
  eassert (H : make_wordcloud env 1000 ["aaa"; "b"; "cc"]%string
                              [9%Q; 2%Q; 5%Q] 40 14 None 5 false (9 # 10)
               = Ok (_, _)) by (vm_compute; reflexivity).
  eexists _, _. split; [exact H|]. split; [reflexivity|].
  exact (proj1 (font_sizes_non_increasing _ _ _ _ _ _ _ _ _ _ _ _ H)).
Defined.

(** ** Canvas exhaustion *)

(** C3. When the shrink loop of a word leaves at font size 0, the [for] loop
    is left as well: whatever words remain, the run ends without an error
    and its lists of sizes, positions and orientations, the image and the
    integral image are those recorded before this word. *)
Theorem exhaustion_truncates
        (env : Env) (fuel : nat) (font_path : string) (margin : Z)
        (ranks_only : bool) (prefer_horiz : Q)
        (word : string) (count : npfloat) (rest : list (string * npfloat))
        (st : state) (size : Z) (a : attempt (Font env)) :
  candidate_size env ranks_only (font_size st) count = Ok size ->
  shrink_loop env font_path margin prefer_horiz fuel word size
              (integral st) (draws st) = Ok a ->
  a_font_size a = 0 ->
  exists st',
    place_words env fuel font_path margin ranks_only prefer_horiz
                ((word, count) :: rest) st = Ok st'
    /\ font_sizes st' = font_sizes st
    /\ positions st' = positions st
    /\ orientations st' = orientations st
    /\ img_grey st' = img_grey st
    /\ integral st' = integral st
    /\ (forall words, everything words st' = everything words st).
Proof.
  intros Hsize Hloop Hz. eexists. split.
  - simpl. unfold loop_body. rewrite Hsize. cbn [bind]. rewrite Hloop.
    cbn [bind]. rewrite Hz. simpl. reflexivity.
  - repeat split.
Qed.

(** A single word whose box exceeds a 3 x 3 canvas at every size. *)
Lemma exhaustion_truncates_witness :
  let env := block_env (fun _ => 0%Q) in
  exists a st',
    candidate_size env true (font_size (initial_state 3 3)) (Finite 1)
    = Ok 1000
    /\ shrink_loop env FONT_PATH 5 (9 # 10) 1000 "a"%string 1000
                   (integral (initial_state 3 3)) 0 = Ok a
    /\ a_font_size a = 0 /\ a_result a = None
    /\ place_words env 1000 FONT_PATH 5 true (9 # 10)
                   [("a"%string, Finite 1); ("b"%string, Finite 1)]
                   (initial_state 3 3) = Ok st'
    /\ everything ["a"; "b"]%string st' = [].
Proof.
  intros env.
  eassert (Hloop : shrink_loop env FONT_PATH 5 (9 # 10) 1000 "a"%string 1000
                               (integral (initial_state 3 3)) 0 = Ok _)
    by (vm_compute; reflexivity).
  destruct (exhaustion_truncates env 1000 FONT_PATH 5 true (9 # 10)
              "a"%string (Finite 1) [("b"%string, Finite 1)]
              (initial_state 3 3) 1000 _ eq_refl Hloop eq_refl)
    as (st' & Hrun & _ & _ & _ & _ & _ & Hev).
  eexists _, st'. split; [reflexivity|]. split; [exact Hloop|].
  split; [reflexivity|]. split; [reflexivity|]. split; [exact Hrun|].
  rewrite Hev. reflexivity.
Defined.

(** The whole run on a word that fits nowhere: no error, an empty layout. *)
Example oversized_word_gives_empty_layout :
  exists st,
    make_wordcloud (block_env (fun _ => 0%Q)) 1000 ["alpha"%string] [5%Q] 3 3
                   None 5 false (9 # 10) = Ok (["alpha"%string], st)
    /\ everything ["alpha"%string] st = []
    /\ font_size st = 0.
Proof. eexists. split; [vm_compute; reflexivity|]. split; reflexivity. Qed.

(** ** Lists and sums *)

Lemma sumn_ext (n : nat) (f g : nat -> Z) :
  (forall k, (k < n)%nat -> f k = g k) -> sumn n f = sumn n g.
Proof.
  induction n as [|n IH]; intros H; simpl; [reflexivity|].
  rewrite IH, H by (intros; try apply H; lia). reflexivity.
Qed.

Lemma sumn_shift (n : nat) (f : nat -> Z) :
  sumn (S n) f = f 0%nat + sumn n (fun k => f (S k)).
Proof.
  induction n as [|n IH]; [simpl; lia|].
  change (sumn (S (S n)) f) with (sumn (S n) f + f (S n)).
  rewrite IH. simpl. lia.
Qed.

Lemma sumn_add (n m : nat) (f : nat -> Z) :
  sumn (n + m) f = sumn n f + sumn m (fun k => f (n + k)%nat).
Proof.
  induction m as [|m IH]; simpl.
  - rewrite Nat.add_0_r. lia.
  - rewrite Nat.add_succ_r. simpl. rewrite IH. lia.
Qed.

Lemma sumn_plus (n : nat) (f g : nat -> Z) :
  sumn n (fun k => f k + g k) = sumn n f + sumn n g.
Proof. induction n as [|n IH]; simpl; lia. Qed.

Lemma sumn_const (n : nat) (f : nat -> Z) (v : Z) :
  (forall k, (k < n)%nat -> f k = v) -> sumn n f = v * Z.of_nat n.
Proof.
  induction n as [|n IH]; intros H; [simpl; lia|].
  change (sumn (S n) f) with (sumn n f + f n).
  rewrite IH, H by (intros; try apply H; lia). lia.
Qed.

Lemma sumn_bounds (n : nat) (f : nat -> Z) (lo hi : Z) :
  (forall k, (k < n)%nat -> lo <= f k <= hi) ->
  lo * Z.of_nat n <= sumn n f <= hi * Z.of_nat n.
Proof.
  induction n as [|n IH]; intros H; [simpl; lia|].
  change (sumn (S n) f) with (sumn n f + f n).
  specialize (IH ltac:(intros; apply H; lia)).
  specialize (H n ltac:(lia)). lia.
Qed.

Lemma sumn_nonneg (n : nat) (f : nat -> Z) :
  (forall k, (k < n)%nat -> 0 <= f k) -> 0 <= sumn n f.
Proof.
  intros H. induction n as [|n IH]; simpl; [lia|].
  specialize (IH ltac:(intros; apply H; lia)).
  specialize (H n ltac:(lia)). lia.
Qed.

Lemma sumn_zero_inv (n : nat) (f : nat -> Z) :
  (forall k, (k < n)%nat -> 0 <= f k) -> sumn n f = 0 ->
  forall k, (k < n)%nat -> f k = 0.
Proof.
  induction n as [|n IH]; intros Hpos Hsum k Hk; [lia|].
  change (sumn (S n) f) with (sumn n f + f n) in Hsum.
  assert (Hn : 0 <= sumn n f) by (apply sumn_nonneg; intros; apply Hpos; lia).
  pose proof (Hpos n ltac:(lia)).
  destruct (Nat.eq_dec k n) as [->|]; [lia|].
  apply IH; [intros; apply Hpos; lia | lia | lia].
Qed.

Lemma length_zip_with {A B C : Type} (f : A -> B -> C) (l : list A) (k : list B) :
  length (zip_with f l k) = Nat.min (length l) (length k).
Proof.
  revert k. induction l as [|a l IH]; intros [|b k]; simpl; auto.
Qed.

Lemma nth_zip_with {A B C : Type} (f : A -> B -> C) (l : list A) (k : list B)
      (j : nat) (dA : A) (dB : B) (dC : C) :
  (j < length l)%nat -> (j < length k)%nat ->
  nth j (zip_with f l k) dC = f (nth j l dA) (nth j k dB).
Proof.
  revert k j. induction l as [|a l IH]; intros [|b k] j Hl Hk; simpl in *;
    try lia.
  destruct j as [|j]; [reflexivity|]. apply IH; lia.
Qed.

Lemma length_mapi_from {A B : Type} (f : nat -> A -> B) (l : list A) (i : nat) :
  length (mapi_from i f l) = length l.
Proof. revert i. induction l as [|a l IH]; intros i; simpl; auto. Qed.

Lemma nth_mapi_from {A B : Type} (f : nat -> A -> B) (l : list A) (i j : nat)
      (dA : A) (dB : B) :
  (j < length l)%nat ->
  nth j (mapi_from i f l) dB = f (i + j)%nat (nth j l dA).
Proof.
  revert i j. induction l as [|a l IH]; intros i j Hj; simpl in *; [lia|].
  destruct j as [|j].
  - now rewrite Nat.add_0_r.
  - rewrite IH by lia. f_equal. lia.
Qed.

Lemma length_cumsum_from (acc : Z) (l : list Z) :
  length (cumsum_from acc l) = length l.
Proof. revert acc. induction l as [|v l IH]; intros acc; simpl; auto. Qed.

Lemma nth_cumsum_from (acc : Z) (l : list Z) (j : nat) :
  (j < length l)%nat ->
  nth j (cumsum_from acc l) 0 = acc + sumn (S j) (fun b => nth b l 0).
Proof.
  revert acc j. induction l as [|v l IH]; intros acc j Hj; simpl in Hj; [lia|].
  rewrite sumn_shift. destruct j as [|j]; [simpl; lia|].
  cbn [cumsum_from nth]. rewrite IH by lia. cbn [nth]. lia.
Qed.

(** ** Shapes and cells *)

Lemma shape_ok_row (m : matrix) (H W r : nat) :
  shape_ok m H W -> (r < H)%nat -> length (nth r m []) = W.
Proof.
  intros [Hlen Hrows] Hr. rewrite Forall_forall in Hrows.
  apply Hrows, nth_In. lia.
Qed.

Lemma shape_ok_width (m : matrix) (H W : nat) :
  shape_ok m H W -> (0 < H)%nat -> width m = W.
Proof.
  intros Hs HH. unfold width.
  replace (hd [] m) with (nth 0 m []) by (destruct m; reflexivity).
  now apply (shape_ok_row m H W).
Qed.

Lemma shape_ok_zeros (h w : Z) : shape_ok (zeros h w) (Z.to_nat h) (Z.to_nat w).
Proof.
  unfold zeros. split; [apply repeat_length|].
  apply Forall_forall. intros row Hrow. apply repeat_spec in Hrow.
  subst. apply repeat_length.
Qed.

Lemma cell_zeros (h w : Z) (r c : nat) : cell (zeros h w) r c = 0.
Proof.
  unfold cell, zeros.
  destruct (Nat.lt_ge_cases r (Z.to_nat h)) as [Hr|Hr].
  - rewrite nth_repeat_lt by exact Hr.
    destruct (Nat.lt_ge_cases c (Z.to_nat w)) as [Hc|Hc].
    + now rewrite nth_repeat_lt.
    + apply nth_overflow. now rewrite repeat_length.
  - rewrite (nth_overflow (repeat _ _)) by now rewrite repeat_length.
    now destruct c.
Qed.

Lemma cell_overflow_row (m : matrix) (r c : nat) :
  (length m <= r)%nat -> cell m r c = 0.
Proof.
  intros H. unfold cell. rewrite (nth_overflow m) by exact H. now destruct c.
Qed.

Lemma psum_zeros (h w : Z) (r c : nat) : psum (zeros h w) r c = 0.
Proof.
  unfold psum. rewrite (sumn_const r _ 0); [lia|].
  intros i _. rewrite (sumn_const c _ 0); [lia|].
  intros j _. apply cell_zeros.
Qed.

(** *** Cumulative sums *)

Lemma cell_map_cumsum (m : matrix) (a j : nat) :
  (j < length (nth a m []))%nat ->
  cell (map cumsum m) a j = sumn (S j) (fun b => cell m a b).
Proof.
  intros Hj. unfold cell.
  change (@nil Z) with (cumsum []) at 1. rewrite map_nth.
  unfold cumsum. rewrite nth_cumsum_from by exact Hj. lia.
Qed.

Lemma shape_ok_map_cumsum (m : matrix) (H W : nat) :
  shape_ok m H W -> shape_ok (map cumsum m) H W.
Proof.
  intros [Hl Hr]. split; [now rewrite length_map|].
  apply Forall_map. eapply Forall_impl; [|exact Hr].
  intros row <-. apply length_cumsum_from.
Qed.

Lemma cumsum_axis0_from_spec (m : matrix) (W : nat) :
  Forall (fun row => length row = W) m ->
  forall (acc : list Z) (i j : nat),
    length acc = W -> (i < length m)%nat -> (j < W)%nat ->
    cell (cumsum_axis0_from acc m) i j
    = nth j acc 0 + sumn (S i) (fun a => cell m a j).
Proof.
  induction 1 as [|row rest Hrow Hrest IH]; intros acc i j Hacc Hi Hj;
    simpl in Hi; [lia|].
  rewrite sumn_shift. cbn [cumsum_axis0_from].
  destruct i as [|i].
  - unfold cell. cbn [nth sumn].
    rewrite (nth_zip_with _ _ _ _ 0 0) by lia. lia.
  - unfold cell in *. cbn [nth].
    rewrite IH; [| rewrite length_zip_with; lia | lia | lia].
    rewrite (nth_zip_with _ _ _ _ 0 0) by lia. lia.
Qed.

Lemma length_cumsum_axis0_from (acc : list Z) (m : matrix) :
  length (cumsum_axis0_from acc m) = length m.
Proof. revert acc. induction m as [|row m IH]; intros acc; simpl; auto. Qed.

Lemma rows_cumsum_axis0_from (m : matrix) (W : nat) :
  Forall (fun row => length row = W) m ->
  forall acc, length acc = W ->
    Forall (fun row => length row = W) (cumsum_axis0_from acc m).
Proof.
  induction 1 as [|row rest Hrow Hrest IH]; intros acc Hacc; simpl;
    constructor.
  - rewrite length_zip_with. lia.
  - apply IH. rewrite length_zip_with. lia.
Qed.

Lemma shape_ok_cumsum_axis0 (m : matrix) (H W : nat) :
  shape_ok m H W -> shape_ok (cumsum_axis0 m) H W.
Proof.
  intros [Hl Hr]. destruct m as [|row rest]; [split; [exact Hl | constructor]|].
  inversion Hr as [|? ? Hrow Hrest]; subst. split.
  - simpl. now rewrite length_cumsum_axis0_from.
  - constructor; [reflexivity|]. now apply rows_cumsum_axis0_from.
Qed.

Lemma cell_cumsum_axis0 (m : matrix) (H W i j : nat) :
  shape_ok m H W -> (i < H)%nat -> (j < W)%nat ->
  cell (cumsum_axis0 m) i j = sumn (S i) (fun a => cell m a j).
Proof.
  intros [Hl Hr] Hi Hj. destruct m as [|row rest]; [simpl in Hl; lia|].
  inversion Hr as [|? ? Hrow Hrest]; subst.
  cbn [cumsum_axis0]. rewrite sumn_shift. destruct i as [|i].
  - unfold cell. simpl. lia.
  - change (cell (row :: cumsum_axis0_from row rest) (S i) j)
      with (cell (cumsum_axis0_from row rest) i j).
    rewrite (cumsum_axis0_from_spec rest (length row)); simpl in *;
      [reflexivity | assumption | reflexivity | lia | assumption].
Qed.

(** The block [img_array[x:, y:]] and its double cumulative sum. *)
Lemma slice_start_nonneg (len : nat) (i : Z) :
  0 <= i -> slice_start len i = Z.to_nat i.
Proof. intros H. unfold slice_start. destruct (Z.ltb_spec i 0); [lia|reflexivity]. Qed.

Lemma shape_ok_skipn_rows (m : matrix) (H W n : nat) :
  shape_ok m H W -> shape_ok (skipn n m) (H - n) W.
Proof.
  intros [Hl Hr]. split; [rewrite length_skipn; lia|].
  rewrite Forall_forall in *. intros row Hin. apply Hr.
  rewrite <- (firstn_skipn n m). apply in_or_app. now right.
Qed.

Lemma shape_ok_map_skipn (m : matrix) (H W n : nat) :
  shape_ok m H W -> shape_ok (map (skipn n) m) H (W - n).
Proof.
  intros [Hl Hr]. split; [now rewrite length_map|].
  apply Forall_map. eapply Forall_impl; [|exact Hr].
  intros row <-. apply length_skipn.
Qed.

Lemma cell_block (m : matrix) (xs ys a b : nat) :
  cell (map (skipn ys) (skipn xs m)) a b = cell m (xs + a) (ys + b).
Proof.
  unfold cell.
  replace (nth a (map (skipn ys) (skipn xs m)) [])
    with (skipn ys (nth a (skipn xs m) []))
    by (rewrite <- (map_nth (skipn ys) (skipn xs m) [] a);
        now rewrite skipn_nil).
  rewrite !nth_skipn. reflexivity.
Qed.

(** *** Adding the borders and pasting the block *)

Lemma nth_map_default {A B : Type} (f : A -> B) (l : list A) (j : nat)
      (d : A) (d' : B) :
  f d = d' -> nth j (map f l) d' = f (nth j l d).
Proof. intros <-. apply map_nth. Qed.

Lemma nth_map_lt {A B : Type} (f : A -> B) (l : list A) (j : nat)
      (d : A) (d' : B) :
  (j < length l)%nat -> nth j (map f l) d' = f (nth j l d).
Proof.
  intros Hj. rewrite (nth_indep _ d' (f d)) by now rewrite length_map.
  apply map_nth.
Qed.

Lemma Forall_zip_with {A B C : Type} (P : C -> Prop) (f : A -> B -> C)
      (l : list A) (k : list B) :
  (forall a b, In a l -> In b k -> P (f a b)) -> Forall P (zip_with f l k).
Proof.
  revert k. induction l as [|a l IH]; intros [|b k] H; simpl; constructor.
  - apply H; now left.
  - apply IH. intros a' b' Ha Hb. apply H; now right.
Qed.

Lemma add_row_spec (block : matrix) (v : list Z) (h w : nat) :
  shape_ok block h w -> length v = w ->
  shape_ok (add_row block v) h w
  /\ forall i j, (i < h)%nat -> (j < w)%nat ->
       cell (add_row block v) i j = cell block i j + nth j v 0.
Proof.
  intros [Hl Hr] Hv. unfold add_row. split; [split|].
  - now rewrite length_map.
  - apply Forall_map. eapply Forall_impl; [|exact Hr].
    intros row Hrow. simpl in Hrow. rewrite length_zip_with. lia.
  - intros i j Hi Hj. unfold cell.
    rewrite (nth_map_lt _ _ _ []) by lia.
    assert (length (nth i block []) = w)
      by (apply (shape_ok_row block h w); [split; assumption | exact Hi]).
    apply (nth_zip_with _ _ _ _ 0 0); lia.
Qed.

Lemma add_column_spec (block : matrix) (col : list Z) (h w : nat) :
  shape_ok block h w -> length col = h ->
  shape_ok (add_column block col) h w
  /\ forall i j, (i < h)%nat -> (j < w)%nat ->
       cell (add_column block col) i j = nth i col 0 + cell block i j.
Proof.
  intros [Hl Hr] Hc. unfold add_column. split; [split|].
  - rewrite length_zip_with. lia.
  - apply Forall_zip_with. intros brow v Hb _. rewrite length_map.
    rewrite Forall_forall in Hr. now apply Hr.
  - intros i j Hi Hj. unfold cell.
    rewrite (nth_zip_with _ _ _ _ [] 0) by lia.
    apply nth_map_lt.
    rewrite (shape_ok_row block h w); [exact Hj | split; assumption | exact Hi].
Qed.

Lemma assign_block_spec (I block : matrix) (H W : nat) (x y : Z) :
  shape_ok I H W -> 0 <= x -> 0 <= y ->
  shape_ok block (H - Z.to_nat x) (W - Z.to_nat y) ->
  shape_ok (assign_block I x y block) H W
  /\ forall r c, (r < H)%nat -> (c < W)%nat ->
       cell (assign_block I x y block) r c
       = if (Z.to_nat x <=? r)%nat && (Z.to_nat y <=? c)%nat
         then wrap32 (cell block (r - Z.to_nat x) (c - Z.to_nat y))
         else cell I r c.
Proof.
  intros HI Hx Hy Hb. destruct HI as [Hl Hr]. destruct Hb as [Hbl Hbr].
  unfold assign_block. rewrite slice_start_nonneg by exact Hx.
  set (xs := Z.to_nat x). set (ys := Z.to_nat y).
  fold xs in Hbl, Hbr. fold ys in Hbr.
  assert (Hskip : shape_ok (skipn xs I) (H - xs) W)
    by (apply shape_ok_skipn_rows; split; assumption).
  split; [split|].
  - rewrite length_app, length_firstn, length_zip_with, length_skipn. lia.
  - apply Forall_app. split.
    + rewrite Forall_forall in *. intros row Hin. apply Hr.
      rewrite <- (firstn_skipn xs I). apply in_or_app. now left.
    + apply Forall_zip_with. intros row brow Hrow Hbrow.
      destruct Hskip as [_ Hskip]. rewrite Forall_forall in Hskip, Hbr.
      rewrite slice_start_nonneg by exact Hy. fold ys.
      rewrite length_app, length_firstn, length_map.
      rewrite (Hskip row Hrow), (Hbr brow Hbrow). lia.
  - intros r c Hrr Hc. unfold cell at 1.
    destruct (Nat.leb_spec xs r) as [Hxr|Hxr]; cbn [andb].
    + rewrite app_nth2 by (rewrite length_firstn; lia).
      rewrite length_firstn. replace (r - Nat.min xs (length I))%nat
        with (r - xs)%nat by lia.
      rewrite (nth_zip_with _ _ _ _ [] [])
        by (rewrite ?length_skipn; lia).
      rewrite nth_skipn. replace (xs + (r - xs))%nat with r by lia.
      assert (Hrow : length (nth r I []) = W)
        by (apply (shape_ok_row I H W); [split; assumption | exact Hrr]).
      rewrite slice_start_nonneg by exact Hy. fold ys.
      destruct (Nat.leb_spec ys c) as [Hyc|Hyc].
      * rewrite app_nth2 by (rewrite length_firstn; lia).
        rewrite length_firstn, Hrow.
        replace (c - Nat.min ys W)%nat with (c - ys)%nat by lia.
        now rewrite (nth_map_default wrap32 _ _ 0).
      * rewrite app_nth1 by (rewrite length_firstn; lia).
        rewrite nth_firstn.
        destruct (Nat.ltb_spec c ys); [reflexivity | lia].
    + rewrite app_nth1 by (rewrite length_firstn; lia).
      rewrite nth_firstn. destruct (Nat.ltb_spec r xs); [reflexivity | lia].
Qed.

Lemma map_slice_from (y : Z) (m : matrix) :
  0 <= y -> map (slice_from y) m = map (skipn (Z.to_nat y)) m.
Proof.
  intros Hy. apply map_ext. intros row. unfold slice_from.
  now rewrite slice_start_nonneg.
Qed.

Lemma slice_from_nonneg {A : Type} (x : Z) (l : list A) :
  0 <= x -> slice_from x l = skipn (Z.to_nat x) l.
Proof. intros Hx. unfold slice_from. now rewrite slice_start_nonneg. Qed.

Lemma block_cells (G : matrix) (H W : nat) (x y : Z) :
  shape_ok G H W -> 0 <= x -> 0 <= y ->
  let block :=
    cumsum_axis0 (map cumsum (map (slice_from y) (slice_from x G))) in
  shape_ok block (H - Z.to_nat x) (W - Z.to_nat y)
  /\ forall i j, (i < H - Z.to_nat x)%nat -> (j < W - Z.to_nat y)%nat ->
       cell block i j = block_sum G (Z.to_nat x) (Z.to_nat y) i j.
Proof.
  intros HG Hx Hy block. subst block.
  rewrite map_slice_from, slice_from_nonneg by assumption.
  set (xs := Z.to_nat x). set (ys := Z.to_nat y).
  assert (Hs : shape_ok (map (skipn ys) (skipn xs G)) (H - xs) (W - ys))
    by (apply shape_ok_map_skipn, shape_ok_skipn_rows, HG).
  split.
  - apply shape_ok_cumsum_axis0, shape_ok_map_cumsum, Hs.
  - intros i j Hi Hj.
    rewrite (cell_cumsum_axis0 _ (H - xs) (W - ys))
      by (try apply shape_ok_map_cumsum; assumption).
    unfold block_sum. apply sumn_ext. intros a Ha.
    rewrite cell_map_cumsum
      by (rewrite (shape_ok_row _ (H - xs) (W - ys)); [exact Hj | exact Hs | lia]).
    apply sumn_ext. intros b Hb. apply cell_block.
Qed.

Lemma row_at_Ok (m : matrix) (i : Z) (row : list Z) :
  row_at m i = Ok row ->
  (Z.to_nat i < length m)%nat /\ row = nth (Z.to_nat i) m [].
Proof.
  unfold row_at. destruct (nth_error m (Z.to_nat i)) as [row'|] eqn:E;
    [|discriminate].
  intros [= <-]. split.
  - apply nth_error_Some. congruence.
  - symmetry. now apply nth_error_nth.
Qed.

Lemma item_at_Ok (row : list Z) (j : Z) (v : Z) :
  item_at row j = Ok v ->
  (Z.to_nat j < length row)%nat /\ v = nth (Z.to_nat j) row 0.
Proof.
  unfold item_at. destruct (nth_error row (Z.to_nat j)) as [v'|] eqn:E;
    [|discriminate].
  intros [= <-]. split.
  - apply nth_error_Some. congruence.
  - symmetry. now apply nth_error_nth.
Qed.

Lemma column_at_Ok (m : matrix) (j : Z) (col : list Z) :
  column_at m j = Ok col ->
  length col = length m
  /\ forall i, (i < length m)%nat -> nth i col 0 = cell m i (Z.to_nat j).
Proof.
  unfold column_at. destruct (j <? Z.of_nat (width m)); [|discriminate].
  intros [= <-]. split; [apply length_map|].
  intros i Hi. unfold cell.
  now rewrite (nth_map_lt (fun row => nth (Z.to_nat j) row 0) m i []).
Qed.

(** The cells of the integral image after lines 131-148. *)
Lemma update_integral_cells (I G I' : matrix) (H W : nat) (x y : Z) :
  shape_ok I H W -> shape_ok G H W -> 0 <= x -> 0 <= y ->
  update_integral I G x y = Ok I' ->
  shape_ok I' H W
  /\ forall r c, (r < H)%nat -> (c < W)%nat ->
       cell I' r c
       = if (Z.to_nat x <=? r)%nat && (Z.to_nat y <=? c)%nat
         then wrap32 (block_sum G (Z.to_nat x) (Z.to_nat y)
                                (r - Z.to_nat x) (c - Z.to_nat y)
                      + border_top I x y c + border_left I y r)
         else cell I r c.
Proof.
  intros HI HG Hx Hy Hup.
  destruct (block_cells G H W x y HG Hx Hy) as [Hb0 Hc0].
  unfold update_integral in Hup.
  set (block0 := cumsum_axis0 (map cumsum (map (slice_from y) (slice_from x G))))
    in *.
  set (xs := Z.to_nat x) in *. set (ys := Z.to_nat y) in *.
  (* the sums above the block *)
  assert (Htop : exists block1,
             (if x >? 0 then
                above <- row_at I (x - 1) ;;
                if y >? 0 then
                  corner <- item_at above (y - 1) ;;
                  Ok (add_row block0
                        (map (fun v => wrap32 (v - corner)) (slice_from y above)))
                else Ok (add_row block0 (slice_from y above))
              else Ok block0) = Ok block1
             /\ shape_ok block1 (H - xs) (W - ys)
             /\ forall i j, (i < H - xs)%nat -> (j < W - ys)%nat ->
                  cell block1 i j
                  = block_sum G xs ys i j + border_top I x y (ys + j)).
  { destruct (if x >? 0 then _ else _) as [block1| |] eqn:E1;
      cbn [bind] in Hup; try discriminate.
    exists block1. split; [reflexivity|]. unfold border_top.
    destruct (x >? 0) eqn:Hx0.
    - destruct (row_at I (x - 1)) as [above| |] eqn:Habove;
        cbn [bind] in E1; try discriminate.
      apply row_at_Ok in Habove. destruct Habove as [Hxl ->].
      assert (Hrow : length (nth (Z.to_nat (x - 1)) I []) = W).
      { apply (shape_ok_row I H W _ HI). destruct HI as [<- _]. exact Hxl. }
      destruct (y >? 0) eqn:Hy0.
      + destruct (item_at _ (y - 1)) as [corner| |] eqn:Hcorner;
          cbn [bind] in E1; try discriminate.
        apply item_at_Ok in Hcorner. destruct Hcorner as [Hyl ->].
        injection E1 as <-.
        rewrite slice_from_nonneg by exact Hy. fold ys.
        destruct (add_row_spec block0
                    (map (fun v => wrap32 (v - nth (Z.to_nat (y - 1))
                                                   (nth (Z.to_nat (x - 1)) I []) 0))
                         (skipn ys (nth (Z.to_nat (x - 1)) I [])))
                    (H - xs) (W - ys) Hb0) as [Hs1 Hc1].
        { rewrite length_map, length_skipn. lia. }
        split; [exact Hs1|]. intros i j Hi Hj.
        rewrite Hc1, Hc0 by assumption. f_equal.
        rewrite (nth_map_lt _ _ _ 0) by (rewrite length_skipn; lia).
        rewrite nth_skipn. reflexivity.
      + injection E1 as <-.
        rewrite slice_from_nonneg by exact Hy. fold ys.
        destruct (add_row_spec block0 (skipn ys (nth (Z.to_nat (x - 1)) I []))
                               (H - xs) (W - ys) Hb0) as [Hs1 Hc1].
        { rewrite length_skipn. lia. }
        split; [exact Hs1|]. intros i j Hi Hj.
        rewrite Hc1, Hc0 by assumption. f_equal. apply nth_skipn.
    - injection E1 as <-. split; [exact Hb0|]. intros i j Hi Hj.
      rewrite Hc0 by assumption. lia. }
  destruct Htop as (block1 & E1 & Hs1 & Hc1).
  rewrite E1 in Hup. cbn [bind] in Hup.
  (* the sums left of the block *)
  assert (Hleft : exists block2,
             (if y >? 0 then
                left <- column_at I (y - 1) ;;
                Ok (add_column block1 (slice_from x left))
              else Ok block1) = Ok block2
             /\ shape_ok block2 (H - xs) (W - ys)
             /\ forall i j, (i < H - xs)%nat -> (j < W - ys)%nat ->
                  cell block2 i j
                  = cell block1 i j + border_left I y (xs + i)).
  { destruct (if y >? 0 then _ else _) as [block2| |] eqn:E2;
      cbn [bind] in Hup; try discriminate.
    exists block2. split; [reflexivity|]. unfold border_left.
    destruct (y >? 0) eqn:Hy0.
    - destruct (column_at I (y - 1)) as [left| |] eqn:Hleft;
        cbn [bind] in E2; try discriminate.
      apply column_at_Ok in Hleft. destruct Hleft as [Hll Hlc].
      injection E2 as <-.
      rewrite slice_from_nonneg by exact Hx. fold xs.
      destruct HI as [HIl HIr].
      destruct (add_column_spec block1 (skipn xs left) (H - xs) (W - ys) Hs1)
        as [Hs2 Hc2].
      { rewrite length_skipn. lia. }
      split; [exact Hs2|]. intros i j Hi Hj.
      rewrite Hc2 by assumption. rewrite nth_skipn, Hlc by lia. lia.
    - injection E2 as <-. split; [exact Hs1|]. intros; lia. }
  destruct Hleft as (block2 & E2 & Hs2 & Hc2).
  rewrite E2 in Hup. cbn [bind] in Hup. injection Hup as <-.
  destruct (assign_block_spec I block2 H W x y HI Hx Hy Hs2) as [Hs3 Hc3].
  split; [exact Hs3|]. intros r c Hr Hc. rewrite Hc3 by assumption.
  fold xs ys.
  destruct (Nat.leb_spec xs r) as [Hxr|]; [|reflexivity].
  destruct (Nat.leb_spec ys c) as [Hyc|]; [|reflexivity].
  cbn [andb]. rewrite Hc2, Hc1 by lia.
  replace (ys + (c - ys))%nat with c by lia.
  replace (xs + (r - xs))%nat with r by lia. reflexivity.
Qed.

(** *** Arithmetic modulo 2^32 *)

Lemma wrap32_shift (a k : Z) : wrap32 (a + k * 2 ^ 32) = wrap32 a.
Proof. unfold wrap32. apply Z_mod_plus_full. Qed.

Lemma wrap32_quot (a : Z) : exists k, wrap32 a = a + k * 2 ^ 32.
Proof.
  exists (- (a / 2 ^ 32)). unfold wrap32.
  pose proof (Z.div_mod a (2 ^ 32) ltac:(lia)). lia.
Qed.

Lemma wrap32_small (a : Z) : 0 <= a < 2 ^ 32 -> wrap32 a = a.
Proof. intros H. unfold wrap32. now apply Z.mod_small. Qed.

Lemma wrap32_0 : wrap32 0 = 0.
Proof. reflexivity. Qed.

(** *** Splitting a prefix sum at row [xs] and column [ys] *)

Lemma psum_0_l (G : matrix) (c : nat) : psum G 0 c = 0.
Proof. reflexivity. Qed.

Lemma psum_0_r (G : matrix) (r : nat) : psum G r 0 = 0.
Proof. unfold psum. rewrite (sumn_const r _ 0); [lia | reflexivity]. Qed.

Lemma psum_split (G : matrix) (xs ys r c : nat) :
  (xs <= r)%nat -> (ys <= c)%nat ->
  psum G (S r) (S c)
  = psum G xs (S c) + (psum G (S r) ys - psum G xs ys)
    + block_sum G xs ys (r - xs) (c - ys).
Proof.
  intros Hr Hc. unfold psum, block_sum.
  replace (S r) with (xs + S (r - xs))%nat by lia.
  rewrite !sumn_add.
  replace (xs + S (r - xs) - xs)%nat with (S (r - xs)) by lia.
  assert (E : forall a,
             sumn (S c) (fun j => cell G (xs + a) j)
             = sumn ys (fun j => cell G (xs + a) j)
               + sumn (S (c - ys)) (fun b => cell G (xs + a) (ys + b))).
  { intros a. replace (S c) with (ys + S (c - ys))%nat at 1 by lia.
    apply sumn_add. }
  rewrite (sumn_ext _ _ _ (fun a _ => E a)), sumn_plus. lia.
Qed.

Lemma psum_agree (G G0 : matrix) (r c : nat) :
  (forall i j, (i < r)%nat -> (j < c)%nat -> cell G i j = cell G0 i j) ->
  psum G r c = psum G0 r c.
Proof.
  intros H. unfold psum. apply sumn_ext. intros i Hi.
  apply sumn_ext. intros j Hj. now apply H.
Qed.

(** One update keeps the integral image equal to the prefix sums modulo
    2^32, provided the drawing changed no pixel above row [x] or left of
    column [y]. *)
Lemma update_integral_mod (I G0 G I' : matrix) (H W : nat) (x y : Z) :
  shape_ok I H W -> shape_ok G H W -> 0 <= x -> 0 <= y ->
  integral_mod I G0 H W ->
  (forall r c, (r < Z.to_nat x)%nat \/ (c < Z.to_nat y)%nat ->
               cell G r c = cell G0 r c) ->
  update_integral I G x y = Ok I' ->
  shape_ok I' H W /\ integral_mod I' G H W.
Proof.
  intros HI HG Hx Hy Hinv Hagree Hup.
  destruct (update_integral_cells I G I' H W x y HI HG Hx Hy Hup) as [Hs Hc].
  split; [exact Hs|]. intros r c Hr Hcw. rewrite Hc by assumption.
  set (xs := Z.to_nat x) in *. set (ys := Z.to_nat y) in *.
  assert (Hrows : forall c', psum G xs c' = psum G0 xs c')
    by (intros c'; apply psum_agree; intros; apply Hagree; lia).
  assert (Hcols : forall r', psum G r' ys = psum G0 r' ys)
    by (intros r'; apply psum_agree; intros; apply Hagree; lia).
  destruct (Nat.leb_spec xs r) as [Hxr|Hxr]; cbn [andb].
  2:{ rewrite Hinv by assumption. f_equal. apply psum_agree.
      intros; symmetry; apply Hagree; lia. }
  destruct (Nat.leb_spec ys c) as [Hyc|Hyc].
  2:{ rewrite Hinv by assumption. f_equal. apply psum_agree.
      intros; symmetry; apply Hagree; lia. }
  rewrite (psum_split G xs ys r c Hxr Hyc), Hrows, !Hcols.
  set (S0 := block_sum G xs ys (r - xs) (c - ys)).
  assert (Htop : exists k, border_top I x y c
                           = psum G0 xs (S c) - psum G0 xs ys + k * 2 ^ 32).
  { unfold border_top. destruct (Z.gtb_spec x 0) as [Hx0|Hx0].
    - assert (Hxs : S (Z.to_nat (x - 1)) = xs) by (unfold xs; lia).
      destruct (Z.gtb_spec y 0) as [Hy0|Hy0].
      + assert (Hys : S (Z.to_nat (y - 1)) = ys) by (unfold ys; lia).
        rewrite !Hinv by lia. rewrite Hxs, Hys.
        destruct (wrap32_quot (psum G0 xs (S c))) as [k1 ->].
        destruct (wrap32_quot (psum G0 xs ys)) as [k2 ->].
        destruct (wrap32_quot (psum G0 xs (S c) + k1 * 2 ^ 32
                               - (psum G0 xs ys + k2 * 2 ^ 32))) as [k3 ->].
        exists (k1 - k2 + k3). lia.
      + rewrite Hinv by lia. rewrite Hxs.
        replace ys with 0%nat by (unfold ys; lia). rewrite psum_0_r.
        destruct (wrap32_quot (psum G0 xs (S c))) as [k1 ->].
        exists k1. lia.
    - replace xs with 0%nat by (unfold xs; lia). rewrite !psum_0_l.
      exists 0. lia. }
  assert (Hleft : exists k, border_left I y r = psum G0 (S r) ys + k * 2 ^ 32).
  { unfold border_left. destruct (Z.gtb_spec y 0) as [Hy0|Hy0].
    - assert (Hys : S (Z.to_nat (y - 1)) = ys) by (unfold ys; lia).
      rewrite Hinv by lia. rewrite Hys. apply wrap32_quot.
    - replace ys with 0%nat by (unfold ys; lia). rewrite psum_0_r.
      exists 0. lia. }
  destruct Htop as [k1 ->]. destruct Hleft as [k2 ->].
  replace (S0 + (psum G0 xs (S c) - psum G0 xs ys + k1 * 2 ^ 32)
           + (psum G0 (S r) ys + k2 * 2 ^ 32))
    with (psum G0 xs (S c) + (psum G0 (S r) ys - psum G0 xs ys) + S0
          + (k1 + k2) * 2 ^ 32) by lia.
  apply wrap32_shift.
Qed.

(** ** Drawing *)

Lemma In_zrange (n z : Z) : In z (zrange n) <-> 0 <= z < n.
Proof.
  unfold zrange. rewrite in_map_iff. split.
  - intros [k [<- Hk]]. apply in_seq in Hk. lia.
  - intros Hz. exists (Z.to_nat z). split; [lia|]. apply in_seq. lia.
Qed.

Lemma BLEND_table :
  forallb (fun mask =>
             forallb (fun out =>
                        (0 <=? BLEND mask out 255) && (BLEND mask out 255 <=? 255)
                        && (mask <=? BLEND mask out 255)
                        && (implb (mask =? 0) (BLEND mask out 255 =? out)))
                     (zrange 256))
          (zrange 256) = true.
Proof. vm_compute. reflexivity. Qed.

Lemma BLEND_spec (mask out : Z) :
  0 <= mask <= 255 -> 0 <= out <= 255 ->
  0 <= BLEND mask out 255 <= 255
  /\ mask <= BLEND mask out 255
  /\ (mask = 0 -> BLEND mask out 255 = out).
Proof.
  intros Hm Ho. pose proof BLEND_table as T.
  rewrite forallb_forall in T.
  specialize (T mask ltac:(apply In_zrange; lia)).
  rewrite forallb_forall in T.
  specialize (T out ltac:(apply In_zrange; lia)).
  rewrite !andb_true_iff in T. destruct T as [[[T1 T2] T3] T4].
  repeat split; lia.
Qed.

Lemma Forall_mapi_from {A B : Type} (P : B -> Prop) (Q : A -> Prop)
      (f : nat -> A -> B) (l : list A) (i : nat) :
  (forall k a, Q a -> P (f k a)) -> Forall Q l -> Forall P (mapi_from i f l).
Proof.
  intros Hf Hl. revert i. induction Hl as [|a l Ha Hl IH]; intros i; simpl;
    constructor; auto.
Qed.

Lemma draw_text_shape (G mask : matrix) (H W : nat) (xy : Z * Z) :
  shape_ok G H W -> shape_ok (draw_text G xy mask) H W.
Proof.
  intros [Hl Hr]. destruct xy as [x0 y0]. unfold draw_text, mapi. split.
  - now rewrite length_mapi_from.
  - eapply Forall_mapi_from; [|exact Hr].
    intros k row Hrow. simpl in *. now rewrite length_mapi_from.
Qed.

Lemma draw_text_cell (G mask : matrix) (H W : nat) (x0 y0 : Z) (r c : nat) :
  shape_ok G H W -> (r < H)%nat -> (c < W)%nat ->
  cell (draw_text G (x0, y0) mask) r c
  = if under_mask mask x0 y0 r c
    then BLEND (cell mask (Z.to_nat (Z.of_nat r - y0))
                     (Z.to_nat (Z.of_nat c - x0)))
               (cell G r c) 255
    else cell G r c.
Proof.
  intros HG Hr Hc. pose proof (shape_ok_row G H W r HG Hr) as Hrow.
  destruct HG as [Hl _]. unfold draw_text, mapi, cell, under_mask.
  rewrite (nth_mapi_from _ _ _ _ []) by lia.
  rewrite (nth_mapi_from _ _ _ _ 0) by lia.
  reflexivity.
Qed.

Lemma draw_text_outside (G mask : matrix) (H W : nat) (x0 y0 : Z) (r c : nat) :
  shape_ok G H W ->
  Z.of_nat r < y0 \/ Z.of_nat c < x0 ->
  cell (draw_text G (x0, y0) mask) r c = cell G r c.
Proof.
  intros HG Hout.
  destruct (Nat.lt_ge_cases r H) as [Hr|Hr].
  - destruct (Nat.lt_ge_cases c W) as [Hc|Hc].
    + rewrite (draw_text_cell G mask H W) by assumption.
      unfold under_mask.
      destruct (Z.leb_spec 0 (Z.of_nat r - y0));
        destruct (Z.leb_spec 0 (Z.of_nat c - x0)); cbn [andb];
        rewrite ?andb_false_r; try reflexivity; lia.
    + pose proof (draw_text_shape G mask H W (x0, y0) HG) as HG'.
      unfold cell. rewrite !nth_overflow; try reflexivity.
      * now rewrite (shape_ok_row G H W).
      * now rewrite (shape_ok_row _ H W r HG').
  - pose proof (draw_text_shape G mask H W (x0, y0) HG) as [Hl' _].
    destruct HG as [Hl _].
    rewrite !cell_overflow_row by lia. reflexivity.
Qed.

Lemma draw_text_8bit (G mask : matrix) (H W : nat) (xy : Z * Z) :
  shape_ok G H W -> pixels_8bit G -> pixels_8bit mask ->
  pixels_8bit (draw_text G xy mask).
Proof.
  intros HG HG8 Hm8 r c. destruct xy as [x0 y0].
  destruct (Nat.lt_ge_cases r H) as [Hr|Hr].
  - destruct (Nat.lt_ge_cases c W) as [Hc|Hc].
    + rewrite (draw_text_cell G mask H W) by assumption.
      destruct (under_mask mask x0 y0 r c); [|apply HG8].
      apply BLEND_spec; [apply Hm8 | apply HG8].
    + pose proof (draw_text_shape G mask H W (x0, y0) HG) as HG'.
      unfold cell. rewrite nth_overflow; [lia|].
      now rewrite (shape_ok_row _ H W r HG').
  - pose proof (draw_text_shape G mask H W (x0, y0) HG) as [Hl' _].
    rewrite cell_overflow_row by lia. lia.
Qed.

(** ** The free-region query *)

Lemma query_integral_image_Some (I : matrix) (size_x size_y r c : Z) :
  query_integral_image I size_x size_y = Some (r, c) ->
  0 <= r <= Z.of_nat (length I) - size_x
  /\ 0 <= c <= Z.of_nat (width I) - size_y
  /\ queryRegionSum I r c size_x size_y = 0.
Proof.
  unfold query_integral_image. intros Hf. apply find_some in Hf.
  destruct Hf as [Hin Hz]. simpl in Hz. apply Z.eqb_eq in Hz.
  apply in_flat_map in Hin. destruct Hin as [r' [Hr' Hin]].
  apply in_map_iff in Hin. destruct Hin as [c' [[= <- <-] Hc']].
  apply In_zrange in Hr', Hc'. repeat split; try lia.
Qed.

(** ** The grid invariant along a run *)

Lemma grid_inv_initial (width height : Z) :
  grid_inv (Z.to_nat height) (Z.to_nat width) (initial_state width height).
Proof.
  unfold grid_inv, initial_state. cbn [img_grey integral].
  split; [apply shape_ok_zeros|]. split; [apply shape_ok_zeros|].
  intros r c _ _. now rewrite cell_zeros, psum_zeros.
Qed.

Lemma loop_body_position (env : Env) (fuel : nat) (font_path : string)
      (margin : Z) (prefer_horiz : Q) (word : string) (size : Z)
      (I : matrix) (draws : nat) (a : attempt (Font env)) (r c : Z) :
  shrink_loop env font_path margin prefer_horiz fuel word size I draws = Ok a ->
  a_result a = Some (r, c) ->
  0 <= r <= Z.of_nat (length I) - (snd (a_box_size a) + margin)
  /\ 0 <= c <= Z.of_nat (width I) - (fst (a_box_size a) + margin)
  /\ queryRegionSum I r c (snd (a_box_size a) + margin)
                    (fst (a_box_size a) + margin) = 0.
Proof.
  intros Hloop Hres. apply shrink_loop_exit in Hloop.
  destruct Hloop as (_ & _ & _ & _ & _ & Hq & _).
  rewrite Hres in Hq. symmetry in Hq.
  now apply query_integral_image_Some.
Qed.

Lemma loop_body_grid_inv (env : Env) (fuel : nat) (font_path : string)
      (margin : Z) (ranks_only : bool) (prefer_horiz : Q)
      (word : string) (count : npfloat) (st : state) (f : flow) (H W : nat) :
  0 <= margin ->
  loop_body env fuel font_path margin ranks_only prefer_horiz word count st
  = Ok f ->
  grid_inv H W st -> grid_inv H W (flow_state f).
Proof.
  intros Hm Hbody (HG & HI & Hinv).
  apply loop_body_inv in Hbody.
  destruct Hbody as (size & a & _ & Hloop & Hf).
  destruct f as [st'|st']; cbn [flow_state].
  - destruct Hf as (_ & r & c & Hres & Himg & Hup & _).
    destruct (loop_body_position _ _ _ _ _ _ _ _ _ _ r c Hloop Hres)
      as (Hr & Hc & _).
    pose proof (Z.div_pos margin 2 Hm ltac:(lia)) as Hhalf.
    assert (HG' : shape_ok (img_grey st') H W)
      by (rewrite Himg; now apply draw_text_shape).
    destruct (update_integral_mod (integral st) (img_grey st) (img_grey st')
                (integral st') H W (r + margin / 2) (c + margin / 2))
      as [HI' Hinv']; try assumption; try lia.
    + intros r' c' Hout. rewrite Himg.
      apply (draw_text_outside _ _ H W); [exact HG | lia].
    + split; [exact HG' | split; [exact HI' | exact Hinv']].
  - destruct Hf as (_ & ->).
    split; [exact HG | split; [exact HI | exact Hinv]].
Qed.

Lemma place_words_grid_inv (env : Env) (fuel : nat) (font_path : string)
      (margin : Z) (ranks_only : bool) (prefer_horiz : Q)
      (ws : list (string * npfloat)) (st st' : state) (H W : nat) :
  0 <= margin ->
  place_words env fuel font_path margin ranks_only prefer_horiz ws st = Ok st' ->
  grid_inv H W st -> grid_inv H W st'.
Proof.
  intros Hm. revert st.
  induction ws as [|[word count] rest IH]; intros st Hrun Hinv.
  - injection Hrun as <-. exact Hinv.
  - simpl in Hrun.
    destruct (loop_body env fuel font_path margin ranks_only prefer_horiz
                        word count st) as [[st1|st1]| |] eqn:Hb;
      try discriminate.
    + apply (IH st1 Hrun).
      exact (loop_body_grid_inv _ _ _ _ _ _ _ _ _ _ H W Hm Hb Hinv).
    + injection Hrun as <-.
      exact (loop_body_grid_inv _ _ _ _ _ _ _ _ _ _ H W Hm Hb Hinv).
Qed.

(** *** 8-bit pixels and exact sums *)

Lemma loop_body_8bit (env : Env) (fuel : nat) (font_path : string)
      (margin : Z) (ranks_only : bool) (prefer_horiz : Q)
      (word : string) (count : npfloat) (st : state) (f : flow) (H W : nat) :
  masks_8bit env ->
  loop_body env fuel font_path margin ranks_only prefer_horiz word count st
  = Ok f ->
  shape_ok (img_grey st) H W -> pixels_8bit (img_grey st) ->
  pixels_8bit (img_grey (flow_state f)).
Proof.
  intros Hmasks Hbody HG H8. apply loop_body_inv in Hbody.
  destruct Hbody as (size & a & _ & _ & Hf).
  destruct f as [st'|st']; cbn [flow_state].
  - destruct Hf as (_ & r & c & _ & -> & _).
    apply (draw_text_8bit _ _ H W); [exact HG | exact H8 | apply Hmasks].
  - destruct Hf as (_ & ->). exact H8.
Qed.

Lemma place_words_8bit (env : Env) (fuel : nat) (font_path : string)
      (margin : Z) (ranks_only : bool) (prefer_horiz : Q)
      (ws : list (string * npfloat)) (st st' : state) (H W : nat) :
  0 <= margin -> masks_8bit env ->
  place_words env fuel font_path margin ranks_only prefer_horiz ws st = Ok st' ->
  grid_inv H W st -> pixels_8bit (img_grey st) -> pixels_8bit (img_grey st').
Proof.
  intros Hm Hmasks. revert st.
  induction ws as [|[word count] rest IH]; intros st Hrun Hinv H8.
  - injection Hrun as <-. exact H8.
  - simpl in Hrun.
    destruct (loop_body env fuel font_path margin ranks_only prefer_horiz
                        word count st) as [[st1|st1]| |] eqn:Hb;
      try discriminate.
    + apply (IH st1 Hrun).
      * exact (loop_body_grid_inv _ _ _ _ _ _ _ _ _ _ H W Hm Hb Hinv).
      * exact (loop_body_8bit _ _ _ _ _ _ _ _ _ _ H W Hmasks Hb
                              (proj1 Hinv) H8).
    + injection Hrun as <-.
      exact (loop_body_8bit _ _ _ _ _ _ _ _ _ _ H W Hmasks Hb (proj1 Hinv) H8).
Qed.

Lemma psum_8bit_bounds (G : matrix) (r c : nat) :
  pixels_8bit G -> 0 <= psum G r c <= 255 * Z.of_nat r * Z.of_nat c.
Proof.
  intros H8. unfold psum.
  pose proof (sumn_bounds r (fun i => sumn c (fun j => cell G i j))
                0 (255 * Z.of_nat c)) as Hb.
  assert (Hrow : forall k, (k < r)%nat ->
             0 <= sumn c (fun j => cell G k j) <= 255 * Z.of_nat c).
  { intros k _.
    pose proof (sumn_bounds c (fun j => cell G k j) 0 255
                  ltac:(intros; apply H8)). lia. }
  specialize (Hb Hrow). lia.
Qed.

Lemma integral_mod_exact (I G : matrix) (H W : nat) :
  integral_mod I G H W -> pixels_8bit G ->
  255 * Z.of_nat H * Z.of_nat W < 2 ^ 32 ->
  integral_exact I G H W.
Proof.
  intros Hmod H8 Hsmall r c Hr Hc. rewrite Hmod by assumption.
  apply wrap32_small.
  pose proof (psum_8bit_bounds G (S r) (S c) H8).
  assert (Z.of_nat (S r) * Z.of_nat (S c) <= Z.of_nat H * Z.of_nat W) by nia.
  lia.
Qed.

Lemma pixels_8bit_zeros (h w : Z) : pixels_8bit (zeros h w).
Proof. intros r c. rewrite cell_zeros. lia. Qed.

(** C2 (amended). At every point of a run with a non-negative margin the
    integral image equals the 2-D prefix sum of the grey image modulo 2^32
    (its dtype is uint32); it is the exact prefix sum whenever the canvas is
    small enough for the total never to reach 2^32, 255 * H * W < 2^32. *)
Theorem integral_is_prefix_sum
        (env : Env) (fuel : nat) (font_path : string) (margin : Z)
        (ranks_only : bool) (prefer_horiz : Q)
        (ws : list (string * npfloat)) (width height : Z) (st : state) :
  0 <= margin ->
  place_words env fuel font_path margin ranks_only prefer_horiz ws
              (initial_state width height) = Ok st ->
  integral_mod (integral st) (img_grey st) (Z.to_nat height) (Z.to_nat width)
  /\ (masks_8bit env ->
      255 * Z.max 0 height * Z.max 0 width < 2 ^ 32 ->
      integral_exact (integral st) (img_grey st)
                     (Z.to_nat height) (Z.to_nat width)).
Proof.
  intros Hm Hrun.
  pose proof (place_words_grid_inv _ _ _ _ _ _ _ _ _ _ _ Hm Hrun
                (grid_inv_initial width height)) as Hinv.
  split; [apply Hinv|]. intros Hmasks Hsmall.
  apply integral_mod_exact; [apply Hinv | | lia].
  apply (place_words_8bit _ _ _ _ _ _ _ _ _ _ _ Hm Hmasks Hrun
           (grid_inv_initial width height)).
  apply pixels_8bit_zeros.
Qed.

(** *** Solid bitmaps *)

Lemma shape_ok_solid (h w : Z) : shape_ok (solid h w) (Z.to_nat h) (Z.to_nat w).
Proof.
  unfold solid. split; [apply repeat_length|].
  apply Forall_forall. intros row Hrow. apply repeat_spec in Hrow.
  subst. apply repeat_length.
Qed.

Lemma cell_solid (h w : Z) (r c : nat) :
  (r < Z.to_nat h)%nat -> (c < Z.to_nat w)%nat -> cell (solid h w) r c = 255.
Proof.
  intros Hr Hc. unfold cell, solid. now rewrite !nth_repeat_lt.
Qed.

Lemma pixels_8bit_solid (h w : Z) : pixels_8bit (solid h w).
Proof.
  intros r c.
  destruct (Nat.lt_ge_cases r (Z.to_nat h)) as [Hr|Hr].
  - destruct (Nat.lt_ge_cases c (Z.to_nat w)) as [Hc|Hc].
    + rewrite cell_solid by assumption. lia.
    + unfold cell. rewrite nth_overflow; [lia|].
      now rewrite (shape_ok_row _ _ _ r (shape_ok_solid h w) Hr).
  - rewrite cell_overflow_row; [lia|].
    now rewrite (proj1 (shape_ok_solid h w)).
Qed.

Lemma masks_8bit_block_env (rnd : nat -> Q) : masks_8bit (block_env rnd).
Proof. intros font o word. apply pixels_8bit_solid. Qed.

Lemma integral_is_prefix_sum_witness :
  let env := block_env (fun _ => 0%Q) in
  exists st,
    place_words env 1000 FONT_PATH 5 true (9 # 10)
                [("a"%string, Finite 1); ("b"%string, Finite 1)]
                (initial_state 20 9) = Ok st
    /\ positions st = [(2, 2); (2, 8)]
    /\ integral_exact (integral st) (img_grey st) (Z.to_nat 9) (Z.to_nat 20).
Proof.
  intros env.
  eassert (Hrun : place_words env 1000 FONT_PATH 5 true (9 # 10)
                    [("a"%string, Finite 1); ("b"%string, Finite 1)]
                    (initial_state 20 9) = Ok _) by (vm_compute; reflexivity).
  eexists. split; [exact Hrun|]. split; [reflexivity|].
  apply (integral_is_prefix_sum env 1000 FONT_PATH 5 true (9 # 10) _ 20 9 _
           ltac:(lia) Hrun).
  - apply masks_8bit_block_env.
  - reflexivity.
Defined.

(** *** A canvas wide enough for the sums to pass 2^32 *)

Lemma queryRegionSum_zeros (h w top left a b : Z) :
  queryRegionSum (zeros h w) top left a b = 0.
Proof.
  assert (E : forall r c, lookup0 (zeros h w) r c = 0).
  { intros r c. unfold lookup0.
    destruct ((r <? 0) || (c <? 0)); [reflexivity | apply cell_zeros]. }
  unfold queryRegionSum. rewrite !E. reflexivity.
Qed.

Lemma query_one_row_canvas (n : Z) :
  1 <= n -> query_integral_image (zeros 1 n) (1 + 0) (n + 0) = Some (0, 0).
Proof.
  intros Hn. unfold query_integral_image.
  rewrite (proj1 (shape_ok_zeros 1 n)).
  rewrite (shape_ok_width _ _ _ (shape_ok_zeros 1 n)) by (simpl; lia).
  replace (Z.of_nat (Z.to_nat 1) - (1 + 0) + 1) with 1 by lia.
  replace (Z.of_nat (Z.to_nat n) - (n + 0) + 1) with 1 by lia.
  change (zrange 1) with [0].
  cbn [flat_map map app find fst snd].
  now rewrite queryRegionSum_zeros.
Qed.

Lemma banner_run (n : Z) :
  1 <= n ->
  exists st,
    place_words (banner_env n) 0 FONT_PATH 0 true (9 # 10)
                [("w"%string, Finite 1)] (initial_state n 1) = Ok st
    /\ font_sizes st = [1000]
    /\ positions st = [(0, 0)]
    /\ cell (integral st) 0 (Z.to_nat n - 1) = wrap32 (255 * n)
    /\ psum (img_grey st) 1 (Z.to_nat n) = 255 * n.
Proof.
  intros Hn.
  set (G := draw_text (zeros 1 n) (0, 0) (solid 1 n)).
  assert (Hup : exists I', update_integral (zeros 1 n) G 0 0 = Ok I')
    by (eexists; reflexivity).
  destruct Hup as [I' Hup].
  exists {| img_grey := G; integral := I'; font_size := 1000;
            font_sizes := [1000]; positions := [(0, 0)];
            orientations := [NoRotation]; draws := 1 |}.
  assert (HG : shape_ok G (Z.to_nat 1) (Z.to_nat n))
    by (apply draw_text_shape, shape_ok_zeros).
  assert (Hrow : forall b, (b < Z.to_nat n)%nat -> cell G 0 b = 255).
  { intros b Hb. unfold G.
    rewrite (draw_text_cell _ _ (Z.to_nat 1) (Z.to_nat n))
      by (try apply shape_ok_zeros; simpl; lia).
    unfold under_mask.
    rewrite (proj1 (shape_ok_solid 1 n)).
    rewrite (shape_ok_width _ _ _ (shape_ok_solid 1 n)) by (simpl; lia).
    destruct (Z.ltb_spec (Z.of_nat b - 0) (Z.of_nat (Z.to_nat n))); [|lia].
    destruct (Z.leb_spec 0 (Z.of_nat b - 0)); [|lia].
    cbn [Z.of_nat Z.sub Z.opp Z.add Z.leb Z.ltb Z.compare Z.to_nat
         Pos.to_nat Pos.iter_op Nat.add andb].
    rewrite cell_solid by (simpl; lia). rewrite cell_zeros. reflexivity. }
  assert (Hsum : sumn (Z.to_nat n) (fun b => cell G 0 b) = 255 * n).
  { transitivity (255 * Z.of_nat (Z.to_nat n));
      [apply sumn_const; exact Hrow | lia]. }
  split; [|split; [reflexivity|split; [reflexivity|split]]].
  - cbn [place_words loop_body candidate_size initial_state font_size
         integral draws img_grey bind shrink_loop banner_env truetype
         textsize getmask random fst snd].
    rewrite (query_one_row_canvas n Hn).
    cbn [orb a_font_size a_result a_font a_orientation a_draws Z.eqb bind].
    replace (0 + 0 / 2) with 0 by reflexivity. fold G.
    rewrite Hup. reflexivity.
  - cbn [integral].
    destruct (update_integral_cells (zeros 1 n) G I' (Z.to_nat 1) (Z.to_nat n)
                0 0 (shape_ok_zeros 1 n) HG ltac:(lia) ltac:(lia) Hup)
      as [_ Hcells].
    rewrite Hcells by (simpl; lia).
    cbn [Z.to_nat Nat.leb andb]. unfold border_top, border_left.
    cbn [Z.gtb Z.compare]. rewrite !Z.add_0_r. f_equal.
    unfold block_sum. rewrite Nat.sub_0_r.
    replace (S (Z.to_nat n - 1 - 0)) with (Z.to_nat n) by lia.
    cbn [sumn]. cbn [Nat.add]. rewrite <- Hsum. lia.
  - cbn [img_grey]. unfold psum. cbn [sumn]. rewrite Hsum. lia.
Qed.

(** C2 (as stated) fails once the sums pass 2^32: on a canvas of one row
    and 16843010 columns that a single word inks completely, the last cell
    of the integral image holds 254 while the prefix sum of the image is
    4294967550. *)
Lemma integral_wraps_on_wide_canvas :
  exists st,
    place_words (banner_env 16843010) 0 FONT_PATH 0 true (9 # 10)
                [("w"%string, Finite 1)] (initial_state 16843010 1) = Ok st
    /\ cell (integral st) 0 (Z.to_nat 16843010 - 1) = 254
    /\ psum (img_grey st) 1 (Z.to_nat 16843010) = 4294967550.
Proof.
  destruct (banner_run 16843010 ltac:(lia)) as (st & Hrun & _ & _ & Hc & Hs).
  exists st. split; [exact Hrun|]. split; [exact Hc | exact Hs].
Qed.


(** ** Free regions *)

Lemma lookup0_exact (I G : matrix) (H W : nat) (r c : Z) :
  integral_exact I G H W ->
  -1 <= r < Z.of_nat H -> -1 <= c < Z.of_nat W ->
  lookup0 I r c = psum G (Z.to_nat (r + 1)) (Z.to_nat (c + 1)).
Proof.
  intros Hex Hr Hc. unfold lookup0.
  destruct (Z.ltb_spec r 0) as [Hr0|Hr0]; cbn [orb].
  - replace (Z.to_nat (r + 1)) with 0%nat by lia. now rewrite psum_0_l.
  - destruct (Z.ltb_spec c 0) as [Hc0|Hc0].
    + replace (Z.to_nat (c + 1)) with 0%nat by lia. now rewrite psum_0_r.
    + rewrite Hex by lia. f_equal; lia.
Qed.

(** On an exact integral image the inclusion-exclusion of the query is the
    sum of the image over the queried rectangle. *)
Lemma queryRegionSum_exact (I G : matrix) (H W : nat) (r0 c0 h w : Z) :
  integral_exact I G H W ->
  0 <= r0 -> 0 <= c0 -> 1 <= h -> 1 <= w ->
  r0 + h <= Z.of_nat H -> c0 + w <= Z.of_nat W ->
  queryRegionSum I r0 c0 h w
  = block_sum G (Z.to_nat r0) (Z.to_nat c0) (Z.to_nat (h - 1)) (Z.to_nat (w - 1)).
Proof.
  intros Hex Hr Hc Hh Hw HrH HcW. unfold queryRegionSum.
  rewrite !(lookup0_exact I G H W) by (try exact Hex; lia).
  pose proof (psum_split G (Z.to_nat r0) (Z.to_nat c0)
                (Z.to_nat (r0 + h - 1)) (Z.to_nat (c0 + w - 1))
                ltac:(lia) ltac:(lia)) as Hs.
  replace (Z.to_nat (r0 + h - 1 + 1)) with (S (Z.to_nat (r0 + h - 1))) by lia.
  replace (Z.to_nat (c0 + w - 1 + 1)) with (S (Z.to_nat (c0 + w - 1))) by lia.
  replace (Z.to_nat (r0 - 1 + 1)) with (Z.to_nat r0) by lia.
  replace (Z.to_nat (c0 - 1 + 1)) with (Z.to_nat c0) by lia.
  replace (Z.to_nat (r0 + h - 1) - Z.to_nat r0)%nat
    with (Z.to_nat (h - 1)) in Hs by lia.
  replace (Z.to_nat (c0 + w - 1) - Z.to_nat c0)%nat
    with (Z.to_nat (w - 1)) in Hs by lia.
  lia.
Qed.

(** A region the query reports as free holds no ink. *)
Lemma free_region_blank (I G : matrix) (H W : nat) (r0 c0 h w : Z) :
  shape_ok I H W -> integral_exact I G H W -> pixels_8bit G ->
  0 <= r0 <= Z.of_nat (length I) - h ->
  0 <= c0 <= Z.of_nat (width I) - w ->
  queryRegionSum I r0 c0 h w = 0 ->
  forall r c, r0 <= Z.of_nat r < r0 + h -> c0 <= Z.of_nat c < c0 + w ->
    (r < H)%nat /\ (c < W)%nat /\ cell G r c = 0.
Proof.
  intros HI Hex H8 Hr0 Hc0 Hq r c Hr Hc.
  assert (HH : (0 < H)%nat) by (destruct HI as [<- _]; lia).
  rewrite (shape_ok_width I H W HI HH) in Hc0.
  destruct HI as [Hlen _]. rewrite Hlen in Hr0.
  split; [lia|]. split; [lia|].
  rewrite (queryRegionSum_exact I G H W) in Hq by (try exact Hex; lia).
  unfold block_sum in Hq.
  pose proof (sumn_zero_inv _ _
                ltac:(intros; apply sumn_nonneg; intros; apply H8) Hq
                (r - Z.to_nat r0)%nat ltac:(lia)) as Hrow.
  cbv beta in Hrow.
  pose proof (sumn_zero_inv _ _ ltac:(intros; apply H8) Hrow
                (c - Z.to_nat c0)%nat ltac:(lia)) as Hcell.
  cbv beta in Hcell.
  replace (Z.to_nat r0 + (r - Z.to_nat r0))%nat with r in Hcell by lia.
  replace (Z.to_nat c0 + (c - Z.to_nat c0))%nat with c in Hcell by lia.
  exact Hcell.
Qed.

Lemma integral_exact_mod (I G : matrix) (H W : nat) :
  integral_exact I G H W -> pixels_8bit G ->
  255 * Z.of_nat H * Z.of_nat W < 2 ^ 32 ->
  integral_mod I G H W.
Proof.
  intros Hex H8 Hsmall r c Hr Hc. rewrite Hex by assumption.
  symmetry. apply wrap32_small.
  pose proof (psum_8bit_bounds G (S r) (S c) H8).
  assert (Z.of_nat (S r) * Z.of_nat (S c) <= Z.of_nat H * Z.of_nat W) by nia.
  lia.
Qed.

Lemma cell_outside (G : matrix) (H W r c : nat) :
  shape_ok G H W -> (H <= r)%nat \/ (W <= c)%nat -> cell G r c = 0.
Proof.
  intros HG Hout. destruct (Nat.lt_ge_cases r H) as [Hr|Hr].
  - unfold cell. apply nth_overflow.
    rewrite (shape_ok_row G H W r HG Hr). lia.
  - apply cell_overflow_row. destruct HG as [-> _]. exact Hr.
Qed.

(** ** Ink and regions of the placements *)

Lemma under_mask_in_rect (mask : matrix) (row col margin bw bh : Z) (r c : nat) :
  0 <= margin ->
  Z.of_nat (length mask) <= bh -> Z.of_nat (width mask) <= bw ->
  under_mask mask col row r c = true ->
  in_rect {| r_top := row - margin / 2; r_left := col - margin / 2;
             r_height := bh + margin; r_width := bw + margin |} r c = true.
Proof.
  intros Hm Hh Hw Hu. unfold under_mask in Hu. unfold in_rect.
  cbn [r_top r_left r_height r_width].
  pose proof (Z.div_pos margin 2 Hm ltac:(lia)).
  assert (margin / 2 <= margin) by (apply Z.div_le_upper_bound; lia).
  rewrite !andb_true_iff in *. lia.
Qed.

Lemma inked_in_query_region (env : Env) (font_path : string) (margin : Z)
      (p : placement) (r c : nat) :
  0 <= margin -> masks_fit env font_path ->
  inked env font_path p r c = true ->
  in_query_region env font_path margin p r c = true.
Proof.
  intros Hm Hfit. unfold inked, in_query_region, queried_rect.
  destruct (truetype env font_path (p_font_size p)) as [font|] eqn:Hfont;
    [|discriminate].
  intros Hink. apply andb_true_iff in Hink. destruct Hink as [Hu _].
  destruct (Hfit _ _ (p_orientation p) (p_word p) Hfont) as [Hh Hw].
  exact (under_mask_in_rect _ _ _ _ _ _ _ _ Hm Hh Hw Hu).
Qed.

Lemma zip4_snoc (all : list string) (fs : list Z) (ps : list (Z * Z))
      (os : list orientation) (w : string) (f : Z) (p : Z * Z)
      (o : orientation) :
  length ps = length fs -> length os = length fs ->
  nth_error all (length fs) = Some w ->
  zip4 all (fs ++ [f]) (ps ++ [p]) (os ++ [o])
  = zip4 all fs ps os
    ++ [{| p_word := w; p_font_size := f; p_position := p;
           p_orientation := o |}].
Proof.
  revert fs ps os.
  induction all as [|w0 all IH]; intros fs ps os Hp Ho Hw.
  - destruct fs; discriminate.
  - destruct fs as [|f0 fs]; destruct ps as [|p0 ps]; destruct os as [|o0 os];
      try discriminate; simpl in *.
    + injection Hw as ->. now destruct all.
    + f_equal. apply IH; congruence.
Qed.

Lemma length_zip4 (all : list string) (fs : list Z) (ps : list (Z * Z))
      (os : list orientation) :
  length ps = length fs -> length os = length fs ->
  (length fs <= length all)%nat ->
  length (zip4 all fs ps os) = length fs.
Proof.
  revert fs ps os.
  induction all as [|w0 all IH]; intros fs ps os Hp Ho Hl.
  - destruct fs; simpl in *; [reflexivity | lia].
  - destruct fs as [|f0 fs]; destruct ps as [|p0 ps]; destruct os as [|o0 os];
      try discriminate; simpl in *; [reflexivity|].
    f_equal. apply IH; lia.
Qed.

(** ** The layout invariant along a run *)

Lemma layout_inv_initial (env : Env) (font_path : string) (margin : Z)
      (all : list string) (width height : Z) :
  layout_inv env font_path margin (Z.to_nat height) (Z.to_nat width) all
             (initial_state width height).
Proof.
  unfold layout_inv, initial_state, everything.
  cbn [img_grey integral font_sizes positions orientations].
  split; [apply shape_ok_zeros|]. split; [apply shape_ok_zeros|].
  split; [intros r c _ _; now rewrite cell_zeros, psum_zeros|].
  split; [apply pixels_8bit_zeros|].
  split; [reflexivity|]. split; [reflexivity|].
  assert (E : zip4 all [] [] [] = []) by (destruct all; reflexivity).
  rewrite E. split.
  - intros p r c [].
  - intros i j p q _ Hi. destruct i; discriminate.
Qed.

Lemma loop_body_layout_inv (env : Env) (fuel : nat) (font_path : string)
      (margin : Z) (ranks_only : bool) (prefer_horiz : Q) (H W : nat)
      (all : list string) (word : string) (count : npfloat)
      (st : state) (f : flow) :
  0 <= margin -> masks_8bit env -> masks_fit env font_path ->
  255 * Z.of_nat H * Z.of_nat W < 2 ^ 32 ->
  nth_error all (length (font_sizes st)) = Some word ->
  loop_body env fuel font_path margin ranks_only prefer_horiz word count st
  = Ok f ->
  layout_inv env font_path margin H W all st ->
  layout_inv env font_path margin H W all (flow_state f)
  /\ match f with
     | Next st' => length (font_sizes st') = S (length (font_sizes st))
     | Break st' => length (font_sizes st') = length (font_sizes st)
     end.
Proof.
  intros Hm Hmasks Hfit Hsmall Hword Hbody Hinv.
  destruct Hinv as (HG & HI & Hex & H8 & Hlp & Hlo & Hmark & Hsep).
  apply loop_body_inv in Hbody.
  destruct Hbody as (size & a & _ & Hloop & Hf).
  destruct f as [st'|st']; cbn [flow_state].
  2:{ destruct Hf as (_ & ->). split; [|reflexivity].
      unfold layout_inv, everything in *.
      cbn [img_grey integral font_sizes positions orientations].
      repeat (split; [assumption|]). exact Hsep. }
  destruct Hf as (Hnz & r0 & c0 & Hres & Himg & Hup & _ & Hfss & Hpos & Hor & _).
  destruct (loop_body_position _ _ _ _ _ _ _ _ _ _ r0 c0 Hloop Hres)
    as (Hr0 & Hc0 & Hq).
  apply shrink_loop_exit in Hloop.
  destruct Hloop as (_ & _ & _ & Hfont & Hbox & _ & _).
  pose proof (Z.div_pos margin 2 Hm ltac:(lia)) as Hhalf.
  set (x := r0 + margin / 2) in *. set (y := c0 + margin / 2) in *.
  set (mask := getmask env (a_font a) (a_orientation a) word) in *.
  set (pnew := {| p_word := word; p_font_size := a_font_size a;
                  p_position := (x, y);
                  p_orientation := a_orientation a |}).
  destruct (Hfit _ _ (a_orientation a) word Hfont) as [Hmh Hmw].
  fold mask in Hmh, Hmw. rewrite <- Hbox in Hmh, Hmw.
  (* the queried region is blank in the image before the drawing *)
  assert (Hblank : forall r c,
             in_rect {| r_top := r0; r_left := c0;
                        r_height := snd (a_box_size a) + margin;
                        r_width := fst (a_box_size a) + margin |} r c = true ->
             (r < H)%nat /\ (c < W)%nat /\ cell (img_grey st) r c = 0).
  { intros r c Hin. unfold in_rect in Hin.
    cbn [r_top r_left r_height r_width] in Hin.
    rewrite !andb_true_iff in Hin.
    apply (free_region_blank (integral st) (img_grey st) H W r0 c0
             (snd (a_box_size a) + margin) (fst (a_box_size a) + margin));
      try assumption; lia. }
  assert (Hunder : forall r c,
             under_mask mask y x r c = true ->
             (r < H)%nat /\ (c < W)%nat /\ cell (img_grey st) r c = 0).
  { intros r c Hu. apply Hblank.
    pose proof (under_mask_in_rect mask x y margin _ _ r c Hm Hmh Hmw Hu) as Hr.
    replace (x - margin / 2) with r0 in Hr by (unfold x; lia).
    replace (y - margin / 2) with c0 in Hr by (unfold y; lia).
    exact Hr. }
  assert (Hqnew : queried_rect env font_path margin pnew
                  = Some {| r_top := r0; r_left := c0;
                            r_height := snd (a_box_size a) + margin;
                            r_width := fst (a_box_size a) + margin |}).
  { unfold queried_rect, pnew.
    cbn [p_font_size p_orientation p_word p_position fst snd].
    rewrite Hfont, <- Hbox. do 2 f_equal; unfold x, y; lia. }
  assert (Hlayout : everything all st' = everything all st ++ [pnew]).
  { unfold everything. rewrite Hfss, Hpos, Hor. now apply zip4_snoc. }
  assert (HG' : shape_ok (img_grey st') H W)
    by (rewrite Himg; now apply draw_text_shape).
  assert (H8' : pixels_8bit (img_grey st')).
  { rewrite Himg. apply (draw_text_8bit _ _ H W); [exact HG | exact H8|].
    apply Hmasks. }
  destruct (update_integral_mod (integral st) (img_grey st) (img_grey st')
              (integral st') H W x y) as [HI' Hmod']; try assumption;
    try (unfold x, y; lia).
  { now apply integral_exact_mod. }
  { intros r' c' Hout. rewrite Himg.
    apply (draw_text_outside _ _ H W); [exact HG | lia]. }
  split; [|rewrite Hfss, length_app; simpl; lia].
  unfold layout_inv.
  split; [exact HG'|]. split; [exact HI'|].
  split; [now apply integral_mod_exact|]. split; [exact H8'|].
  split; [rewrite Hpos, Hfss, !length_app; simpl; lia|].
  split; [rewrite Hor, Hfss, !length_app; simpl; lia|].
  rewrite Hlayout. split.
  - (* ink is marked in the image *)
    intros p r c Hin Hink. apply in_app_or in Hin.
    destruct Hin as [Hold | [<- | []]].
    + pose proof (Hmark p r c Hold Hink) as Hnz0.
      assert (Hrc : (r < H)%nat /\ (c < W)%nat).
      { destruct (Nat.lt_ge_cases r H); [|exfalso; apply Hnz0;
          apply (cell_outside _ H W); [exact HG | now left]].
        destruct (Nat.lt_ge_cases c W); [auto|exfalso; apply Hnz0;
          apply (cell_outside _ H W); [exact HG | now right]]. }
      rewrite Himg, (draw_text_cell _ _ H W) by (try exact HG; tauto).
      fold mask. destruct (under_mask mask y x r c) eqn:Hu; [|exact Hnz0].
      exfalso. apply Hnz0. now apply Hunder.
    + unfold inked, pnew in Hink.
      cbn [p_font_size p_orientation p_word p_position fst snd] in Hink.
      rewrite Hfont in Hink. fold mask in Hink.
      apply andb_true_iff in Hink. destruct Hink as [Hu Hcell].
      destruct (Hunder r c Hu) as (Hr & Hc & Hzero).
      rewrite Himg, (draw_text_cell _ _ H W) by assumption.
      fold mask. rewrite Hu.
      apply negb_true_iff, Z.eqb_neq in Hcell.
      pose proof (Hmasks (a_font a) (a_orientation a) word
                         (Z.to_nat (Z.of_nat r - x)) (Z.to_nat (Z.of_nat c - y)))
        as Hrange.
      fold mask in Hrange.
      pose proof (BLEND_spec _ (cell (img_grey st) r c) Hrange (H8 r c)).
      lia.
  - (* the region of a later placement holds no ink of an earlier one *)
    intros i j p q Hij Hi Hj r c Hreg.
    assert (Hlen : (j <= length (everything all st))%nat).
    { apply Nat.lt_succ_r.
      replace (S (length (everything all st)))
        with (length (everything all st ++ [pnew]))
        by (rewrite length_app; simpl; lia).
      apply nth_error_Some. congruence. }
    destruct (Nat.eq_dec j (length (everything all st))) as [Hjl | Hjl].
    + rewrite nth_error_app2 in Hj by lia.
      replace (j - length (everything all st))%nat with 0%nat in Hj by lia.
      injection Hj as <-.
      rewrite nth_error_app1 in Hi by lia.
      unfold in_query_region in Hreg. rewrite Hqnew in Hreg.
      destruct (Hblank r c Hreg) as (_ & _ & Hzero).
      destruct (inked env font_path p r c) eqn:Hink; [|reflexivity].
      exfalso. apply (Hmark p r c); [|exact Hink | exact Hzero].
      eapply nth_error_In; eassumption.
    + rewrite nth_error_app1 in Hi, Hj by lia.
      exact (Hsep i j p q Hij Hi Hj r c Hreg).
Qed.

Lemma place_words_layout_inv (env : Env) (fuel : nat) (font_path : string)
      (margin : Z) (ranks_only : bool) (prefer_horiz : Q) (H W : nat)
      (all : list string) (ws : list (string * npfloat)) (st st' : state) :
  0 <= margin -> masks_8bit env -> masks_fit env font_path ->
  255 * Z.of_nat H * Z.of_nat W < 2 ^ 32 ->
  (forall i w c, nth_error ws i = Some (w, c) ->
                 nth_error all (length (font_sizes st) + i) = Some w) ->
  place_words env fuel font_path margin ranks_only prefer_horiz ws st = Ok st' ->
  layout_inv env font_path margin H W all st ->
  layout_inv env font_path margin H W all st'.
Proof.
  intros Hm Hmasks Hfit Hsmall. revert st.
  induction ws as [|[word count] rest IH]; intros st Hall Hrun Hinv.
  - injection Hrun as <-. exact Hinv.
  - simpl in Hrun.
    assert (Hword : nth_error all (length (font_sizes st)) = Some word).
    { rewrite <- (Nat.add_0_r (length (font_sizes st))).
      apply (Hall 0%nat word count). reflexivity. }
    destruct (loop_body env fuel font_path margin ranks_only prefer_horiz
                        word count st) as [[st1|st1]| |] eqn:Hb;
      try discriminate.
    + destruct (loop_body_layout_inv _ _ _ _ _ _ H W all _ _ _ _
                  Hm Hmasks Hfit Hsmall Hword Hb Hinv) as [Hinv1 Hlen1].
      cbn [flow_state] in Hinv1. apply (IH st1); [|exact Hrun | exact Hinv1].
      intros i w c Hi. rewrite Hlen1.
      replace (S (length (font_sizes st)) + i)%nat
        with (length (font_sizes st) + S i)%nat by lia.
      apply (Hall (S i) w c). exact Hi.
    + injection Hrun as <-.
      exact (proj1 (loop_body_layout_inv _ _ _ _ _ _ H W all _ _ _ _
                      Hm Hmasks Hfit Hsmall Hword Hb Hinv)).
Qed.

Lemma nth_error_combine_fst {A B : Type} (l : list A) (k : list B) (i : nat)
      (a : A) (b : B) :
  nth_error (combine l k) i = Some (a, b) -> nth_error l i = Some a.
Proof.
  revert k i. induction l as [|x l IH]; intros [|y k] i H;
    try (destruct i; discriminate).
  destruct i as [|i]; simpl in *; [congruence | eauto].
Qed.

(** C1 (amended). In every run with a non-negative margin, on a canvas
    small enough for the integral image to be exact, the region queried for
    a placement - its box inflated by the margin, at the origin the query
    returned - holds no pixel inked by an earlier placement, and every
    pixel a placement inks lies in its own region: no pixel is inked by two
    placements. (The margin-inflated rectangles themselves may overlap.) *)
Theorem placed_ink_is_disjoint
        (env : Env) (fuel : nat) (words : list string) (counts : list Q)
        (width height : Z) (font_path : option string) (margin : Z)
        (ranks_only : bool) (prefer_horiz : Q)
        (ws : list string) (st : state) :
  let path := match font_path with None => FONT_PATH | Some p => p end in
  0 <= margin -> masks_8bit env -> masks_fit env path ->
  255 * Z.max 0 height * Z.max 0 width < 2 ^ 32 ->
  make_wordcloud env fuel words counts width height font_path margin
                 ranks_only prefer_horiz = Ok (ws, st) ->
  forall i j p q, (i < j)%nat ->
    nth_error (everything ws st) i = Some p ->
    nth_error (everything ws st) j = Some q ->
    forall r c,
      (in_query_region env path margin q r c = true ->
       inked env path p r c = false)
      /\ (inked env path q r c = true ->
          in_query_region env path margin q r c = true)
      /\ ~ (inked env path p r c = true /\ inked env path q r c = true).
Proof.
  intros path Hm Hmasks Hfit Hsmall Hrun i j p q Hij Hi Hj r c.
  apply make_wordcloud_inv in Hrun. destruct Hrun as (cs & _ & Hrun).
  fold path in Hrun.
  pose proof (place_words_layout_inv env fuel path margin ranks_only
                prefer_horiz (Z.to_nat height) (Z.to_nat width) ws
                (combine ws cs) (initial_state width height) st
                Hm Hmasks Hfit ltac:(lia)) as Hinv.
  specialize (Hinv ltac:(intros i0 w0 c0 H0; simpl;
                         exact (nth_error_combine_fst _ _ _ _ _ H0))
                   Hrun (layout_inv_initial _ _ _ _ _ _)).
  destruct Hinv as (_ & _ & _ & _ & _ & _ & _ & Hsep).
  pose proof (Hsep i j p q Hij Hi Hj r c) as Hfree.
  pose proof (inked_in_query_region env path margin q r c Hm Hfit) as Hown.
  split; [exact Hfree|]. split; [exact Hown|].
  intros [Hp Hq]. rewrite (Hfree (Hown Hq)) in Hp. discriminate.
Qed.

Lemma masks_fit_block_env (rnd : nat -> Q) (font_path : string) :
  masks_fit (block_env rnd) font_path.
Proof.
  intros size font o word Hfont. cbn [block_env truetype] in Hfont.
  destruct (String.eqb font_path FONT_PATH && (0 <=? size)) eqn:E;
    [|discriminate].
  injection Hfont as <-. apply andb_true_iff in E. destruct E as [_ Hs].
  apply Z.leb_le in Hs.
  cbn [block_env getmask textsize].
  set (box := block_textsize size o word).
  assert (Hbox : 0 <= fst box /\ 0 <= snd box).
  { unfold box, block_textsize. destruct o; cbn [fst snd]; nia. }
  destruct (shape_ok_solid (snd box) (fst box)) as [Hlen Hrows].
  split; [rewrite Hlen; lia|].
  unfold width. destruct (solid (snd box) (fst box)) as [|row rest] eqn:Es.
  - simpl. lia.
  - inversion Hrows as [|? ? Hrow _]; subst. cbn [hd]. rewrite Hrow. lia.
Qed.

Lemma placed_ink_is_disjoint_witness :
  let env := block_env (fun _ => 0%Q) in
  exists ws st p q,
    make_wordcloud env 1000 ["a"; "b"]%string [2%Q; 1%Q] 20 9 None 5 true
                   (9 # 10) = Ok (ws, st)
    /\ nth_error (everything ws st) 0 = Some p
    /\ nth_error (everything ws st) 1 = Some q
    /\ forall r c, ~ (inked env FONT_PATH p r c = true
                      /\ inked env FONT_PATH q r c = true).
Proof.
  intros env.
  eassert (Hrun : make_wordcloud env 1000 ["a"; "b"]%string [2%Q; 1%Q] 20 9
                                 None 5 true (9 # 10) = Ok (_, _))
    by (vm_compute; reflexivity).
  eexists _, _, _, _. split; [exact Hrun|].
  split; [reflexivity|]. split; [reflexivity|].
  intros r c.
  apply (placed_ink_is_disjoint env 1000 ["a"; "b"]%string [2%Q; 1%Q] 20 9
           None 5 true (9 # 10) _ _ ltac:(lia)
           (masks_8bit_block_env _) (masks_fit_block_env _ _)
           ltac:(reflexivity) Hrun 0%nat 1%nat _ _ ltac:(lia)
           eq_refl eq_refl r c).
Defined.

(** C1 (as stated) fails: with the default margin 5 two one-letter words
    are placed at (2, 2) and (2, 8) with 4 x 4 boxes; their margin-inflated
    9 x 9 rectangles intersect, taken at the recorded positions or at the
    origins the query returned. *)
Lemma margin_inflated_boxes_overlap :
  let env := block_env (fun _ => 0%Q) in
  exists ws st,
    make_wordcloud env 1000 ["a"; "b"]%string [2%Q; 1%Q] 20 9 None 5 true
                   (9 # 10) = Ok (ws, st)
    /\ map p_position (everything ws st) = [(2, 2); (2, 8)]
    /\ map (placed_rect env FONT_PATH 5) (everything ws st)
       = [Some {| r_top := 2; r_left := 2; r_height := 9; r_width := 9 |};
          Some {| r_top := 2; r_left := 8; r_height := 9; r_width := 9 |}]
    /\ boxes_disjoint (placed_rect env FONT_PATH 5) (everything ws st) = false
    /\ boxes_disjoint (queried_rect env FONT_PATH 5) (everything ws st) = false.
Proof.
  intros env.
  eassert (Hrun : make_wordcloud env 1000 ["a"; "b"]%string [2%Q; 1%Q] 20 9
                                 None 5 true (9 # 10) = Ok (_, _))
    by (vm_compute; reflexivity).
  eexists _, _. split; [exact Hrun|]. repeat split; vm_compute; reflexivity.
Qed.


(** ** Further invariants of the main loop *)

(** An invariant of the loop body holds after the loop. *)
Lemma place_words_invariant (P : state -> Prop) (env : Env) (fuel : nat)
      (font_path : string) (margin : Z) (ranks_only : bool) (prefer_horiz : Q) :
  (forall word count st f,
      P st ->
      loop_body env fuel font_path margin ranks_only prefer_horiz word count st
      = Ok f -> P (flow_state f)) ->
  forall ws st st',
    P st ->
    place_words env fuel font_path margin ranks_only prefer_horiz ws st = Ok st' ->
    P st'.
Proof.
  intros Hstep ws. induction ws as [|[word count] rest IH]; intros st st' HP Hrun.
  - injection Hrun as <-. exact HP.
  - simpl in Hrun.
    destruct (loop_body env fuel font_path margin ranks_only prefer_horiz
                        word count st) as [[st1|st1]| |] eqn:Hb;
      try discriminate.
    + apply (IH st1 st'); [|exact Hrun]. exact (Hstep _ _ _ _ HP Hb).
    + injection Hrun as <-. exact (Hstep _ _ _ _ HP Hb).
Qed.

Lemma shrink_loop_nonneg (env : Env) (font_path : string) (margin : Z)
      (prefer_horiz : Q) (fuel : nat) (word : string) (size : Z)
      (I : matrix) (draws : nat) (a : attempt (Font env)) :
  0 <= size ->
  shrink_loop env font_path margin prefer_horiz fuel word size I draws = Ok a ->
  0 <= a_font_size a.
Proof.
  revert size draws.
  induction fuel as [|fuel IH]; intros size draws Hs H; simpl in H;
    destruct (truetype env font_path size) as [font|]; try discriminate;
    match type of H with
    | (if ?c then _ else _) = _ => destruct c eqn:Hc
    end; try discriminate.
  1,2: injection H as <-; exact Hs.
  apply orb_false_iff in Hc. destruct Hc as [_ Hc]. apply Z.eqb_neq in Hc.
  apply (IH (size - 1) (S draws)); [lia | exact H].
Qed.

Lemma candidate_size_nonneg (env : Env) (ranks_only : bool) (fs : Z)
      (count : npfloat) (size : Z) :
  sizes_nonneg env ranks_only -> 0 <= fs ->
  candidate_size env ranks_only fs count = Ok size -> 0 <= size.
Proof.
  intros Hnn Hfs. unfold candidate_size. destruct ranks_only.
  - intros [= <-]. exact Hfs.
  - destruct Hnn as [Hr | Hlog]; [discriminate|].
    destruct (log_size env count) as [s|] eqn:Hs; [|discriminate].
    intros [= <-]. specialize (Hlog _ _ Hs). lia.
Qed.

(** The carried size stays within 0..1000. *)
Lemma loop_body_font_size_range (env : Env) (fuel : nat) (font_path : string)
      (margin : Z) (ranks_only : bool) (prefer_horiz : Q)
      (word : string) (count : npfloat) (st : state) (f : flow) :
  sizes_nonneg env ranks_only ->
  0 <= font_size st <= 1000 ->
  loop_body env fuel font_path margin ranks_only prefer_horiz word count st
  = Ok f ->
  0 <= font_size (flow_state f) <= 1000.
Proof.
  intros Hnn Hfs Hbody.
  pose proof (loop_body_inv _ _ _ _ _ _ _ _ _ _ Hbody)
    as (size & a & Hsize & Hloop & Hf).
  pose proof (candidate_size_le _ _ _ _ _ Hsize) as Hle.
  pose proof (candidate_size_nonneg _ _ _ _ _ Hnn (proj1 Hfs) Hsize) as Hge.
  pose proof (shrink_loop_nonneg _ _ _ _ _ _ _ _ _ _ Hge Hloop) as Ha.
  apply shrink_loop_exit in Hloop. destruct Hloop as (Hal & _).
  destruct f as [st'|st']; cbn [flow_state].
  - destruct Hf as (_ & r & c & _ & _ & _ & -> & _). lia.
  - destruct Hf as (_ & ->). cbn [font_size]. lia.
Qed.






Lemma loop_body_sizes_bounded (env : Env) (fuel : nat) (font_path : string)
      (margin : Z) (ranks_only : bool) (prefer_horiz : Q)
      (word : string) (count : npfloat) (st : state) (f : flow) :
  font_size st <= 1000
  /\ Forall (fun s => s <> 0 /\ s <= 1000) (font_sizes st) ->
  loop_body env fuel font_path margin ranks_only prefer_horiz word count st
  = Ok f ->
  font_size (flow_state f) <= 1000
  /\ Forall (fun s => s <> 0 /\ s <= 1000) (font_sizes (flow_state f)).
Proof.
  intros [Hfs Hall] Hbody.
  pose proof (loop_body_inv _ _ _ _ _ _ _ _ _ _ Hbody)
    as (size & a & Hsize & Hloop & Hf).
  pose proof (candidate_size_le _ _ _ _ _ Hsize) as Hle.
  apply shrink_loop_exit in Hloop. destruct Hloop as (Hal & _).
  destruct f as [st'|st']; cbn [flow_state].
  - destruct Hf as (Hnz & r & c & _ & _ & _ & -> & -> & _).
    split; [lia|]. apply Forall_app. split; [exact Hall|].
    constructor; [split; [exact Hnz | lia] | constructor].
  - destruct Hf as (_ & ->). cbn [font_size font_sizes]. split; [lia | exact Hall].
Qed.

(** X2. Every font size a run records is non-zero and at most 1000, the
    size the loop starts from; where the starting sizes cannot be negative
    (always with [ranks_only]) it lies between 1 and 1000. *)
Theorem recorded_sizes_bounded
        (env : Env) (fuel : nat) (words : list string) (counts : list Q)
        (width height : Z) (font_path : option string) (margin : Z)
        (ranks_only : bool) (prefer_horiz : Q)
        (ws : list string) (st : state) :
  make_wordcloud env fuel words counts width height font_path margin
                 ranks_only prefer_horiz = Ok (ws, st) ->
  Forall (fun s => s <> 0 /\ s <= 1000) (font_sizes st)
  /\ (sizes_nonneg env ranks_only ->
      Forall (fun s => 1 <= s <= 1000) (font_sizes st)).
Proof.
  intros Hrun. apply make_wordcloud_inv in Hrun. destruct Hrun as (cs & _ & Hp).
  assert (Hb : font_size st <= 1000
               /\ Forall (fun s => s <> 0 /\ s <= 1000) (font_sizes st)).
  { refine (place_words_invariant
              (fun s => font_size s <= 1000
                        /\ Forall (fun v => v <> 0 /\ v <= 1000) (font_sizes s))
              _ _ _ _ _ _
              (loop_body_sizes_bounded env fuel _ margin ranks_only prefer_horiz)
              _ _ _ _ Hp).
    cbn. split; [lia | constructor]. }
  split; [apply Hb|]. intros Hnn.
  assert (Hr : 0 <= font_size st <= 1000
               /\ Forall (fun s => 0 <= s) (font_sizes st)).
  { refine (place_words_invariant
              (fun s => 0 <= font_size s <= 1000
                        /\ Forall (fun v => 0 <= v) (font_sizes s))
              _ _ _ _ _ _ _ _ _ _ _ Hp);
      [|cbn; split; [lia | constructor]].
    intros word count s f [Hfs Hall] Hbody.
    pose proof (loop_body_font_size_range _ _ _ _ _ _ _ _ _ _ Hnn Hfs Hbody)
      as Hrange.
    split; [exact Hrange|].
    apply loop_body_inv in Hbody. destruct Hbody as (size & a & _ & _ & Hf).
    destruct f as [st'|st']; cbn [flow_state] in *.
    - destruct Hf as (_ & r & c & _ & _ & _ & Hfs' & -> & _).
      apply Forall_app. split; [exact Hall|].
      constructor; [lia | constructor].
    - destruct Hf as (_ & ->). exact Hall. }
  destruct Hb as [_ Hb]. destruct Hr as [_ Hr].
  rewrite Forall_forall in *. intros s Hs.
  specialize (Hb s Hs). specialize (Hr s Hs). lia.
Qed.

Lemma recorded_sizes_bounded_witness :
  let env := block_env (fun _ => 0%Q) in
  exists ws st,
    make_wordcloud env 1000 ["aaa"; "b"; "cc"]%string [9%Q; 2%Q; 5%Q] 40 14
                   None 5 false (9 # 10) = Ok (ws, st)
    /\ font_sizes st = [9; 3; 3]
    /\ Forall (fun s => s <> 0 /\ s <= 1000) (font_sizes st).
Proof.
  intros env.
  eassert (H : make_wordcloud env 1000 ["aaa"; "b"; "cc"]%string
                              [9%Q; 2%Q; 5%Q] 40 14 None 5 false (9 # 10)
               = Ok (_, _)) by (vm_compute; reflexivity).
  eexists _, _. split; [exact H|]. split; [reflexivity|].
  exact (proj1 (recorded_sizes_bounded _ _ _ _ _ _ _ _ _ _ _ _ H)).
Defined.

(** *** The layout handed to the colour pass *)

Lemma loop_body_fonts_load (env : Env) (fuel : nat) (font_path : string)
      (margin : Z) (ranks_only : bool) (prefer_horiz : Q)
      (word : string) (count : npfloat) (st : state) (f : flow) :
  Forall (fun s => truetype env font_path s <> None) (font_sizes st) ->
  loop_body env fuel font_path margin ranks_only prefer_horiz word count st
  = Ok f ->
  Forall (fun s => truetype env font_path s <> None)
         (font_sizes (flow_state f)).
Proof.
  intros Hall Hbody. apply loop_body_inv in Hbody.
  destruct Hbody as (size & a & _ & Hloop & Hf).
  apply shrink_loop_exit in Hloop.
  destruct Hloop as (_ & _ & _ & Hfont & _).
  destruct f as [st'|st']; cbn [flow_state].
  - destruct Hf as (_ & r & c & _ & _ & _ & _ & -> & _).
    apply Forall_app. split; [exact Hall|].
    constructor; [congruence | constructor].
  - destruct Hf as (_ & ->). exact Hall.
Qed.

Lemma loop_body_lists_aligned (env : Env) (fuel : nat) (font_path : string)
      (margin : Z) (ranks_only : bool) (prefer_horiz : Q)
      (word : string) (count : npfloat) (st : state) (f : flow) :
  lists_aligned st ->
  loop_body env fuel font_path margin ranks_only prefer_horiz word count st
  = Ok f ->
  lists_aligned (flow_state f).
Proof.
  intros [Hp Ho] Hbody. apply loop_body_inv in Hbody.
  destruct Hbody as (size & a & _ & _ & Hf).
  destruct f as [st'|st']; cbn [flow_state]; unfold lists_aligned.
  - destruct Hf as (_ & r & c & _ & _ & _ & _ & -> & -> & -> & _).
    rewrite !length_app. simpl. lia.
  - destruct Hf as (_ & ->). cbn [positions orientations font_sizes]. auto.
Qed.

Lemma place_words_count (env : Env) (fuel : nat) (font_path : string)
      (margin : Z) (ranks_only : bool) (prefer_horiz : Q)
      (ws : list (string * npfloat)) (st st' : state) :
  place_words env fuel font_path margin ranks_only prefer_horiz ws st = Ok st' ->
  (length (font_sizes st') <= length (font_sizes st) + length ws)%nat.
Proof.
  revert st. induction ws as [|[word count] rest IH]; intros st Hrun.
  - injection Hrun as <-. lia.
  - simpl in Hrun.
    destruct (loop_body env fuel font_path margin ranks_only prefer_horiz
                        word count st) as [[st1|st1]| |] eqn:Hb;
      try discriminate;
      apply loop_body_inv in Hb; destruct Hb as (size & a & _ & _ & Hf).
    + destruct Hf as (_ & r & c & _ & _ & _ & _ & Hfss & _).
      apply IH in Hrun. rewrite Hfss, length_app in Hrun. simpl in *. lia.
    + destruct Hf as (_ & ->). injection Hrun as <-. simpl. lia.
Qed.

Lemma zip4_projections (all : list string) (fs : list Z) (ps : list (Z * Z))
      (os : list orientation) :
  length ps = length fs -> length os = length fs ->
  (length fs <= length all)%nat ->
  map p_word (zip4 all fs ps os) = firstn (length fs) all
  /\ map p_font_size (zip4 all fs ps os) = fs
  /\ map p_position (zip4 all fs ps os) = ps
  /\ map p_orientation (zip4 all fs ps os) = os.
Proof.
  revert fs ps os.
  induction all as [|w all IH]; intros fs ps os Hp Ho Hl.
  - destruct fs; simpl in Hl; [|lia].
    destruct ps; [|discriminate]. destruct os; [|discriminate].
    repeat split.
  - destruct fs as [|f fs]; destruct ps as [|p ps]; destruct os as [|o os];
      try discriminate; [repeat split|].
    simpl in *.
    destruct (IH fs ps os ltac:(lia) ltac:(lia) ltac:(lia))
      as (Hw & Hf & Hpp & Hoo).
    rewrite Hw, Hf, Hpp, Hoo. repeat split.
Qed.

(** X3. The layout a run hands to the colour pass loses nothing and skips
    no word: it has one placement per recorded size, position and
    orientation, in order, and its words are the first words of the sorted
    word list. *)
Theorem layout_is_prefix_of_sorted_words
        (env : Env) (fuel : nat) (words : list string) (counts : list Q)
        (width height : Z) (font_path : option string) (margin : Z)
        (ranks_only : bool) (prefer_horiz : Q)
        (ws : list string) (st : state) :
  make_wordcloud env fuel words counts width height font_path margin
                 ranks_only prefer_horiz = Ok (ws, st) ->
  (length (font_sizes st) <= length ws)%nat
  /\ map p_word (everything ws st) = firstn (length (font_sizes st)) ws
  /\ map p_font_size (everything ws st) = font_sizes st
  /\ map p_position (everything ws st) = positions st
  /\ map p_orientation (everything ws st) = orientations st.
Proof.
  intros Hrun. apply make_wordcloud_inv in Hrun. destruct Hrun as (cs & _ & Hp).
  assert (Hal : lists_aligned st).
  { refine (place_words_invariant lists_aligned _ _ _ _ _ _
              (loop_body_lists_aligned env fuel _ margin ranks_only prefer_horiz)
              _ _ _ _ Hp).
    split; reflexivity. }
  pose proof (place_words_count _ _ _ _ _ _ _ _ _ Hp) as Hcount.
  cbn [initial_state font_sizes length] in Hcount.
  rewrite length_combine in Hcount.
  destruct Hal as [Hlp Hlo].
  assert (Hlen : (length (font_sizes st) <= length ws)%nat) by lia.
  split; [exact Hlen|]. unfold everything.
  now apply zip4_projections.
Qed.

Lemma layout_is_prefix_of_sorted_words_witness :
  let env := block_env (fun _ => 0%Q) in
  exists ws st,
    make_wordcloud env 1000 ["aaa"; "b"; "cccccc"]%string [9%Q; 2%Q; 5%Q]
                   40 14 None 5 false (9 # 10) = Ok (ws, st)
    /\ ws = ["aaa"; "cccccc"; "b"]%string
    /\ map p_word (everything ws st) = firstn (length (font_sizes st)) ws.
Proof.
  intros env.
  eassert (H : make_wordcloud env 1000 ["aaa"; "b"; "cccccc"]%string
                              [9%Q; 2%Q; 5%Q] 40 14 None 5 false (9 # 10)
               = Ok (_, _)) by (vm_compute; reflexivity).
  eexists _, _. split; [exact H|]. split; [reflexivity|].
  exact (proj1 (proj2 (layout_is_prefix_of_sorted_words
                         _ _ _ _ _ _ _ _ _ _ _ _ H))).
Defined.

(** X4. Every font size in the layout is one at which the font was loaded
    in the grey pass, so the [ImageFont.truetype] calls of the colour pass
    (line 155) find their font. *)
Theorem colour_pass_fonts_load
        (env : Env) (fuel : nat) (words : list string) (counts : list Q)
        (width height : Z) (font_path : option string) (margin : Z)
        (ranks_only : bool) (prefer_horiz : Q)
        (ws : list string) (st : state) :
  make_wordcloud env fuel words counts width height font_path margin
                 ranks_only prefer_horiz = Ok (ws, st) ->
  Forall (fun p =>
            truetype env (match font_path with
                          | None => FONT_PATH
                          | Some path => path
                          end) (p_font_size p) <> None)
         (everything ws st).
Proof.
  intros Hrun.
  apply make_wordcloud_inv in Hrun. destruct Hrun as (cs & _ & Hp).
  assert (Hall : Forall (fun s => truetype env
                                    (match font_path with
                                     | None => FONT_PATH
                                     | Some path => path
                                     end) s <> None) (font_sizes st)).
  { refine (place_words_invariant
              (fun s => Forall (fun v => truetype env _ v <> None) (font_sizes s))
              _ _ _ _ _ _
              (loop_body_fonts_load env fuel _ margin ranks_only prefer_horiz)
              _ _ _ _ Hp).
    constructor. }
  destruct (zip4_font_sizes ws (font_sizes st) (positions st) (orientations st))
    as [n Hn].
  apply Forall_forall. intros p Hin.
  rewrite Forall_forall in Hall. apply Hall.
  assert (Hin' : In (p_font_size p) (map p_font_size (everything ws st)))
    by now apply in_map.
  unfold everything in Hin'. rewrite Hn in Hin'.
  rewrite <- (firstn_skipn n (font_sizes st)). apply in_or_app. now left.
Qed.

Lemma colour_pass_fonts_load_witness :
  let env := block_env (fun _ => 0%Q) in
  exists ws st,
    make_wordcloud env 1000 ["a"; "b"]%string [2%Q; 1%Q] 20 9 None 5 true
                   (9 # 10) = Ok (ws, st)
    /\ length (everything ws st) = 2%nat
    /\ Forall (fun p => truetype env FONT_PATH (p_font_size p) <> None)
              (everything ws st).
Proof.
  intros env.
  eassert (H : make_wordcloud env 1000 ["a"; "b"]%string [2%Q; 1%Q] 20 9
                              None 5 true (9 # 10) = Ok (_, _))
    by (vm_compute; reflexivity).
  eexists _, _. split; [exact H|]. split; [reflexivity|].
  exact (colour_pass_fonts_load _ _ _ _ _ _ None _ _ _ _ _ H).
Defined.

(** *** Rank-only sizing *)

Lemma loop_body_ranks_only (env : Env) (fuel : nat) (font_path : string)
      (margin : Z) (prefer_horiz : Q) (word : string) (c1 c2 : npfloat)
      (st : state) :
  loop_body env fuel font_path margin true prefer_horiz word c1 st
  = loop_body env fuel font_path margin true prefer_horiz word c2 st.
Proof. reflexivity. Qed.

(** X5. With [ranks_only] the counts themselves are never looked at by the
    main loop: two runs over the same words in the same order, with any two
    count arrays of the same length, have the same outcome. *)
Theorem ranks_only_ignores_counts
        (env : Env) (fuel : nat) (font_path : string) (margin : Z)
        (prefer_horiz : Q) (ws : list string) (cs1 cs2 : list npfloat)
        (st : state) :
  length cs1 = length cs2 ->
  place_words env fuel font_path margin true prefer_horiz (combine ws cs1) st
  = place_words env fuel font_path margin true prefer_horiz (combine ws cs2) st.
Proof.
  revert cs1 cs2 st.
  induction ws as [|w ws IH]; intros cs1 cs2 st Hlen; [reflexivity|].
  destruct cs1 as [|c1 cs1]; destruct cs2 as [|c2 cs2]; try discriminate;
    [reflexivity|].
  cbn [combine place_words].
  rewrite (loop_body_ranks_only env fuel font_path margin prefer_horiz w c1 c2).
  destruct (loop_body env fuel font_path margin true prefer_horiz w c2 st)
    as [[st1|st1]| |]; try reflexivity.
  apply IH. simpl in Hlen. congruence.
Qed.

Lemma ranks_only_ignores_counts_witness :
  let env := block_env (fun _ => 0%Q) in
  length [Finite 1; Finite (1 # 2)] = length [Finite 1; Finite (1 # 100)]
  /\ place_words env 1000 FONT_PATH 5 true (9 # 10)
                 (combine ["a"; "b"]%string [Finite 1; Finite (1 # 2)])
                 (initial_state 20 9)
     = place_words env 1000 FONT_PATH 5 true (9 # 10)
                   (combine ["a"; "b"]%string [Finite 1; Finite (1 # 100)])
                   (initial_state 20 9).
Proof.
  intros env. split; [reflexivity|].
  apply ranks_only_ignores_counts. reflexivity.
Defined.

(** *** Random draws *)

Lemma loop_body_draws_ranks_only (env : Env) (fuel : nat) (font_path : string)
      (margin : Z) (prefer_horiz : Q) (word : string) (count : npfloat)
      (st : state) (f : flow) :
  loop_body env fuel font_path margin true prefer_horiz word count st = Ok f ->
  Z.of_nat (draws (flow_state f))
  = Z.of_nat (draws st) + (font_size st - font_size (flow_state f)) + 1
  /\ match f with
     | Next st' => font_size st' <> 0
                   /\ length (font_sizes st') = S (length (font_sizes st))
     | Break st' => font_size st' = 0
                    /\ length (font_sizes st') = length (font_sizes st)
     end.
Proof.
  intros Hbody. apply loop_body_inv in Hbody.
  destruct Hbody as (size & a & Hsize & Hloop & Hf).
  cbn [candidate_size] in Hsize. injection Hsize as <-.
  apply shrink_loop_exit in Hloop. destruct Hloop as (Hle & Hd & _).
  destruct f as [st'|st']; cbn [flow_state].
  - destruct Hf as (Hnz & r & c & _ & _ & _ & Hfs & Hfss & _ & _ & Hdr).
    rewrite Hdr, Hfs, Hd, Hfss, length_app. simpl. split; [lia|].
    split; [exact Hnz | lia].
  - destruct Hf as (Hz & ->). cbn [draws font_size font_sizes].
    rewrite Hd, Hz. split; [lia | auto].
Qed.

Lemma place_words_draws_ranks_only (env : Env) (fuel : nat)
      (font_path : string) (margin : Z) (prefer_horiz : Q)
      (ws : list (string * npfloat)) (st st' : state) :
  font_size st <> 0 ->
  place_words env fuel font_path margin true prefer_horiz ws st = Ok st' ->
  Z.of_nat (draws st') - Z.of_nat (length (font_sizes st'))
  + font_size st' - (if font_size st' =? 0 then 1 else 0)
  = Z.of_nat (draws st) - Z.of_nat (length (font_sizes st)) + font_size st.
Proof.
  revert st. induction ws as [|[word count] rest IH]; intros st Hnz Hrun.
  - injection Hrun as <-. destruct (Z.eqb_spec (font_size st) 0); lia.
  - simpl in Hrun.
    destruct (loop_body env fuel font_path margin true prefer_horiz
                        word count st) as [[st1|st1]| |] eqn:Hb;
      try discriminate;
      apply loop_body_draws_ranks_only in Hb; cbn [flow_state] in Hb;
      destruct Hb as (Hd & Hnz1 & Hlen).
    + rewrite (IH st1 Hnz1 Hrun). lia.
    + injection Hrun as <-. rewrite Hnz1 in *. cbn [Z.eqb]. lia.
Qed.

(** X6. With [ranks_only] a run draws one random number per font size it
    tries: the sizes stepped down from 1000 to the final size, one more per
    placed word and one more if the run stopped at size 0. *)
Theorem draws_count_ranks_only
        (env : Env) (fuel : nat) (words : list string) (counts : list Q)
        (width height : Z) (font_path : option string) (margin : Z)
        (prefer_horiz : Q) (ws : list string) (st : state) :
  make_wordcloud env fuel words counts width height font_path margin
                 true prefer_horiz = Ok (ws, st) ->
  Z.of_nat (draws st)
  = (1000 - font_size st) + Z.of_nat (length (font_sizes st))
    + (if font_size st =? 0 then 1 else 0).
Proof.
  intros Hrun. apply make_wordcloud_inv in Hrun. destruct Hrun as (cs & _ & Hp).
  apply place_words_draws_ranks_only in Hp;
    [|cbn [initial_state font_size]; lia].
  cbn [initial_state draws font_sizes font_size length] in Hp. lia.
Qed.

Lemma draws_count_ranks_only_witness :
  let env := block_env (fun _ => 0%Q) in
  exists ws st,
    make_wordcloud env 1000 ["a"; "b"]%string [2%Q; 1%Q] 20 9 None 5 true
                   (9 # 10) = Ok (ws, st)
    /\ font_size st = 4 /\ draws st = 998%nat
    /\ Z.of_nat (draws st)
       = (1000 - font_size st) + Z.of_nat (length (font_sizes st))
         + (if font_size st =? 0 then 1 else 0).
Proof.
  intros env.
  eassert (H : make_wordcloud env 1000 ["a"; "b"]%string [2%Q; 1%Q] 20 9
                              None 5 true (9 # 10) = Ok (_, _))
    by (vm_compute; reflexivity).
  eexists _, _. split; [exact H|]. split; [reflexivity|].
  split; [reflexivity|].
  exact (draws_count_ranks_only _ _ _ _ _ _ _ _ _ _ _ H).
Defined.

(** *** The grey image only brightens *)

Lemma BLEND_brightens_table :
  forallb (fun mask =>
             forallb (fun out => out <=? BLEND mask out 255) (zrange 256))
          (zrange 256) = true.
Proof. vm_compute. reflexivity. Qed.

Lemma BLEND_brightens (mask out : Z) :
  0 <= mask <= 255 -> 0 <= out <= 255 -> out <= BLEND mask out 255.
Proof.
  intros Hm Ho. pose proof BLEND_brightens_table as T.
  rewrite forallb_forall in T.
  specialize (T mask ltac:(apply In_zrange; lia)).
  rewrite forallb_forall in T.
  specialize (T out ltac:(apply In_zrange; lia)). lia.
Qed.

Lemma draw_text_brightens (G mask : matrix) (H W : nat) (xy : Z * Z)
      (r c : nat) :
  shape_ok G H W -> pixels_8bit G -> pixels_8bit mask ->
  cell G r c <= cell (draw_text G xy mask) r c.
Proof.
  intros HG H8 Hm8. destruct xy as [x0 y0].
  destruct (Nat.lt_ge_cases r H) as [Hr|Hr].
  - destruct (Nat.lt_ge_cases c W) as [Hc|Hc].
    + rewrite (draw_text_cell G mask H W) by assumption.
      destruct (under_mask mask x0 y0 r c); [|lia].
      apply BLEND_brightens; [apply Hm8 | apply H8].
    + rewrite (cell_outside G H W) by (try exact HG; now right).
      apply (draw_text_8bit G mask H W (x0, y0) HG H8 Hm8).
  - rewrite (cell_outside G H W) by (try exact HG; now left).
    apply (draw_text_8bit G mask H W (x0, y0) HG H8 Hm8).
Qed.

(** X7. Ink is never erased or dimmed: along a run, with 8-bit bitmaps, the
    grey image keeps its shape and its 8-bit range and no pixel ever gets
    darker than it was. *)
Theorem grey_image_only_brightens
        (env : Env) (fuel : nat) (font_path : string) (margin : Z)
        (ranks_only : bool) (prefer_horiz : Q)
        (ws : list (string * npfloat)) (st st' : state) (H W : nat) :
  masks_8bit env ->
  shape_ok (img_grey st) H W -> pixels_8bit (img_grey st) ->
  place_words env fuel font_path margin ranks_only prefer_horiz ws st = Ok st' ->
  shape_ok (img_grey st') H W
  /\ pixels_8bit (img_grey st')
  /\ forall r c, cell (img_grey st) r c <= cell (img_grey st') r c.
Proof.
  intros Hmasks HG H8 Hrun.
  refine (place_words_invariant
            (fun s => shape_ok (img_grey s) H W /\ pixels_8bit (img_grey s)
                      /\ forall r c, cell (img_grey st) r c
                                     <= cell (img_grey s) r c)
            _ _ _ _ _ _ _ _ _ _ _ Hrun);
    [|split; [exact HG | split; [exact H8 | intros; lia]]].
  intros word count s f (HGs & H8s & Hmono) Hbody.
  pose proof (loop_body_8bit _ _ _ _ _ _ _ _ _ _ H W Hmasks Hbody HGs H8s)
    as H8f.
  apply loop_body_inv in Hbody. destruct Hbody as (size & a & _ & _ & Hf).
  destruct f as [s'|s']; cbn [flow_state] in *.
  - destruct Hf as (_ & r0 & c0 & _ & Himg & _).
    split; [rewrite Himg; now apply draw_text_shape|].
    split; [exact H8f|]. intros r c. rewrite Himg.
    pose proof (draw_text_brightens (img_grey s)
                  (getmask env (a_font a) (a_orientation a) word) H W
                  (c0 + margin / 2, r0 + margin / 2) r c HGs H8s
                  (Hmasks _ _ _)).
    specialize (Hmono r c). lia.
  - destruct Hf as (_ & ->). cbn [img_grey]. auto.
Qed.

Lemma grey_image_only_brightens_witness :
  let env := block_env (fun _ => 0%Q) in
  exists st',
    masks_8bit env
    /\ shape_ok (img_grey (initial_state 20 9)) (Z.to_nat 9) (Z.to_nat 20)
    /\ place_words env 1000 FONT_PATH 5 true (9 # 10)
                   [("a"%string, Finite 1); ("b"%string, Finite 1)]
                   (initial_state 20 9) = Ok st'
    /\ cell (img_grey st') 2 2 = 255
    /\ forall r c, cell (img_grey (initial_state 20 9)) r c
                   <= cell (img_grey st') r c.
Proof.
  intros env.
  eassert (Hrun : place_words env 1000 FONT_PATH 5 true (9 # 10)
                    [("a"%string, Finite 1); ("b"%string, Finite 1)]
                    (initial_state 20 9) = Ok _) by (vm_compute; reflexivity).
  eexists. split; [apply masks_8bit_block_env|].
  split; [apply (shape_ok_zeros 9 20)|]. split; [exact Hrun|].
  split; [reflexivity|].
  exact (proj2 (proj2 (grey_image_only_brightens
                         env 1000 FONT_PATH 5 true (9 # 10) _
                         (initial_state 20 9) _ (Z.to_nat 9) (Z.to_nat 20)
                         (masks_8bit_block_env _) (shape_ok_zeros 9 20)
                         (pixels_8bit_zeros 9 20) Hrun))).
Defined.

(** ** The integral update as an operation *)

Lemma row_at_lt (m : matrix) (i : Z) :
  (Z.to_nat i < length m)%nat -> row_at m i = Ok (nth (Z.to_nat i) m []).
Proof.
  intros Hi. unfold row_at. now rewrite (nth_error_nth' m [] Hi).
Qed.

Lemma item_at_lt (row : list Z) (j : Z) :
  (Z.to_nat j < length row)%nat -> item_at row j = Ok (nth (Z.to_nat j) row 0).
Proof.
  intros Hj. unfold item_at. now rewrite (nth_error_nth' row 0 Hj).
Qed.

Lemma update_integral_Ok (I G : matrix) (H W : nat) (x y : Z) :
  shape_ok I H W -> (0 < H)%nat ->
  0 <= x <= Z.of_nat H -> 0 <= y <= Z.of_nat W ->
  exists I', update_integral I G x y = Ok I'.
Proof.
  intros HI HH Hx Hy. unfold update_integral.
  pose proof (shape_ok_width I H W HI HH) as Hw.
  destruct (Z.gtb_spec x 0) as [Hx0|Hx0].
  - rewrite row_at_lt by (destruct HI as [-> _]; lia). cbn [bind].
    assert (Hrow : length (nth (Z.to_nat (x - 1)) I []) = W)
      by (apply (shape_ok_row I H W _ HI); lia).
    destruct (Z.gtb_spec y 0) as [Hy0|Hy0].
    + rewrite item_at_lt by (rewrite Hrow; lia). cbn [bind].
      unfold column_at. rewrite Hw.
      destruct (Z.ltb_spec (y - 1) (Z.of_nat W)); [|lia].
      cbn [bind]. eexists. reflexivity.
    + cbn [bind]. eexists. reflexivity.
  - cbn [bind]. destruct (Z.gtb_spec y 0) as [Hy0|Hy0].
    + unfold column_at. rewrite Hw.
      destruct (Z.ltb_spec (y - 1) (Z.of_nat W)); [|lia].
      cbn [bind]. eexists. reflexivity.
    + cbn [bind]. eexists. reflexivity.
Qed.

(** X8. On arrays of one shape, with the corner (x, y) inside the canvas or
    on its lower or right edge, the integral update raises nothing, keeps
    the shape of the integral image and writes only the block [x:, y:]:
    every cell above row x or left of column y keeps its value. *)
Theorem update_integral_writes_only_the_block
        (I G : matrix) (H W : nat) (x y : Z) :
  shape_ok I H W -> shape_ok G H W -> (0 < H)%nat ->
  0 <= x <= Z.of_nat H -> 0 <= y <= Z.of_nat W ->
  exists I',
    update_integral I G x y = Ok I'
    /\ shape_ok I' H W
    /\ forall r c, (r < H)%nat -> (c < W)%nat ->
         Z.of_nat r < x \/ Z.of_nat c < y -> cell I' r c = cell I r c.
Proof.
  intros HI HG HH Hx Hy.
  destruct (update_integral_Ok I G H W x y HI HH Hx Hy) as [I' Hup].
  exists I'. split; [exact Hup|].
  destruct (update_integral_cells I G I' H W x y HI HG
              ltac:(lia) ltac:(lia) Hup) as [Hs Hc].
  split; [exact Hs|]. intros r c Hr Hcw Hout. rewrite Hc by assumption.
  destruct (Nat.leb_spec (Z.to_nat x) r); [|reflexivity].
  destruct (Nat.leb_spec (Z.to_nat y) c); [|reflexivity]. lia.
Qed.

Lemma update_integral_writes_only_the_block_witness :
  let I := [[1; 2; 3]; [4; 5; 6]] in
  let G := [[1; 1; 1]; [3; 0; 7]] in
  exists I',
    update_integral I G 1 1 = Ok I'
    /\ I' = [[1; 2; 3]; [4; 5; 13]]
    /\ forall r c, (r < 2)%nat -> (c < 3)%nat ->
         Z.of_nat r < 1 \/ Z.of_nat c < 1 -> cell I' r c = cell I r c.
Proof.
  intros I G.
  destruct (update_integral_writes_only_the_block I G 2 3 1 1)
    as (I' & Hup & _ & Hframe).
  - split; [reflexivity | repeat constructor].
  - split; [reflexivity | repeat constructor].
  - lia.
  - lia.
  - lia.
  - exists I'. split; [exact Hup|]. split; [|exact Hframe].
    vm_compute in Hup. congruence.
Defined.

(** X9. A corner below the canvas, or right of it, makes the update raise
    IndexError (from [integral[x - 1, ...]] or [integral[..., y - 1]]):
    nothing is written. *)
Theorem update_integral_out_of_range
        (I G : matrix) (H W : nat) (x y : Z) :
  shape_ok I H W ->
  Z.of_nat H < x \/ (0 <= x <= Z.of_nat H /\ Z.of_nat W < y) ->
  update_integral I G x y = Raise IndexError.
Proof.
  intros HI Hout. unfold update_integral.
  assert (Hwidth : (width I <= W)%nat).
  { destruct HI as [Hl Hr]. unfold width. destruct I as [|row rest]; [simpl; lia|].
    inversion Hr; subst. simpl. lia. }
  destruct Hout as [Hx | [Hx Hy]].
  - destruct (Z.gtb_spec x 0); [|lia].
    unfold row_at.
    destruct (nth_error I (Z.to_nat (x - 1))) as [row|] eqn:E; [|reflexivity].
    exfalso. assert (Hlt : (Z.to_nat (x - 1) < length I)%nat)
      by (apply nth_error_Some; congruence).
    destruct HI as [Hl _]. lia.
  - destruct (Z.gtb_spec y 0) as [_|]; [|lia].
    destruct (Z.gtb_spec x 0) as [Hx0|Hx0].
    + rewrite row_at_lt by (destruct HI as [-> _]; lia). cbn [bind].
      assert (Hrow : length (nth (Z.to_nat (x - 1)) I []) = W)
        by (apply (shape_ok_row I H W _ HI); lia).
      unfold item_at.
      destruct (nth_error (nth (Z.to_nat (x - 1)) I []) (Z.to_nat (y - 1)))
        as [v|] eqn:E; [|reflexivity].
      exfalso. assert (Hlt : (Z.to_nat (y - 1) < W)%nat)
        by (rewrite <- Hrow; apply nth_error_Some; congruence).
      lia.
    + cbn [bind]. unfold column_at.
      destruct (Z.ltb_spec (y - 1) (Z.of_nat (width I))); [lia | reflexivity].
Qed.

Lemma update_integral_out_of_range_witness :
  shape_ok [[1; 2; 3]; [4; 5; 6]] 2 3
  /\ (Z.of_nat 2 < 3 \/ (0 <= 3 <= Z.of_nat 2 /\ Z.of_nat 3 < 0))
  /\ update_integral [[1; 2; 3]; [4; 5; 6]] [[1; 1; 1]; [3; 0; 7]] 3 0
     = Raise IndexError.
Proof.
  assert (Hs : shape_ok [[1; 2; 3]; [4; 5; 6]] 2 3)
    by (split; [reflexivity | repeat constructor]).
  split; [exact Hs|]. split; [left; simpl; lia|].
  apply (update_integral_out_of_range _ _ 2 3 3 0 Hs). left. simpl. lia.
Defined.

(** *** Incremental update and recomputation from scratch *)

Lemma matrix_ext (A B : matrix) (H W : nat) :
  shape_ok A H W -> shape_ok B H W ->
  (forall r c, (r < H)%nat -> (c < W)%nat -> cell A r c = cell B r c) ->
  A = B.
Proof.
  intros HA HB Hcells.
  apply (nth_ext A B [] []).
  - destruct HA as [-> _], HB as [-> _]. reflexivity.
  - intros r Hr. assert (HrH : (r < H)%nat) by (destruct HA as [<- _]; exact Hr).
    apply (nth_ext _ _ 0 0).
    + rewrite (shape_ok_row A H W r HA HrH), (shape_ok_row B H W r HB HrH).
      reflexivity.
    + intros c Hc. rewrite (shape_ok_row A H W r HA HrH) in Hc.
      exact (Hcells r c HrH Hc).
Qed.

Lemma full_integral_spec (G : matrix) (H W : nat) :
  shape_ok G H W ->
  shape_ok (full_integral G) H W
  /\ forall r c, (r < H)%nat -> (c < W)%nat ->
       cell (full_integral G) r c = wrap32 (psum G (S r) (S c)).
Proof.
  intros HG. unfold full_integral.
  pose proof (shape_ok_cumsum_axis0 _ H W (shape_ok_map_cumsum G H W HG)) as Hs.
  split.
  - destruct Hs as [Hl Hr]. split; [now rewrite length_map|].
    apply Forall_map. eapply Forall_impl; [|exact Hr].
    intros row Hrow. simpl in Hrow. now rewrite length_map.
  - intros r c Hr Hc. unfold cell.
    rewrite (nth_map_lt (map wrap32) _ r []) by (destruct Hs as [-> _]; exact Hr).
    rewrite (nth_map_default wrap32 _ c 0 0) by reflexivity. f_equal.
    change (nth c (nth r (cumsum_axis0 (map cumsum G)) []) 0)
      with (cell (cumsum_axis0 (map cumsum G)) r c).
    rewrite (cell_cumsum_axis0 _ H W)
      by (try apply shape_ok_map_cumsum; assumption).
    unfold psum. apply sumn_ext. intros a Ha.
    apply cell_map_cumsum.
    rewrite (shape_ok_row G H W a HG) by lia. exact Hc.
Qed.

(** X10. The incremental update computes what a recomputation from scratch
    would: if the integral image held the prefix sums (as uint32) of the
    image before the drawing, and the drawing changed nothing above row x
    or left of column y, the updated integral image is the double
    cumulative sum of the whole new image, stored as uint32. *)
Theorem incremental_update_is_full_recomputation
        (I G0 G I' : matrix) (H W : nat) (x y : Z) :
  shape_ok I H W -> shape_ok G H W -> 0 <= x -> 0 <= y ->
  I = full_integral G0 -> shape_ok G0 H W ->
  (forall r c, (r < Z.to_nat x)%nat \/ (c < Z.to_nat y)%nat ->
               cell G r c = cell G0 r c) ->
  update_integral I G x y = Ok I' ->
  I' = full_integral G.
Proof.
  intros HI HG Hx Hy HI0 HG0 Hagree Hup.
  assert (Hmod : integral_mod I G0 H W).
  { intros r c Hr Hc. rewrite HI0.
    now apply (proj2 (full_integral_spec G0 H W HG0)). }
  destruct (update_integral_mod I G0 G I' H W x y HI HG Hx Hy Hmod Hagree Hup)
    as [Hs' Hmod'].
  destruct (full_integral_spec G H W HG) as [Hsf Hcf].
  apply (matrix_ext _ _ H W Hs' Hsf).
  intros r c Hr Hc. rewrite Hmod', Hcf by assumption. reflexivity.
Qed.

Lemma incremental_update_is_full_recomputation_witness :
  let G0 := [[0; 0; 0]; [0; 0; 0]] in
  let G := [[0; 0; 0]; [0; 255; 255]] in
  exists I',
    update_integral (full_integral G0) G 1 1 = Ok I'
    /\ I' = [[0; 0; 0]; [0; 255; 510]]
    /\ I' = full_integral G.
Proof.
  intros G0 G.
  eassert (Hup : update_integral (full_integral G0) G 1 1 = Ok _)
    by (vm_compute; reflexivity).
  eexists. split; [exact Hup|]. split; [reflexivity|].
  apply (incremental_update_is_full_recomputation
           (full_integral G0) G0 G _ 2 3 1 1); try lia; try reflexivity;
    try (split; [reflexivity | repeat constructor]); try exact Hup.
  intros r c [Hr | Hc].
  - replace r with 0%nat by lia. destruct c as [|[|[|c]]]; reflexivity.
  - replace c with 0%nat by lia. destruct r as [|[|r]]; reflexivity.
Defined.

(** ** Sorting the words *)

Lemma np_take_map {A : Type} (a : list A) (inds : list nat) (d : A) :
  Forall (fun i => (i < length a)%nat) inds ->
  np_take a inds = Ok (map (fun i => nth i a d) inds).
Proof.
  induction 1 as [|i rest Hi Hrest IH]; [reflexivity|].
  cbn [np_take map]. rewrite (nth_error_nth' a d Hi), IH. reflexivity.
Qed.

Lemma np_take_out_of_range {A : Type} (a : list A) (inds : list nat) :
  Exists (fun i => (length a <= i)%nat) inds ->
  np_take a inds = Raise IndexError.
Proof.
  induction 1 as [i rest Hi | i rest Hrest IH]; cbn [np_take].
  - apply nth_error_None in Hi. now rewrite Hi.
  - destruct (nth_error a i); [|reflexivity]. now rewrite IH.
Qed.

Lemma map_nth_seq_combine {A B : Type} (l : list A) (k : list B) (d : A) (e : B) :
  (length k <= length l)%nat ->
  map (fun i => (nth i l d, nth i k e)) (seq 0 (length k))
  = combine (firstn (length k) l) k.
Proof.
  revert l. induction k as [|b k IH]; intros l Hl; [reflexivity|].
  destruct l as [|a l]; simpl in Hl; [lia|].
  cbn [length seq map firstn combine nth]. f_equal.
  rewrite <- seq_shift, map_map. cbn [nth]. apply IH. lia.
Qed.

Lemma combine_map_same {A B C : Type} (f : C -> A) (g : C -> B) (l : list C) :
  combine (map f l) (map g l) = map (fun i => (f i, g i)) l.
Proof. induction l as [|x l IH]; simpl; [reflexivity | now rewrite IH]. Qed.

Lemma normalize_length (counts : list Q) (a : list npfloat) :
  normalize counts = Ok a -> length a = length counts.
Proof.
  unfold normalize. destruct (np_max counts); cbn [bind]; try discriminate.
  intros [= <-]. apply length_map.
Qed.

Lemma argsort_indices_in_range (inds : list nat) (n : nat) :
  Permutation inds (seq 0 n) -> Forall (fun i => (i < n)%nat) (rev inds).
Proof.
  intros Hperm. apply Forall_forall. intros i Hi.
  apply in_rev in Hi. apply (Permutation_in _ Hperm) in Hi.
  apply in_seq in Hi. lia.
Qed.

(** X11. Sorting loses no word and keeps every word with its weight: when
    [argsort] returns a permutation of the indices and there are at least
    as many words as counts, the sorted (word, weight) pairs are a
    permutation of the input pairs - the words beyond the last count are
    left out. *)
Theorem sort_by_counts_keeps_pairs
        (env : Env) (words : list string) (counts : list Q) (a : list npfloat) :
  normalize counts = Ok a ->
  Permutation (argsort env a) (seq 0 (length a)) ->
  (length counts <= length words)%nat ->
  exists ws cs,
    sort_by_counts env words counts = Ok (ws, cs)
    /\ length ws = length counts /\ length cs = length counts
    /\ Permutation (combine ws cs)
                   (combine (firstn (length counts) words) a).
Proof.
  intros Hn Hperm Hlen. pose proof (normalize_length _ _ Hn) as Hla.
  pose proof (argsort_indices_in_range _ _ Hperm) as Hrange.
  unfold sort_by_counts. rewrite Hn. cbn [bind].
  rewrite (np_take_map a _ NaN Hrange). cbn [bind].
  rewrite (np_take_map words _ EmptyString)
    by (eapply Forall_impl; [|exact Hrange]; simpl; intros; lia).
  cbn [bind]. eexists _, _. split; [reflexivity|].
  assert (Hli : length (rev (argsort env a)) = length counts).
  { rewrite length_rev, (Permutation_length Hperm), length_seq. exact Hla. }
  split; [now rewrite length_map|]. split; [now rewrite length_map|].
  rewrite combine_map_same, <- Hla.
  rewrite <- (map_nth_seq_combine words a EmptyString NaN) by lia.
  apply Permutation_map.
  eapply Permutation_trans; [symmetry; apply Permutation_rev | exact Hperm].
Qed.

Lemma sort_by_counts_keeps_pairs_witness :
  let env := block_env (fun _ => 0%Q) in
  exists ws cs,
    sort_by_counts env ["a"; "b"; "c"; "d"]%string [3%Q; 7%Q; 3%Q] = Ok (ws, cs)
    /\ ws = ["b"; "c"; "a"]%string
    /\ Permutation (combine ws cs)
                   (combine ["a"; "b"; "c"]%string
                            [Finite (3 / 7); Finite (7 / 7); Finite (3 / 7)]).
Proof.
  intros env.
  destruct (sort_by_counts_keeps_pairs
              env ["a"; "b"; "c"; "d"]%string [3%Q; 7%Q; 3%Q]
              [Finite (3 / 7); Finite (7 / 7); Finite (3 / 7)] eq_refl
              (perm_skip 0%nat (perm_swap 1%nat 2%nat []))
              ltac:(simpl; lia))
    as (ws & cs & Hs & _ & _ & Hperm).
  exists ws, cs. split; [exact Hs|]. split; [|exact Hperm].
  vm_compute in Hs. congruence.
Defined.

(** X12. With fewer words than counts the indexing [words[inds]] raises
    IndexError, whatever permutation [argsort] returns. *)
Theorem sort_by_counts_too_few_words
        (env : Env) (words : list string) (counts : list Q) (a : list npfloat) :
  normalize counts = Ok a ->
  Permutation (argsort env a) (seq 0 (length a)) ->
  (length words < length counts)%nat ->
  sort_by_counts env words counts = Raise IndexError.
Proof.
  intros Hn Hperm Hlen. pose proof (normalize_length _ _ Hn) as Hla.
  pose proof (argsort_indices_in_range _ _ Hperm) as Hrange.
  unfold sort_by_counts. rewrite Hn. cbn [bind].
  rewrite (np_take_map a _ NaN Hrange). cbn [bind].
  rewrite np_take_out_of_range; [reflexivity|].
  apply Exists_exists. exists (length words). split; [|lia].
  apply -> in_rev. apply (Permutation_in _ (Permutation_sym Hperm)).
  apply in_seq. lia.
Qed.

Lemma sort_by_counts_too_few_words_witness :
  let env := block_env (fun _ => 0%Q) in
  normalize [3%Q; 7%Q] = Ok [Finite (3 / 7); Finite (7 / 7)]
  /\ sort_by_counts env ["a"%string] [3%Q; 7%Q] = Raise IndexError.
Proof.
  intros env. split; [reflexivity|].
  apply (sort_by_counts_too_few_words
           env ["a"%string] [3%Q; 7%Q] [Finite (3 / 7); Finite (7 / 7)]
           eq_refl (Permutation_refl _)).
  simpl. lia.
Defined.

(** ** Normalisation with a positive maximum *)

Lemma fold_Qmax_b_In (l : list Q) (a : Q) :
  fold_left Qmax_b l a = a \/ In (fold_left Qmax_b l a) l.
Proof.
  revert a. induction l as [|b l IH]; intros a; [now left|].
  cbn [fold_left]. destruct (IH (Qmax_b a b)) as [E | Hin].
  - rewrite E. unfold Qmax_b. destruct (Qle_bool a b); [right; now left | now left].
  - right. now right.
Qed.

Lemma np_max_In (counts : list Q) (m : Q) :
  np_max counts = Ok m -> In m counts.
Proof.
  destruct counts as [|c rest]; [discriminate|]. intros [= <-].
  destruct (fold_Qmax_b_In rest c) as [-> | Hin]; [now left | now right].
Qed.

(** X13. Whenever the largest count is positive - negative counts allowed -
    every normalised weight is a finite number at most 1 and the largest
    count itself normalises to 1. *)
Theorem normalize_positive_max
        (counts : list Q) (m : Q) (a : list npfloat) :
  np_max counts = Ok m -> (0 < m)%Q -> normalize counts = Ok a ->
  Forall finite_at_most_1 a /\ Exists finite_equal_1 a.
Proof.
  intros Hmax Hm. unfold normalize. rewrite Hmax. cbn [bind]. intros [= <-].
  assert (Hnz : Qeq_bool m 0 = false).
  { destruct (Qeq_bool m 0) eqn:E; [|reflexivity].
    apply Qeq_bool_iff in E. rewrite E in Hm. now apply Qlt_irrefl in Hm. }
  split.
  - apply Forall_forall. intros v Hv. apply in_map_iff in Hv.
    destruct Hv as [c [Hv Hc]]. subst v.
    unfold np_true_divide. rewrite Hnz. simpl.
    apply Qle_shift_div_r; [exact Hm|]. rewrite Qmult_1_l.
    now apply (np_max_upper_bound counts).
  - apply Exists_exists. exists (np_true_divide m m). split.
    + exact (in_map (fun c => np_true_divide c m) counts m
                    (np_max_In _ _ Hmax)).
    + unfold np_true_divide. rewrite Hnz. simpl.
      apply Qmult_inv_r. intros E. rewrite E in Hm. now apply Qlt_irrefl in Hm.
Qed.

Lemma normalize_positive_max_witness :
  np_max [(-2)%Q; 4%Q; 1%Q] = Ok 4%Q /\ (0 < 4)%Q
  /\ Forall finite_at_most_1
            [Finite ((-2) / 4); Finite (4 / 4); Finite (1 / 4)].
Proof.
  split; [reflexivity|]. split; [reflexivity|].
  exact (proj1 (normalize_positive_max [(-2)%Q; 4%Q; 1%Q] 4%Q _
                  eq_refl eq_refl eq_refl)).
Defined.

(** ** The command-line script *)

(** X14. With [--skip-missing] reading the sources never fails: the text is
    made of the lines of the files that can be opened, in the order given,
    and the missing ones contribute nothing. *)
Theorem read_sources_skips_missing_files
        (host : Host) (sources lines : list string) :
  read_sources host true sources lines
  = Ok (lines ++ flat_map (lines_of host) sources).
Proof.
  revert lines. induction sources as [|s rest IH]; intros lines.
  - simpl. now rewrite app_nil_r.
  - cbn [read_sources flat_map]. unfold lines_of at 1.
    destruct (read_lines host s) as [ls|].
    + rewrite IH. now rewrite app_assoc.
    + rewrite IH. reflexivity.
Qed.

(** X15. Without [--skip-missing] reading the sources ends with the IOError
    of the first file that cannot be opened; when every file opens, the text
    is made of all their lines in the order given. *)
Theorem read_sources_stops_at_first_missing_file
        (host : Host) (sources lines : list string) :
  read_sources host false sources lines
  = match find (is_missing host) sources with
    | Some s => Raise (IOError (strerror host s))
    | None => Ok (lines ++ flat_map (lines_of host) sources)
    end.
Proof.
  revert lines. induction sources as [|s rest IH]; intros lines.
  - simpl. now rewrite app_nil_r.
  - cbn [read_sources flat_map find]. unfold lines_of at 1, is_missing at 1.
    destruct (read_lines host s) as [ls|]; [|reflexivity].
    rewrite IH. destruct (find (is_missing host) rest); [reflexivity|].
    now rewrite app_assoc.
Qed.


Lemma np_mask_spec {A : Type} (a : list A) (p : Z -> bool) (counts : list Z) :
  length a = length counts ->
  np_mask a (map p counts)
  = Ok (map fst (filter (fun ac => p (snd ac)) (combine a counts))).
Proof.
  intros Hlen. unfold np_mask. rewrite length_map, Hlen, Nat.eqb_refl.
  f_equal. revert counts Hlen.
  induction a as [|x a IH]; intros [|c counts] Hlen; try discriminate;
    [reflexivity|].
  cbn [map combine filter snd]. destruct (p c); cbn [map fst];
    rewrite IH by (simpl in Hlen; congruence); reflexivity.
Qed.

Lemma mask_self (p : Z -> bool) (counts : list Z) :
  map fst (filter (fun cc => p (snd cc)) (combine counts counts))
  = filter p counts.
Proof.
  induction counts as [|c counts IH]; [reflexivity|].
  cbn [combine filter snd]. destruct (p c); cbn [map fst]; now rewrite IH.
Qed.

Lemma mask_pairs {A : Type} (p : Z -> bool) (a : list A) (counts : list Z) :
  length a = length counts ->
  combine (map fst (filter (fun ac => p (snd ac)) (combine a counts)))
          (filter p counts)
  = filter (fun ac => p (snd ac)) (combine a counts)
  /\ length (map fst (filter (fun ac => p (snd ac)) (combine a counts)))
     = length (filter p counts).
Proof.
  revert counts. induction a as [|x a IH]; intros [|c counts] Hlen;
    try discriminate; [split; reflexivity|].
  destruct (IH counts ltac:(simpl in Hlen; congruence)) as [IH1 IH2].
  cbn [combine filter snd]. destruct (p c); cbn [map fst combine length];
    rewrite ?IH1, ?IH2; split; reflexivity.
Qed.

Lemma keep_frequent_spec (words : list string) (counts : list Z) :
  (length words = length counts ->
   exists ws,
     keep_frequent words counts = Ok (ws, filter (fun c => c >? 1) counts)
     /\ combine ws (filter (fun c => c >? 1) counts)
        = filter (fun wc => snd wc >? 1) (combine words counts)
     /\ length ws = length (filter (fun c => c >? 1) counts)
     /\ Forall (fun c => 1 < c) (filter (fun c => c >? 1) counts))
  /\ (length words <> length counts ->
      keep_frequent words counts = Raise IndexError).
Proof.
  split.
  - intros Hlen. unfold keep_frequent.
    rewrite (np_mask_spec words (fun c => c >? 1) counts Hlen).
    rewrite (np_mask_spec counts (fun c => c >? 1) counts eq_refl).
    cbn [bind]. pose proof (mask_self (fun c => c >? 1) counts) as Hself.
    cbv beta in Hself. rewrite Hself. eexists. split; [reflexivity|].
    destruct (mask_pairs (fun c => c >? 1) words counts Hlen) as [Hp Hl].
    cbv beta in Hp, Hl.
    split; [exact Hp|]. split; [exact Hl|].
    apply Forall_forall. intros c Hc. apply filter_In in Hc. lia.
  - intros Hlen. unfold keep_frequent, np_mask at 1.
    rewrite length_map.
    destruct (Nat.eqb_spec (length words) (length counts)); [contradiction|].
    reflexivity.
Qed.

(** X17. Keeping the frequent words keeps words and counts aligned: for
    arrays of one length the result is, in order, exactly the (word, count)
    pairs whose count is above 1; for arrays of different lengths the
    boolean indexing raises IndexError. *)
Theorem keep_frequent_keeps_pairs (words : list string) (counts : list Z) :
  (length words = length counts ->
   exists ws,
     keep_frequent words counts = Ok (ws, filter (fun c => c >? 1) counts)
     /\ combine ws (filter (fun c => c >? 1) counts)
        = filter (fun wc => snd wc >? 1) (combine words counts)
     /\ length ws = length (filter (fun c => c >? 1) counts)
     /\ Forall (fun c => 1 < c) (filter (fun c => c >? 1) counts))
  /\ (length words <> length counts ->
      keep_frequent words counts = Raise IndexError).
Proof. exact (keep_frequent_spec words counts). Qed.

Lemma keep_frequent_keeps_pairs_witness :
  length ["one"; "two"; "three"]%string = length [1; 2; 3]
  /\ keep_frequent ["one"; "two"; "three"]%string [1; 2; 3]
     = Ok (["two"; "three"]%string, [2; 3])
  /\ keep_frequent ["one"; "two"]%string [1; 2; 3] = Raise IndexError.
Proof.
  split; [reflexivity|].
  destruct (keep_frequent_keeps_pairs ["one"; "two"; "three"]%string [1; 2; 3])
    as [Hsame _].
  destruct (keep_frequent_keeps_pairs ["one"; "two"]%string [1; 2; 3])
    as [_ Hdiff].
  split; [|apply Hdiff; discriminate].
  destruct (Hsame eq_refl) as (ws & Hk & _). reflexivity.
Defined.

(** *** What the script hands to make_wordcloud *)

Lemma inject_Z_max_positive (cs : list Z) (m : Q) :
  Forall (fun c => 1 < c) cs ->
  np_max (map inject_Z cs) = Ok m -> (0 < m)%Q.
Proof.
  intros Hall Hmax. pose proof (np_max_In _ _ Hmax) as Hin.
  apply in_map_iff in Hin. destruct Hin as [c [Hc Hin]]. subst m.
  rewrite Forall_forall in Hall. specialize (Hall c Hin).
  change 0%Q with (inject_Z 0). rewrite <- Zlt_Qlt. lia.
Qed.

(** X18. The weights the script passes on are sound: when at least one word
    occurs more than once, the counts kept by the script normalise to
    finite weights in (0, 1] - never nan or an infinity. *)
Theorem script_weights_are_positive
        (words : list string) (counts : list Z)
        (ws : list string) (cs : list Z) :
  keep_frequent words counts = Ok (ws, cs) -> cs <> [] ->
  exists a,
    normalize (map inject_Z cs) = Ok a /\ Forall positive_weight a.
Proof.
  intros Hk Hne.
  assert (Hlen : length words = length counts).
  { destruct (Nat.eq_dec (length words) (length counts)) as [E|E]; [exact E|].
    rewrite (proj2 (keep_frequent_spec words counts) E) in Hk.
    discriminate. }
  destruct (proj1 (keep_frequent_spec words counts) Hlen)
    as (ws' & Hk' & _ & _ & Hall).
  rewrite Hk' in Hk. injection Hk as <- <-.
  set (cs := filter (fun c => c >? 1) counts) in *.
  destruct (np_max (map inject_Z cs)) as [m| |] eqn:Hmax;
    try (destruct cs; [contradiction | discriminate]).
  pose proof (inject_Z_max_positive cs m Hall Hmax) as Hm.
  unfold normalize. rewrite Hmax. cbn [bind]. eexists. split; [reflexivity|].
  apply Forall_forall. intros v Hv. apply in_map_iff in Hv.
  destruct Hv as [q [Hv Hq]]. subst v.
  pose proof (np_max_upper_bound _ _ _ Hmax Hq) as Hle.
  apply in_map_iff in Hq. destruct Hq as [c [Hc Hin]]. subst q.
  rewrite Forall_forall in Hall. specialize (Hall c Hin).
  assert (Hcpos : (0 < inject_Z c)%Q)
    by (change 0%Q with (inject_Z 0); rewrite <- Zlt_Qlt; lia).
  unfold np_true_divide.
  destruct (Qeq_bool m 0) eqn:E.
  { apply Qeq_bool_iff in E. rewrite E in Hm. now apply Qlt_irrefl in Hm. }
  simpl. split.
  - apply Qlt_shift_div_l; [exact Hm|]. now rewrite Qmult_0_l.
  - apply Qle_shift_div_r; [exact Hm|]. now rewrite Qmult_1_l.
Qed.

Lemma script_weights_are_positive_witness :
  keep_frequent ["one"; "two"; "three"]%string [1; 2; 3]
  = Ok (["two"; "three"]%string, [2; 3])
  /\ exists a, normalize (map inject_Z [2; 3]) = Ok a
               /\ Forall positive_weight a.
Proof.
  split; [reflexivity|].
  apply (script_weights_are_positive
           ["one"; "two"; "three"]%string [1; 2; 3]
           ["two"; "three"]%string [2; 3] eq_refl).
  discriminate.
Defined.

(** X19. A text in which no word occurs more than once ends the script with
    the ValueError of [counts.max()]: all words are filtered out and
    make_wordcloud is called with empty arrays. *)
Theorem main_without_frequent_words
        (host : Host) (env : Env) (fuel : nat) (args : Args)
        (sw : stop_words) (lines sources : list string)
        (words : list string) (counts : list Z) :
  select_stopwords host args = Ok sw ->
  gather_lines host args = Ok (lines, sources) ->
  count_vectorizer host sw (String.concat EmptyString lines)
  = Ok (words, counts) ->
  length words = length counts ->
  Forall (fun c => c <= 1) counts ->
  main host env fuel args = Raise ValueError.
Proof.
  intros Hsw Hg Hcv Hlen Hall. unfold main.
  rewrite Hsw. cbn [bind]. rewrite Hg. cbn [bind fst snd].
  rewrite Hcv. cbn [bind fst snd].
  destruct (proj1 (keep_frequent_spec words counts) Hlen)
    as (ws & Hk & _ & Hl & _).
  assert (Hnil : filter (fun c => c >? 1) counts = []).
  { clear -Hall. induction Hall as [|c counts Hc _ IH]; [reflexivity|].
    cbn [filter]. destruct (Z.gtb_spec c 1); [lia | exact IH]. }
  rewrite Hk, Hnil. cbn [bind fst snd map]. reflexivity.
Qed.

Lemma main_without_frequent_words_witness :
  let args := {| arg_input := ["a.txt"; "-"]%string; arg_skip := false;
                 arg_stopwords := None; arg_font_path := None;
                 arg_output := None; arg_width := 400; arg_height := 200 |} in
  gather_lines demo_host args = Ok (["from stdin"%string], ["stdin"%string])
  /\ main demo_host (block_env (fun _ => 0%Q)) 1000 args = Raise ValueError.
Proof.
  intros args. split; [reflexivity|].
  apply (main_without_frequent_words
           demo_host (block_env (fun _ => 0%Q)) 1000 args english
           ["from stdin"%string] ["stdin"%string]
           ["from"; "stdin"]%string [1; 1]);
    try reflexivity.
  repeat constructor; lia.
Defined.

(** *** The name of the image *)

Lemma has_char_app (c : ascii) (s t : string) :
  has_char c (s ++ t)%string = has_char c s || has_char c t.
Proof.
  induction s as [|d s IH]; [reflexivity|].
  cbn [String.append has_char]. rewrite IH. now rewrite orb_assoc.
Qed.

Lemma last_segment_no_sep (sep : ascii) (s acc : string) :
  has_char sep acc = false -> has_char sep (last_segment sep s acc) = false.
Proof.
  revert acc. induction s as [|c s IH]; intros acc Hacc; [exact Hacc|].
  cbn [last_segment]. destruct (Ascii.eqb c sep) eqn:E.
  - apply IH. reflexivity.
  - apply IH. rewrite has_char_app, Hacc. cbn [has_char orb].
    rewrite E. reflexivity.
Qed.

Lemma split_last_dot_app (s before ext : string) :
  split_last_dot s = Some (before, ext) -> s = (before ++ ext)%string.
Proof.
  revert before ext. induction s as [|c s IH]; intros before ext H;
    [discriminate|].
  cbn [split_last_dot] in H.
  destruct (split_last_dot s) as [[b e]|].
  - injection H as <- <-. cbn [String.append]. f_equal. now apply IH.
  - destruct (Ascii.eqb c "."%char); [|discriminate].
    injection H as <- <-. reflexivity.
Qed.

Lemma splitext_root_no_sep (sep : ascii) (name : string) :
  has_char sep name = false -> has_char sep (splitext_root name) = false.
Proof.
  intros Hname. unfold splitext_root.
  destruct (split_last_dot name) as [[before ext]|] eqn:E; [|exact Hname].
  destruct (only_dots before); [exact Hname|].
  apply split_last_dot_app in E. rewrite E, has_char_app in Hname.
  now apply orb_false_iff in Hname.
Qed.

(** X20. Without [--output], the image is written to the current
    directory: the default name is the first source's base name up to its
    extension, followed by "_.png", and contains no '/', wherever that
    source lies. *)
Theorem default_output_name_has_no_directory
        (args : Args) (sources : list string) :
  arg_output args = None \/ arg_output args = Some EmptyString ->
  output_filename args sources
  = (splitext_root (basename (hd EmptyString sources)) ++ "_.png")%string
  /\ has_char "/"%char (output_filename args sources) = false.
Proof.
  intros Hout.
  assert (E : output_filename args sources
              = (splitext_root (basename (hd EmptyString sources))
                 ++ "_.png")%string).
  { unfold output_filename. destruct Hout as [-> | ->]; reflexivity. }
  split; [exact E|]. rewrite E, has_char_app.
  rewrite splitext_root_no_sep; [reflexivity|].
  apply last_segment_no_sep. reflexivity.
Qed.

Lemma default_output_name_has_no_directory_witness :
  let args := {| arg_input := ["dir/b.tar.gz"]%string; arg_skip := false;
                 arg_stopwords := None; arg_font_path := None;
                 arg_output := None; arg_width := 400; arg_height := 200 |} in
  output_filename args ["dir/b.tar.gz"%string] = "b.tar_.png"%string
  /\ has_char "/"%char (output_filename args ["dir/b.tar.gz"%string]) = false.
Proof.
  intros args. split; [reflexivity|].
  apply (default_output_name_has_no_directory args ["dir/b.tar.gz"%string]).
  left. reflexivity.
Defined.

(** ** More on the shrink loop and on exceptions *)

(** X21. The shrink loop gives a word the largest size that fits: at every
    size above the one it leaves with, down from the starting size, the
    font was loaded and the query found no position for the box measured
    in the orientation drawn at that attempt. *)
Theorem shrink_loop_leaves_at_first_fit
        (env : Env) (font_path : string) (margin : Z) (prefer_horiz : Q)
        (fuel : nat) (word : string) (size : Z) (I : matrix) (draws : nat)
        (a : attempt (Font env)) :
  shrink_loop env font_path margin prefer_horiz fuel word size I draws = Ok a ->
  forall s, a_font_size a < s <= size ->
    exists font,
      truetype env font_path s = Some font
      /\ let o := choose_orientation
                    (random env (draws + Z.to_nat (size - s))) prefer_horiz in
         query_integral_image I (snd (textsize env font o word) + margin)
                              (fst (textsize env font o word) + margin)
         = None.
Proof.
  revert size draws.
  induction fuel as [|fuel IH]; intros size draws H s Hs; simpl in H;
    destruct (truetype env font_path size) as [font|] eqn:Hfont;
    try discriminate;
    match type of H with
    | (if ?c then _ else _) = _ => destruct c eqn:Hc
    end; try discriminate.
  1,2: injection H as <-; cbn [a_font_size] in Hs; lia.
  apply orb_false_iff in Hc. destruct Hc as [Hq _].
  destruct (Z.eq_dec s size) as [-> | Hne].
  - exists font. split; [exact Hfont|]. cbv zeta.
    replace (draws + Z.to_nat (size - size))%nat with draws by lia.
    destruct (query_integral_image I _ _); [discriminate | reflexivity].
  - destruct (IH (size - 1) (S draws) H s ltac:(lia)) as (font' & Hf' & Hq').
    exists font'. split; [exact Hf'|]. cbv zeta in *.
    replace (draws + Z.to_nat (size - s))%nat
      with (S draws + Z.to_nat (size - 1 - s))%nat by lia.
    exact Hq'.
Qed.

Lemma shrink_loop_leaves_at_first_fit_witness :
  let env := block_env first_low in
  exists a,
    shrink_loop env FONT_PATH 5 (9 # 10) 1000 "ab"%string 6
                (zeros 20 9) 0 = Ok a
    /\ a_font_size a = 4
    /\ exists font,
        truetype env FONT_PATH 5 = Some font
        /\ query_integral_image
             (zeros 20 9)
             (snd (textsize env font ROTATE_90 "ab"%string) + 5)
             (fst (textsize env font ROTATE_90 "ab"%string) + 5) = None.
Proof.
  intros env.
  eassert (H : shrink_loop env FONT_PATH 5 (9 # 10) 1000 "ab"%string 6
                           (zeros 20 9) 0 = Ok _) by (vm_compute; reflexivity).
  eexists. split; [exact H|]. split; [reflexivity|].
  exact (shrink_loop_leaves_at_first_fit
           env FONT_PATH 5 (9 # 10) 1000 "ab"%string 6 (zeros 20 9) 0%nat _ H
           5 ltac:(cbn; lia)).
Defined.







